(** * The queue package: a shallow embedding and its properties

    The Go package [queue] keeps the elements of a queue in one slice,
    [queueSlice], next to a counter [numElements], a limit
    [maxnumElements], the order of the queue and a mutex.  This file
    embeds the package function by function and states what the
    operations do.  [InsertionSort] of the package [sorting] is embedded
    next to it.

    Conventions of the embedding.
    - A Go [int] is a [Z].  Counters and loop indices stay between 0 and
      the length of a slice, so their arithmetic is written without
      wrap-around; the one subtraction whose operand comes from the
      caller ([PeekElemAtIndex]) is wrapped to 64 bits.
    - A priority is a [float64]: the binary64 floats of Rocq, compared
      with [PrimFloat.ltb] and [PrimFloat.eqb].
    - An [Element[T]] is an interface value: [None] is the nil interface,
      [Some p] a pointer to a [BaseElement] or a [PriorityElement] that
      lives in a heap.
    - A slice is the list of its cells together with the other cells of
      its backing array: those in front of its first cell and those
      between its length and its capacity.
    - A call either returns, panics, or blocks for ever on the mutex. *)

From Stdlib Require Import ZArith QArith Qround String PrimFloat Lia Sorted.
From stdpp Require Import base list.

Local Open Scope Z_scope.

(** ** Outcomes of a call *)

Inductive panic : Type :=
| NilDereference          (* method call through a nil interface *)
| IndexOutOfRange         (* s[i] with i outside [0, len(s)) *)
| SliceBoundsOutOfRange   (* s[a:] or s[:b] outside the bounds *)
| MakeSliceOutOfRange.    (* make with a negative length or cap < len *)

Inductive outcome (A : Type) : Type :=
| Returns (a : A)
| Panics (p : panic)
| Deadlocks.

Arguments Returns {A} a.
Arguments Panics {A} p.
Arguments Deadlocks {A}.

#[global] Instance outcome_ret : MRet outcome := @Returns.

#[global] Instance outcome_bind : MBind outcome := fun A B k m =>
  match m with
  | Returns a => k a
  | Panics p => Panics p
  | Deadlocks => Deadlocks
  end.

(** ** errors.go *)

Inductive error : Type :=
| ErrEmptyQueue
| ErrIndexOutOfBounds
| ErrInvalidQueueType
| ErrInvalidQueueLimit
| Wrapped (err : error) (message : string)
| WrappedAt (err : error) (message : string) (position : Z)
| Failure (message : string).   (* an error made by the caller's function *)

(** [errors.Wrap] and [errors.Wrapf] of github.com/pkg/errors: nil stays nil. *)
Definition Wrap (err : option error) (message : string) : option error :=
  match err with
  | None => None
  | Some e => Some (Wrapped e message)
  end.

Definition Wrapf (err : option error) (message : string) (position : Z)
  : option error :=
  match err with
  | None => None
  | Some e => Some (WrappedAt e message position)
  end.

(** [errors.Cause]: the error at the bottom of a chain of wraps. *)
Fixpoint Cause (e : error) : error :=
  match e with
  | Wrapped e' _ => Cause e'
  | WrappedAt e' _ _ => Cause e'
  | _ => e
  end.

(** 64-bit two's complement wrap-around of an [int]. *)
Definition wrap64 (z : Z) : Z := (z + 2 ^ 63) mod 2 ^ 64 - 2 ^ 63.

(** ** queue.go: the order of a queue *)

Definition Queuetype : Type := Z.

Definition Fifo : Queuetype := 0.
Definition Lifo : Queuetype := 1.
Definition PriorityHigh : Queuetype := 2.
Definition PriorityLow : Queuetype := 3.
Definition FifoLimited : Queuetype := 4.
Definition numQueuetypes : Z := 5.

(** ** sorting/insertionSort.go *)

(** [a[i]] and [a[i] = x] on a slice of [int]. *)
Definition read (a : list Z) (i : Z) : outcome Z :=
  if (i <? 0) || (Z.of_nat (length a) <=? i) then Panics IndexOutOfRange
  else match a !! Z.to_nat i with
       | Some x => Returns x
       | None => Panics IndexOutOfRange
       end.

Definition write (a : list Z) (i : Z) (x : Z) : outcome (list Z) :=
  if (i <? 0) || (Z.of_nat (length a) <=? i) then Panics IndexOutOfRange
  else Returns (<[Z.to_nat i := x]> a).

(** The inner loop [for j := i - 1; j >= 0; j--]: [n] is [j + 1], so the
    loop is left at [n = 0].  The assignment
    [a[j], a[j+1] = a[j+1], a[j]] reads both cells, then writes
    [a[j]], then [a[j+1]]. *)
Fixpoint sink (a : list Z) (n : nat) : outcome (list Z) :=
  match n with
  | O => mret a
  | S n' =>
      let j := Z.of_nat n' in
      x ← read a (j + 1);
      y ← read a j;
      if x <? y then
        x ← read a (j + 1);
        y ← read a j;
        a ← write a j x;
        a ← write a (j + 1) y;
        sink a n'
      else mret a
  end.

(** The outer loop [for i := 1; i < l; i++], at index [i] with [n]
    indices to go. *)
Fixpoint passes (a : list Z) (i : Z) (n : nat) : outcome (list Z) :=
  match n with
  | O => mret a
  | S n' =>
      x ← read a i;
      y ← read a (i - 1);
      a ← (if x >=? y then mret a else sink a (Z.to_nat (i - 1 + 1)));
      passes a (i + 1) n'
  end.

(** [InsertionSort(a)] sorts in place: the result is what the array of
    [a] holds when the call returns. *)
Definition InsertionSort (a : list Z) : outcome (list Z) :=
  let l := Z.of_nat (length a) in
  if l <=? 1 then mret a
  else passes a 1 (Z.to_nat (l - 1)).

(** Where the inner loop leaves [x] in a sorted run. *)
Fixpoint place (x : Z) (l : list Z) : list Z :=
  match l with
  | [] => [x]
  | y :: l' => if x <? y then x :: l else y :: place x l'
  end.

(** ** queue.go, element.go, removeFunctions.go and the others of the
    package [queue] *)

Section Queue.

(** The content type of the elements and its zero value, [*new(T)]. *)
Context {T : Type}.
Variable zeroT : T.

(** The capacity that the runtime gives to the new backing array when
    [append] has to grow one of capacity [c] to hold [n] cells.  The
    language leaves it open, and the properties below hold whatever it
    is. *)
Variable growslice : Z -> Z -> Z.

(** ** element.go *)

Inductive object : Type :=
| BaseElement (content : T)
| PriorityElement (priority : float) (content : T).

Definition pointer : Type := nat.

Definition Element : Type := option pointer.

Definition Heap : Type := pointer -> object.

Definition store (h : Heap) (p : pointer) (o : object) : Heap :=
  fun p' => if Nat.eqb p' p then o else h p'.

Definition Priority (h : Heap) (e : Element) : outcome float :=
  match e with
  | None => Panics NilDereference
  | Some p =>
      match h p with
      | BaseElement _ => Returns 0%float
      | PriorityElement priority _ => Returns priority
      end
  end.

Definition SetPriority (h : Heap) (e : Element) (priority : float)
  : outcome Heap :=
  match e with
  | None => Panics NilDereference
  | Some p =>
      match h p with
      | BaseElement _ => Returns h
      | PriorityElement _ c => Returns (store h p (PriorityElement priority c))
      end
  end.

Definition Content (h : Heap) (e : Element) : outcome T :=
  match e with
  | None => Panics NilDereference
  | Some p =>
      match h p with
      | BaseElement c => Returns c
      | PriorityElement _ c => Returns c
      end
  end.

(** ** Slices of elements *)

Record slice : Type := mkSlice {
  before : list Element;   (* the cells of the array in front of s[0] *)
  elems : list Element;    (* the cells s[0] .. s[len(s)-1] *)
  hidden : list Element    (* the cells of the array from len(s) to cap(s) *)
}.

Definition len (s : slice) : Z := Z.of_nat (length (elems s)).

Definition cap (s : slice) : Z := len s + Z.of_nat (length (hidden s)).

(** [[]Element[T]{e}] *)
Definition literal (e : Element) : slice := mkSlice [] [e] [].

(** [make([]Element[T], n)] and [make([]Element[T], n, c)] *)
Definition make (n : Z) : outcome slice :=
  if n <? 0 then Panics MakeSliceOutOfRange
  else Returns (mkSlice [] (replicate (Z.to_nat n) None) []).

Definition make_cap (n c : Z) : outcome slice :=
  if (n <? 0) || (c <? n) then Panics MakeSliceOutOfRange
  else Returns (mkSlice [] (replicate (Z.to_nat n) None)
                        (replicate (Z.to_nat (c - n)) None)).

(** [s[i]] *)
Definition index (s : slice) (i : Z) : outcome Element :=
  if (i <? 0) || (len s <=? i) then Panics IndexOutOfRange
  else match elems s !! Z.to_nat i with
       | Some e => Returns e
       | None => Panics IndexOutOfRange
       end.

(** [s[i] = e] *)
Definition assign (s : slice) (i : Z) (e : Element) : outcome slice :=
  if (i <? 0) || (len s <=? i) then Panics IndexOutOfRange
  else Returns (mkSlice (before s) (<[Z.to_nat i := e]> (elems s)) (hidden s)).

(** [s[a:]] *)
Definition slice_from (s : slice) (a : Z) : outcome slice :=
  if (a <? 0) || (len s <? a) then Panics SliceBoundsOutOfRange
  else Returns (mkSlice (before s ++ take (Z.to_nat a) (elems s))
                        (drop (Z.to_nat a) (elems s)) (hidden s)).

(** [s[:b]]: [b] may go up to the capacity. *)
Definition slice_to (s : slice) (b : Z) : outcome slice :=
  if (b <? 0) || (cap s <? b) then Panics SliceBoundsOutOfRange
  else Returns (mkSlice (before s)
                        (take (Z.to_nat b) (elems s ++ hidden s))
                        (drop (Z.to_nat b) (elems s ++ hidden s))).

(** [append(s, xs...)]: in place when the capacity allows it, in a new
    array otherwise; the cells of a new array past the length are nil. *)
Definition append (s : slice) (xs : list Element) : slice :=
  let n := len s + Z.of_nat (length xs) in
  mkSlice (if n <=? cap s then before s else [])
          (elems s ++ xs)
          (if n <=? cap s then drop (length xs) (hidden s)
           else replicate (Z.to_nat (growslice (cap s) n - n)) None).

(** [copy(dst, src)] writes the first [min(len(dst), len(src))] cells. *)
Definition copy (dst : slice) (src : list Element) : slice :=
  let n := Nat.min (length (elems dst)) (length src) in
  mkSlice (before dst) (take n src ++ drop n (elems dst)) (hidden dst).

(** What [s] shows after a write through [s[i:]], with which it shares
    its array: [dst] is the state of [s[i:]] after the write. *)
Definition written_through (s : slice) (i : Z) (dst : slice) : slice :=
  mkSlice (before s) (take (Z.to_nat i) (elems s) ++ elems dst) (hidden s).

(** ** queue.go: the queue *)

Record Queue : Type := mkQueue {
  order : Queuetype;
  lock : bool;              (* sync.Mutex: true while it is held *)
  queueSlice : slice;
  numElements : Z;
  maxnumElements : Z
}.

Definition set_lock (b : bool) (q : Queue) : Queue :=
  mkQueue (order q) b (queueSlice q) (numElements q) (maxnumElements q).

Definition set_queueSlice (s : slice) (q : Queue) : Queue :=
  mkQueue (order q) (lock q) s (numElements q) (maxnumElements q).

Definition set_numElements (n : Z) (q : Queue) : Queue :=
  mkQueue (order q) (lock q) (queueSlice q) n (maxnumElements q).

Definition set_maxnumElements (n : Z) (q : Queue) : Queue :=
  mkQueue (order q) (lock q) (queueSlice q) (numElements q) n.

(** [q.lock.Lock()]: blocks for ever when the mutex is held. *)
Definition Lock (q : Queue) : outcome Queue :=
  if lock q then Deadlocks else Returns (set_lock true q).

(** [q.lock.Unlock()], run by [defer] when the body returns. *)
Definition Unlock (q : Queue) : Queue := set_lock false q.

(** [q.lock.Lock(); defer q.lock.Unlock(); body] *)
Definition locked {A : Type} (q : Queue) (body : Queue -> outcome (A * Queue))
  : outcome (A * Queue) :=
  q1 ← Lock q;
  r ← body q1;
  mret (r.1, Unlock r.2).

Definition NewQueue (tp : Queuetype) : option Queue * option error :=
  if (tp <? 0) || (numQueuetypes <? tp) then (None, Some ErrInvalidQueueType)
  else (Some (mkQueue tp false (mkSlice [] [] []) 0 0), None).

Definition Len (q : Queue) : Z := numElements q.

Definition SetLimit (limit : Z) (q : Queue) : option error * Queue :=
  if limit <? 0 then (Some ErrInvalidQueueLimit, q)
  else (None, set_maxnumElements limit q).

Definition Append (elem : Element) (q : Queue) : outcome Queue :=
  r ← locked q (fun q =>
    let q := set_queueSlice (append (queueSlice q) [elem]) q in
    mret (tt, set_numElements (numElements q + 1) q));
  mret r.2.

(** ** shrinking.go

    The factors are [float64] constants, and [handleShrink] multiplies
    them with [float64(cap(q.queueSlice))] in [float64].  Here the
    factors and the products are exact rationals.  A [float64] product
    is the rounding of the rational one, so the two can decide
    differently when the rational product is within a rounding error of
    the length; what depends on the decision is the capacity of the
    slice, never its cells. *)

Definition shrinkFactor (q : Queue) : Q :=
  if numElements q <? 1000 then 0.75%Q
  else if numElements q <? 10000 then 0.9%Q
  else if numElements q <? 100000 then 0.99%Q
  else if numElements q <? 1000000 then 0.999%Q
  else 0.9999%Q.

Definition afterShrinkFactor (q : Queue) : Q :=
  if numElements q <? 1000 then 0.8%Q
  else if numElements q <? 10000 then 0.95%Q
  else if numElements q <? 100000 then 0.995%Q
  else if numElements q <? 1000000 then 0.9995%Q
  else 0.99995%Q.

(** ** removeFunctions.go *)

Definition Qlt_bool (x y : Q) : bool := negb (Qle_bool y x).

Definition handleShrink (q : Queue) : outcome Queue :=
  let lenQ := len (queueSlice q) in
  if Qlt_bool (inject_Z lenQ)
              (shrinkFactor q * inject_Z (cap (queueSlice q)))%Q
  then
    let newCap :=
      Qceiling (afterShrinkFactor q * inject_Z (cap (queueSlice q)))%Q in
    temp ← make_cap lenQ newCap;
    src ← slice_to (queueSlice q) lenQ;
    mret (set_queueSlice (copy temp (elems src)) q)
  else mret q.

Definition deleteWithoutMemoryManagement (i : Z) (q : Queue)
  : outcome (Element * option error * Queue) :=
  let lenQ := numElements q in
  if lenQ =? 0 then mret (None, Some ErrEmptyQueue, q)
  else if (i <? 0) || (numElements q <=? i)
  then mret (None, Some ErrIndexOutOfBounds, q)
  else
    elem ← index (queueSlice q) i;
    q' ← (if i =? lenQ then
            s ← slice_to (queueSlice q) i;
            mret (set_queueSlice s q)
          else if i =? 0 then
            s ← assign (queueSlice q) 0 None;
            s ← slice_from s 1;
            mret (set_queueSlice s q)
          else
            dst ← slice_from (queueSlice q) i;
            src ← slice_from (queueSlice q) (i + 1);
            let s := written_through (queueSlice q) i (copy dst (elems src)) in
            s ← assign s (lenQ - 1) None;
            s ← slice_to s (lenQ - 1);
            mret (set_queueSlice s q));
    mret (elem, None, set_numElements (numElements q' - 1) q').

Definition remove (i : Z) (q : Queue)
  : outcome (Element * option error * Queue) :=
  r ← deleteWithoutMemoryManagement i q;
  q' ← handleShrink r.2;
  mret (r.1.1, Wrap r.1.2 "removing element", q').

(** ** The insertion functions *)

Definition insertFifo (elem : Element) (q : Queue) : Queue :=
  set_queueSlice (append (literal elem) (elems (queueSlice q))) q.

Definition insertLifo (elem : Element) (q : Queue) : Queue :=
  set_queueSlice (append (queueSlice q) [elem]) q.

(** The loop of [backtrackInsertionPoint]: [n] is [i + 1], so the loop
    [for i := q.numElements - 1; i > -1; i--] starts at
    [n = q.numElements] and falls out of the loop at [n = 0]. *)
Fixpoint backtrack_from (h : Heap) (elem : Element) (q : Queue) (n : nat)
  : outcome Queue :=
  match n with
  | O => mret (set_queueSlice (append (literal elem) (elems (queueSlice q))) q)
  | S n' =>
      let i := Z.of_nat n' in
      e ← index (queueSlice q) i;
      pe ← Priority h e;
      p ← Priority h elem;
      if PrimFloat.eqb pe p then backtrack_from h elem q n'
      else
        back ← slice_from (queueSlice q) i;
        front ← slice_to (queueSlice q) i;
        mret (set_queueSlice
                (append back (elems (append (literal elem) (elems front)))) q)
  end.

Definition backtrackInsertionPoint (h : Heap) (elem : Element) (q : Queue)
  : outcome Queue :=
  backtrack_from h elem q (Z.to_nat (numElements q)).

(** The statement inside the loops of [insertPriorityHigh] and
    [insertPriorityLow]:
    [q.queueSlice = append(q.queueSlice[:(i-1)],
       append([]Element[T]{elem}, q.queueSlice[(i-1):]...)...)]. *)
Definition insertBefore (elem : Element) (i : Z) (q : Queue) : outcome Queue :=
  front ← slice_to (queueSlice q) (i - 1);
  back ← slice_from (queueSlice q) (i - 1);
  mret (set_queueSlice
          (append front (elems (append (literal elem) (elems back)))) q).

(** The loop [for i, e := range q.queueSlice] of [insertPriorityHigh],
    at index [i] with the cells [rest] still to visit. *)
Fixpoint insertPriorityHigh_range (h : Heap) (elem : Element) (q : Queue)
    (i : Z) (rest : list Element) : outcome Queue :=
  match rest with
  | [] => mret q
  | e :: rest' =>
      pe ← Priority h e;
      p ← Priority h elem;
      if PrimFloat.ltb pe p
      then insertPriorityHigh_range h elem q (i + 1) rest'
      else insertBefore elem i q
  end.

Definition insertPriorityHigh (h : Heap) (elem : Element) (q : Queue)
  : outcome Queue :=
  direct ← (if numElements q =? 0 then mret true
            else
              tail ← index (queueSlice q) (numElements q - 1);
              pt ← Priority h tail;
              p ← Priority h elem;
              mret (PrimFloat.ltb pt p));
  if direct : bool then mret (set_queueSlice (append (queueSlice q) [elem]) q)
  else
    tail ← index (queueSlice q) (numElements q - 1);
    pt ← Priority h tail;
    p ← Priority h elem;
    q ← (if PrimFloat.eqb pt p then backtrackInsertionPoint h elem q
         else mret q);
    insertPriorityHigh_range h elem q 0 (elems (queueSlice q)).

Fixpoint insertPriorityLow_range (h : Heap) (elem : Element) (q : Queue)
    (i : Z) (rest : list Element) : outcome Queue :=
  match rest with
  | [] => mret q
  | e :: rest' =>
      pe ← Priority h e;
      p ← Priority h elem;
      if PrimFloat.ltb p pe
      then insertPriorityLow_range h elem q (i + 1) rest'
      else insertBefore elem i q
  end.

Definition insertPriorityLow (h : Heap) (elem : Element) (q : Queue)
  : outcome Queue :=
  direct ← (if numElements q =? 0 then mret true
            else
              tail ← index (queueSlice q) (numElements q - 1);
              pt ← Priority h tail;
              p ← Priority h elem;
              mret (PrimFloat.ltb p pt));
  if direct : bool then mret (set_queueSlice (append (queueSlice q) [elem]) q)
  else
    tail ← index (queueSlice q) (numElements q - 1);
    pt ← Priority h tail;
    p ← Priority h elem;
    q ← (if PrimFloat.eqb pt p then backtrackInsertionPoint h elem q
         else mret q);
    insertPriorityLow_range h elem q 0 (elems (queueSlice q)).

Definition insertFifoLimited (elem : Element) (q : Queue)
  : outcome (option error * Queue) :=
  if (numElements q =? maxnumElements q) && negb (maxnumElements q =? 0) then
    r ← remove (numElements q - 1) q;
    match r.1.2 with
    | Some err =>
        mret (Wrap (Some err) "popping element because of overflow", r.2)
    | None => mret (None, insertFifo elem r.2)
    end
  else mret (None, insertFifo elem q).

(** ** queue.go: Insert and Remove *)

Definition Insert (h : Heap) (elem : Element) (q : Queue)
  : outcome (option error * Queue) :=
  locked q (fun q =>
    (* the two statements after the switch: q.numElements++; return nil *)
    let increment (q : Queue) : outcome (option error * Queue) :=
      mret (None, set_numElements (numElements q + 1) q) in
    if order q =? Fifo then increment (insertFifo elem q)
    else if order q =? Lifo then increment (insertLifo elem q)
    else if order q =? PriorityHigh then
      q ← insertPriorityHigh h elem q; increment q
    else if order q =? PriorityLow then
      q ← insertPriorityLow h elem q; increment q
    else if order q =? FifoLimited then insertFifoLimited elem q
    else mret (Some ErrInvalidQueueType, q)).

Definition Remove (h : Heap) (q : Queue)
  : outcome (T * float * option error * Queue) :=
  locked q (fun q =>
    r ← remove (numElements q - 1) q;
    match r.1.2 with
    | Some err => mret (zeroT, 0%float, Some err, r.2)
    | None =>
        c ← Content h r.1.1;
        p ← Priority h r.1.1;
        mret (c, p, None, r.2)
    end).

Definition RemoveElement (q : Queue)
  : outcome (Element * option error * Queue) :=
  locked q (fun q =>
    r ← remove (numElements q - 1) q;
    match r.1.2 with
    | Some err => mret (None, Some err, r.2)
    | None => mret (r.1.1, None, r.2)
    end).

(** ** peekFunctions.go *)

Definition PeekElem (h : Heap) (q : Queue)
  : outcome (float * T * option error * Queue) :=
  locked q (fun q =>
    if numElements q =? 0 then mret (0%float, zeroT, Some ErrEmptyQueue, q)
    else
      elem ← index (queueSlice q) (numElements q - 1);
      p ← Priority h elem;
      c ← Content h elem;
      mret (p, c, None, q)).

Definition PeekElemAtIndex (h : Heap) (idx : Z) (q : Queue)
  : outcome (float * T * option error * Queue) :=
  locked q (fun q =>
    if numElements q =? 0 then mret (0%float, zeroT, Some ErrEmptyQueue, q)
    else
      let realIndex := wrap64 ((numElements q - 1) - idx) in
      if realIndex <? 0
      then mret (0%float, zeroT, Some ErrIndexOutOfBounds, q)
      else
        elem ← index (queueSlice q) realIndex;
        p ← Priority h elem;
        c ← Content h elem;
        mret (p, c, None, q)).

(** ** queue.go: UpdatePriority *)

(** The loop [for _, e := range q.queueSlice] of the case [Lifo, Fifo]:
    the cells are not written, the elements they point to are. *)
Fixpoint updateInPlace (h : Heap) (oldPriority newPriority : float)
    (counter : Z) (rest : list Element) : outcome (Heap * Z) :=
  match rest with
  | [] => mret (h, counter)
  | e :: rest' =>
      p ← Priority h e;
      if PrimFloat.eqb p oldPriority then
        h' ← SetPriority h e newPriority;
        updateInPlace h' oldPriority newPriority (counter + 1) rest'
      else updateInPlace h oldPriority newPriority counter rest'
  end.

(** The cell that [range] reads at index [i].  The range expression
    [q.queueSlice] is evaluated once, to the slice [s0]; its cells are
    read when the loop reaches them, from the array that
    [deleteWithoutMemoryManagement] writes in the meantime.  [now] is the
    slice of the queue at that time, which lies in the same array: the
    loop below never gets past a call of [Insert], the only call that
    could move the queue to a new array. *)
Definition range_cell (s0 now : slice) (i : Z) : Element :=
  match (before now ++ elems now ++ hidden now)
          !! (length (before s0) + Z.to_nat i)%nat with
  | Some e => e
  | None => None
  end.

(** The loop [for i, e := range q.queueSlice] of the case
    [PriorityHigh, PriorityLow], at index [i] with [n] cells to go.
    [modFlag] is never set, so the loop never breaks. *)
Fixpoint updateByReinsertion (h : Heap) (oldPriority newPriority : float)
    (performanceFlag : bool) (s0 : slice) (q : Queue) (list' : list Element)
    (i : Z) (n : nat) : outcome (Heap * Queue * list Element) :=
  match n with
  | O => mret (h, q, list')
  | S n' =>
      let e := range_cell s0 (queueSlice q) i in
      p ← Priority h e;
      if PrimFloat.eqb p oldPriority then
        r ← deleteWithoutMemoryManagement i q;
        let q := r.2 in
        h ← SetPriority h e newPriority;
        if performanceFlag then
          r ← Insert h e q;
          updateByReinsertion h oldPriority newPriority performanceFlag
            s0 r.2 list' (i + 1) n'
        else
          updateByReinsertion h oldPriority newPriority performanceFlag
            s0 q (list' ++ [e]) (i + 1) n'
      else
        updateByReinsertion h oldPriority newPriority performanceFlag
          s0 q list' (i + 1) n'
  end.

(** [for i := range list { q.Insert(list[l-(i+1)]) }], on the reversed
    list. *)
Fixpoint reinsertAll (h : Heap) (q : Queue) (reversed : list Element)
  : outcome Queue :=
  match reversed with
  | [] => mret q
  | e :: rest =>
      r ← Insert h e q;
      reinsertAll h r.2 rest
  end.

Definition UpdatePriority (h : Heap) (oldPriority newPriority : float)
    (performanceFlag : bool) (q : Queue) : outcome (Z * Heap * Queue) :=
  locked q (fun q =>
    let counter := 0 in
    st ← (if (order q =? Lifo) || (order q =? Fifo) then
            r ← updateInPlace h oldPriority newPriority counter
                  (elems (queueSlice q));
            mret (r.1, q, [], r.2)
          else if (order q =? PriorityHigh) || (order q =? PriorityLow) then
            r ← updateByReinsertion h oldPriority newPriority performanceFlag
                  (queueSlice q) q [] 0 (length (elems (queueSlice q)));
            mret (r, counter)
          else mret (h, q, [], counter));
    let '(h, q, list', counter) := st in
    q ← (if ((order q =? PriorityHigh) || (order q =? PriorityLow))
            && negb performanceFlag
         then reinsertAll h q (rev list')
         else mret q);
    mret (counter, h, q)).

(** ** queue.go: GetAllElements and Clone *)

(** The loop [for _, elem := range q.queueSlice] of [GetAllElements]. *)
Fixpoint appendContents (h : Heap) (ret : list T) (rest : list Element)
  : outcome (list T) :=
  match rest with
  | [] => mret ret
  | elem :: rest' =>
      c ← Content h elem;
      appendContents h (ret ++ [c]) rest'
  end.

Definition GetAllElements (h : Heap) (q : Queue) : outcome (list T) :=
  if numElements q <? 0 then Panics MakeSliceOutOfRange
  else
    let ret := replicate (Z.to_nat (numElements q)) zeroT in
    appendContents h ret (elems (queueSlice q)).

Definition Clone (q : Queue) : outcome (Queue * Queue) :=
  locked q (fun q =>
    s ← make (numElements q);
    let newQueue :=
      mkQueue (order q) false (copy s (elems (queueSlice q)))
              (numElements q) (maxnumElements q) in
    mret (newQueue, q)).

(** ** The functional layer: Fold and Map *)

(** The loop of [FoldUnsecure].  The statement
    [aggregate, err := f(aggregate, elem)] stands in the block of the
    loop body, where it declares a new [aggregate]: the one declared
    before the loop, which [f] receives and the function returns, keeps
    its value. *)
Fixpoint FoldUnsecure_range {Aggregate : Type} (aggregate : Aggregate)
    (f : Aggregate -> Element -> Aggregate * option error)
    (i : Z) (rest : list Element) : Aggregate * option error :=
  match rest with
  | [] => (aggregate, None)
  | elem :: rest' =>
      let '(aggregate', err) := f aggregate elem in
      match err with
      | Some _ => (aggregate', Wrapf err "folding element at position %d" i)
      | None => FoldUnsecure_range aggregate f (i + 1) rest'
      end
  end.

Definition FoldUnsecure {Aggregate : Type} (q : Queue) (initial : Aggregate)
    (f : Aggregate -> Element -> Aggregate * option error)
  : Aggregate * option error :=
  let aggregate := initial in
  FoldUnsecure_range aggregate f 0 (elems (queueSlice q)).

Definition Fold {Aggregate : Type} (q : Queue) (initial : Aggregate)
    (f : Aggregate -> Element -> Aggregate * option error)
  : outcome (Aggregate * option error * Queue) :=
  locked q (fun q => mret (FoldUnsecure q initial f, q)).

(** The loop of [MapUnsecure]; the new elements live in the same heap as
    the old ones, that is [Tnew] is [Told]. *)
Fixpoint MapUnsecure_range (h : Heap)
    (f : Element -> Element * bool * option error)
    (newQueue : Queue) (i : Z) (rest : list Element)
  : outcome (option Queue * option error) :=
  match rest with
  | [] => mret (Some newQueue, None)
  | elem :: rest' =>
      let '(newElem, insert, err) := f elem in
      match err with
      | None =>
          if insert : bool then
            r ← Insert h newElem newQueue;
            MapUnsecure_range h f r.2 (i + 1) rest'
          else MapUnsecure_range h f newQueue (i + 1) rest'
      | Some _ => mret (None, Wrapf err "mapping element at position %d" i)
      end
  end.

Definition MapUnsecure (h : Heap) (q : Queue)
    (f : Element -> Element * bool * option error)
  : outcome (option Queue * option error) :=
  s ← make (numElements q);
  let newQueue :=
    mkQueue (order q) false s (numElements q) (maxnumElements q) in
  MapUnsecure_range h f newQueue 0 (elems (queueSlice q)).

Definition Map (h : Heap) (q : Queue)
    (f : Element -> Element * bool * option error)
  : outcome (option Queue * option error * Queue) :=
  locked q (fun q => r ← MapUnsecure h q f; mret (r, q)).

(** ** Runs of calls, used to state the properties *)

(** [q.Insert(e)] for each [e] of [es] in turn; the errors are dropped. *)
Fixpoint insertAll (h : Heap) (q : Queue) (es : list Element)
  : outcome Queue :=
  match es with
  | [] => mret q
  | e :: rest =>
      r ← Insert h e q;
      insertAll h r.2 rest
  end.

(** A call of [Insert] with an element that is not nil, or of [Remove]. *)
Inductive operation : Type :=
| DoInsert (p : pointer)
| DoRemove.

Fixpoint run (h : Heap) (ops : list operation) (q : Queue) : outcome Queue :=
  match ops with
  | [] => mret q
  | DoInsert p :: rest =>
      r ← Insert h (Some p) q;
      run h rest r.2
  | DoRemove :: rest =>
      r ← Remove h q;
      run h rest r.2
  end.

(** [Remove] until it reports an error, at most [fuel] times; the result
    is what the calls before the failing one returned, or [None] when
    the fuel ran out first. *)
Fixpoint drain (h : Heap) (fuel : nat) (q : Queue)
  : outcome (option (list (T * float))) :=
  match fuel with
  | O => mret None
  | S fuel' =>
      r ← Remove h q;
      match r.1.2 with
      | Some _ => mret (Some [])
      | None =>
          rest ← drain h fuel' r.2;
          mret (option_map (cons (r.1.1.1, r.1.1.2)) rest)
      end
  end.

(** The number of cells whose element has the priority [oldPriority]. *)
Fixpoint countPriority (h : Heap) (oldPriority : float)
    (cells : list Element) : Z :=
  match cells with
  | [] => 0
  | e :: rest =>
      match Priority h e with
      | Returns p =>
          if PrimFloat.eqb p oldPriority
          then 1 + countPriority h oldPriority rest
          else countPriority h oldPriority rest
      | _ => countPriority h oldPriority rest
      end
  end.

(** The states that the calls of [run] leave behind: the counter does
    not exceed the length of the slice and no cell is nil ([counted]),
    and the mutex is free. *)
Definition counted (q : Queue) : Prop :=
  0 <= numElements q <= len (queueSlice q) /\
  Forall is_Some (elems (queueSlice q)).

Definition consistent (q : Queue) : Prop :=
  lock q = false /\ counted q.

(** What an insertion function does to [q] when it returns [q']: only
    the slice has changed, it has at least one cell more, it has no nil
    cell if it had none and [e] is not nil, and it still holds every
    cell it held. *)
Definition grown (e : Element) (q q' : Queue) : Prop :=
  exists s',
    q' = set_queueSlice s' q
    /\ len (queueSlice q) + 1 <= len s'
    /\ (Forall is_Some (elems (queueSlice q)) -> is_Some e ->
        Forall is_Some (elems s'))
    /\ (forall x, x ∈ elems (queueSlice q) -> x ∈ elems s').

(** ** Notions used by the further properties *)

(** What [Content()] and [Priority()] read in an object. *)
Definition contentOf (o : object) : T :=
  match o with
  | BaseElement c => c
  | PriorityElement _ c => c
  end.

Definition priorityOf (o : object) : float :=
  match o with
  | BaseElement _ => 0%float
  | PriorityElement priority _ => priority
  end.

(** The pair that [Remove] returns for the element at [p]. *)
Definition removed (h : Heap) (p : pointer) : T * float :=
  (contentOf (h p), priorityOf (h p)).

(** All the cells of the backing array of a slice. *)
Definition array (s : slice) : list Element :=
  before s ++ elems s ++ hidden s.

(** A queue whose counter is the length of its slice. *)
Definition full (q : Queue) : Prop :=
  numElements q = len (queueSlice q).

(** The priorities of the elements at [ps], each compared with the next:
    [rising] when each is below the next, [falling] when each is above
    the next. *)
Fixpoint rising (h : Heap) (ps : list pointer) : bool :=
  match ps with
  | [] => true
  | p :: rest =>
      match rest with
      | [] => true
      | p' :: _ =>
          PrimFloat.ltb (priorityOf (h p)) (priorityOf (h p'))
          && rising h rest
      end
  end.

Fixpoint falling (h : Heap) (ps : list pointer) : bool :=
  match ps with
  | [] => true
  | p :: rest =>
      match rest with
      | [] => true
      | p' :: _ =>
          PrimFloat.ltb (priorityOf (h p')) (priorityOf (h p))
          && falling h rest
      end
  end.

(** The object at one address after [SetContent]. *)
Definition withContent (o : object) (c : T) : object :=
  match o with
  | BaseElement _ => BaseElement c
  | PriorityElement priority _ => PriorityElement priority c
  end.

(** The object at one address after [SetPriority]. *)
Definition withPriority (o : object) (priority : float) : object :=
  match o with
  | BaseElement c => BaseElement c
  | PriorityElement _ c => PriorityElement priority c
  end.

(** ** element.go: SetContent, and the constructors of queue.go *)

(** [e.SetContent(content)]: the element points to a new copy of
    [content]. *)
Definition SetContent (h : Heap) (e : Element) (content : T) : outcome Heap :=
  match e with
  | None => Panics NilDereference
  | Some p =>
      match h p with
      | BaseElement _ => Returns (store h p (BaseElement content))
      | PriorityElement priority _ =>
          Returns (store h p (PriorityElement priority content))
      end
  end.

(** [NewBaseElement(c)] and [NewPriorityElement(c, priority)]: the new
    object is put at [p], an address that the caller has not used. *)
Definition NewBaseElement (h : Heap) (p : pointer) (c : T) : Heap * Element :=
  (store h p (BaseElement c), Some p).

Definition NewPriorityElement (h : Heap) (p : pointer) (c : T)
    (priority : float) : Heap * Element :=
  (store h p (PriorityElement priority c), Some p).

(** ** The functional layer: MapInPlace and FilterInPlace *)

(** The loop of [MapInPlaceUnsecure]. *)
Fixpoint MapInPlaceUnsecure_range (h : Heap) (f : T -> T * option error)
    (i : Z) (rest : list Element) : outcome (option error * Heap) :=
  match rest with
  | [] => mret (None, h)
  | elem :: rest' =>
      c ← Content h elem;
      let '(newContent, err) := f c in
      match err with
      | Some _ => mret (Wrapf err "mapping element at position %d" i, h)
      | None =>
          h ← SetContent h elem newContent;
          MapInPlaceUnsecure_range h f (i + 1) rest'
      end
  end.

Definition MapInPlaceUnsecure (h : Heap) (q : Queue)
    (f : T -> T * option error) : outcome (option error * Heap) :=
  MapInPlaceUnsecure_range h f 0 (elems (queueSlice q)).

Definition MapInPlace (h : Heap) (q : Queue) (f : T -> T * option error)
  : outcome (option error * Heap * Queue) :=
  locked q (fun q => r ← MapInPlaceUnsecure h q f; mret (r, q)).

(** The test of [handleShrink]. *)
Definition shrinks (q : Queue) : bool :=
  Qlt_bool (inject_Z (len (queueSlice q)))
           (shrinkFactor q * inject_Z (cap (queueSlice q)))%Q.

(** The loop [for i, elem := range q.queueSlice] of
    [FilterInPlaceUnsecure], at index [i] with [n] cells to go.  The
    range expression is evaluated once: the loop reads the cells of one
    array, [arr], from the offset [off] of the slice in it.
    [deleteWithoutMemoryManagement] writes to the array of the queue,
    which is that array as long as [shared] holds, that is until
    [handleShrink] moves the queue to a new one.  [q.remove(i)] is
    written out in its two steps for that reason. *)
Fixpoint FilterInPlaceUnsecure_range (h : Heap) (f : T -> bool * option error)
    (off : nat) (arr : list Element) (shared : bool) (q : Queue)
    (i : Z) (n : nat) : outcome (option error * Queue) :=
  match n with
  | O => mret (None, q)
  | S n' =>
      let elem := default None (arr !! (off + Z.to_nat i)%nat) in
      c ← Content h elem;
      let '(keep, err) := f c in
      match err with
      | None =>
          if keep then
            FilterInPlaceUnsecure_range h f off arr shared q (i + 1) n'
          else
            r ← deleteWithoutMemoryManagement i q;
            let arr := if shared then array (queueSlice r.2) else arr in
            let shared := shared && negb (shrinks r.2) in
            q ← handleShrink r.2;
            match Wrap r.1.2 "removing element" with
            | None =>
                FilterInPlaceUnsecure_range h f off arr shared q (i + 1) n'
            | Some _ as err =>
                mret (Wrapf err "filtering element at position %d" i, q)
            end
      | Some _ => mret (Wrapf err "filtering element at position %d" i, q)
      end
  end.

Definition FilterInPlaceUnsecure (h : Heap) (q : Queue)
    (f : T -> bool * option error) : outcome (option error * Queue) :=
  FilterInPlaceUnsecure_range h f (length (before (queueSlice q)))
    (array (queueSlice q)) true q 0 (length (elems (queueSlice q))).

Definition FilterInPlace (h : Heap) (q : Queue)
    (f : T -> bool * option error) : outcome (option error * Queue) :=
  locked q (fun q => FilterInPlaceUnsecure h q f).

(** The state of the loop of [FilterInPlaceUnsecure] over a slice of [N]
    cells, once a cell past the first one has been removed: the cells of
    the array that the loop reads are nil from index [m] on, and as long
    as the queue lies in that array, its slice is the first [m] of
    them. *)
Definition ranging (off N m : nat) (arr : list Element) (shared : bool)
    (q : Queue) : Prop :=
  (forall k, (m <= k < N)%nat -> arr !! (off + k)%nat = Some None)
  /\ (shared = true ->
      arr = array (queueSlice q)
      /\ length (before (queueSlice q)) = off
      /\ length (elems (queueSlice q)) = m
      /\ numElements q = Z.of_nat m).

(** * Properties *)

(** ** Outcomes and the mutex *)

Lemma locked_free {A : Type} (q : Queue) (body : Queue -> outcome (A * Queue)) :
  lock q = false ->
  locked q body = (r ← body (set_lock true q); mret (r.1, Unlock r.2)).
Proof. intros Hl. unfold locked, Lock. now rewrite Hl. Qed.

Lemma locked_held {A : Type} (q : Queue) (body : Queue -> outcome (A * Queue)) :
  lock q = true -> locked q body = Deadlocks.
Proof. intros Hl. unfold locked, Lock. now rewrite Hl. Qed.

Lemma Unlock_set_lock (q : Queue) :
  lock q = false -> Unlock (set_lock true q) = q.
Proof. destruct q; simpl; intros ->; reflexivity. Qed.

(** ** The capacity manager *)

Lemma shrinkFactor_below_afterShrinkFactor (q : Queue) :
  (shrinkFactor q <= afterShrinkFactor q)%Q.
Proof.
  unfold shrinkFactor, afterShrinkFactor.
  repeat (destruct (numElements q <? _)); discriminate.
Qed.

(** Without a length below [shrinkFactor] times the capacity, no shrink. *)
Lemma handleShrink_idle (q : Queue) :
  (shrinkFactor q * inject_Z (cap (queueSlice q))
   <= inject_Z (len (queueSlice q)))%Q ->
  handleShrink q = Returns q.
Proof.
  intros H. unfold handleShrink, Qlt_bool.
  apply Qle_bool_iff in H. now rewrite H.
Qed.

(** With one, the cells move to a new array whose capacity is
    [afterShrinkFactor] times the old one, rounded up; [make] never
    panics there, because that capacity is above the length. *)
Lemma handleShrink_fires (q : Queue) :
  (inject_Z (len (queueSlice q))
   < shrinkFactor q * inject_Z (cap (queueSlice q)))%Q ->
  exists s,
    handleShrink q = Returns (set_queueSlice s q)
    /\ elems s = elems (queueSlice q)
    /\ cap s
       = Qceiling (afterShrinkFactor q * inject_Z (cap (queueSlice q)))%Q.
Proof.
  intros H1. unfold handleShrink.
  set (s := queueSlice q) in *.
  assert (Hlt : Qlt_bool (inject_Z (len s))
                  (shrinkFactor q * inject_Z (cap s))%Q = true).
  { unfold Qlt_bool. apply negb_true_iff.
    destruct (Qle_bool _ _) eqn:E; [|reflexivity].
    apply Qle_bool_iff in E. exfalso. eapply Qlt_not_le; eassumption. }
  rewrite Hlt.
  set (newCap := Qceiling _).
  assert (Hcap : len s <= newCap).
  { assert (H2 : (0 <= inject_Z (cap s))%Q).
    { rewrite <- (Zle_Qle 0). unfold cap, len. lia. }
    pose proof (Qmult_le_compat_r _ _ _
                  (shrinkFactor_below_afterShrinkFactor q) H2) as H3.
    pose proof (Qle_ceiling (afterShrinkFactor q * inject_Z (cap s))) as H4.
    fold newCap in H4.
    assert (H5 : (inject_Z (len s) < inject_Z newCap)%Q).
    { eapply Qlt_le_trans; [exact H1|]. eapply Qle_trans; eassumption. }
    rewrite <- Zlt_Qlt in H5. lia. }
  unfold make_cap, slice_to.
  assert (E1 : (len s <? 0) || (newCap <? len s) = false).
  { apply orb_false_iff. split; apply Z.ltb_ge; unfold len in *; lia. }
  assert (E2 : (len s <? 0) || (cap s <? len s) = false).
  { apply orb_false_iff. split; apply Z.ltb_ge; unfold cap, len; lia. }
  rewrite E1. simpl. rewrite E2. simpl.
  eexists. split; [reflexivity|]. unfold copy, cap, len in *. simpl.
  rewrite Nat2Z.id, take_app_length, !length_replicate.
  rewrite Nat.min_id, firstn_all, drop_replicate, Nat.sub_diag.
  simpl. rewrite app_nil_r. split; [reflexivity | lia].
Qed.

(** Either way a shrink keeps every cell of the slice. *)
Lemma handleShrink_returns (q : Queue) :
  exists bef hid,
    handleShrink q
    = Returns (set_queueSlice (mkSlice bef (elems (queueSlice q)) hid) q).
Proof.
  destruct (Qlt_le_dec (inject_Z (len (queueSlice q)))
              (shrinkFactor q * inject_Z (cap (queueSlice q)))) as [H|H].
  - destruct (handleShrink_fires q H) as ([bef els hid] & -> & <- & _).
    now exists bef, hid.
  - rewrite (handleShrink_idle q H).
    exists (before (queueSlice q)), (hidden (queueSlice q)).
    now destruct q as [o l [b e hd] n m].
Qed.

(** ** Slices: when the operations return, and what *)

Lemma index_returns (s : slice) (i : Z) (e : Element) :
  0 <= i -> elems s !! Z.to_nat i = Some e -> index s i = Returns e.
Proof.
  intros Hi Hlk. unfold index, len.
  pose proof (lookup_lt_Some _ _ _ Hlk) as Hlt.
  destruct (orb _ _) eqn:E.
  - apply orb_true_iff in E. rewrite Z.ltb_lt, Z.leb_le in E. lia.
  - now rewrite Hlk.
Qed.

Lemma index_inv (s : slice) (i : Z) (e : Element) :
  index s i = Returns e ->
  0 <= i < len s /\ elems s !! Z.to_nat i = Some e.
Proof.
  unfold index. destruct (orb _ _) eqn:E; [discriminate|].
  apply orb_false_iff in E. rewrite Z.ltb_ge, Z.leb_gt in E.
  destruct (elems s !! Z.to_nat i); [|discriminate].
  intros [= ->]. split; [lia | reflexivity].
Qed.

Lemma assign_returns (s : slice) (i : Z) (e : Element) :
  0 <= i < len s ->
  assign s i e
  = Returns (mkSlice (before s) (<[Z.to_nat i := e]> (elems s)) (hidden s)).
Proof.
  intros Hi. unfold assign.
  destruct (orb _ _) eqn:E; [|reflexivity].
  apply orb_true_iff in E. rewrite Z.ltb_lt, Z.leb_le in E. lia.
Qed.

Lemma slice_from_returns (s : slice) (a : Z) :
  0 <= a <= len s ->
  slice_from s a
  = Returns (mkSlice (before s ++ take (Z.to_nat a) (elems s))
                     (drop (Z.to_nat a) (elems s)) (hidden s)).
Proof.
  intros Ha. unfold slice_from.
  destruct (orb _ _) eqn:E; [|reflexivity].
  apply orb_true_iff in E. rewrite !Z.ltb_lt in E. lia.
Qed.

Lemma slice_from_inv (s s' : slice) (a : Z) :
  slice_from s a = Returns s' ->
  0 <= a <= len s /\ elems s' = drop (Z.to_nat a) (elems s).
Proof.
  unfold slice_from. destruct (orb _ _) eqn:E; [discriminate|].
  apply orb_false_iff in E. rewrite !Z.ltb_ge in E.
  intros [= <-]. split; [lia | reflexivity].
Qed.

Lemma slice_to_returns (s : slice) (b : Z) :
  0 <= b <= len s ->
  exists hid,
    slice_to s b
    = Returns (mkSlice (before s) (take (Z.to_nat b) (elems s)) hid).
Proof.
  intros Hb. unfold slice_to.
  destruct (orb _ _) eqn:E.
  - apply orb_true_iff in E. rewrite !Z.ltb_lt in E. unfold cap in E. lia.
  - eexists. rewrite take_app_le by (unfold len in Hb; lia). reflexivity.
Qed.

Lemma slice_to_inv (s s' : slice) (b : Z) :
  slice_to s b = Returns s' -> b <= len s ->
  0 <= b /\ elems s' = take (Z.to_nat b) (elems s).
Proof.
  unfold slice_to. destruct (orb _ _) eqn:E; [discriminate|].
  apply orb_false_iff in E. rewrite !Z.ltb_ge in E.
  intros [= <-] Hb. split; [lia|]. simpl.
  apply take_app_le. unfold len in Hb. lia.
Qed.

Lemma len_append (s : slice) (xs : list Element) :
  len (append s xs) = len s + Z.of_nat (length xs).
Proof. unfold len, append. simpl. rewrite length_app. lia. Qed.

(** ** The empty queue, and reading at an offset *)

Lemma deleteWithoutMemoryManagement_empty (i : Z) (q : Queue) :
  numElements q = 0 ->
  deleteWithoutMemoryManagement i q = Returns (None, Some ErrEmptyQueue, q).
Proof. intros Hn. unfold deleteWithoutMemoryManagement. now rewrite Hn. Qed.

Lemma remove_empty (i : Z) (q : Queue) :
  numElements q = 0 ->
  exists bef hid,
    remove i q
    = Returns (None, Some (Wrapped ErrEmptyQueue "removing element"),
               set_queueSlice (mkSlice bef (elems (queueSlice q)) hid) q).
Proof.
  intros Hn. unfold remove.
  rewrite (deleteWithoutMemoryManagement_empty i q Hn). simpl.
  destruct (handleShrink_returns q) as (bef & hid & ->). simpl.
  now exists bef, hid.
Qed.

Lemma Remove_empty (h : Heap) (q : Queue) :
  numElements q = 0 -> lock q = false ->
  exists bef hid,
    Remove h q
    = Returns (zeroT, 0%float,
               Some (Wrapped ErrEmptyQueue "removing element"),
               set_queueSlice (mkSlice bef (elems (queueSlice q)) hid) q).
Proof.
  intros Hn Hl. unfold Remove. rewrite (locked_free _ _ Hl).
  destruct (remove_empty (numElements (set_lock true q) - 1)
              (set_lock true q) Hn) as (bef & hid & ->).
  exists bef, hid. simpl. unfold Unlock. destruct q; simpl in *. now subst.
Qed.

(** C10.  On a queue whose counter is 0 the check for emptiness comes
    first: whatever the index, [PeekElemAtIndex] reports
    [ErrEmptyQueue] and leaves the queue as it was, and so does
    [deleteWithoutMemoryManagement]; [remove] wraps that same error. *)
Theorem empty_check_precedes_bounds_check
    (h : Heap) (idx i : Z) (q : Queue) :
  numElements q = 0 -> lock q = false ->
  PeekElemAtIndex h idx q = Returns (0%float, zeroT, Some ErrEmptyQueue, q)
  /\ deleteWithoutMemoryManagement i q
     = Returns (None, Some ErrEmptyQueue, q)
  /\ exists q',
       remove i q
       = Returns (None, Some (Wrapped ErrEmptyQueue "removing element"), q')
       /\ elems (queueSlice q') = elems (queueSlice q)
       /\ numElements q' = 0.
Proof.
  intros Hn Hl. split; [|split].
  - unfold PeekElemAtIndex. rewrite (locked_free _ _ Hl). simpl.
    rewrite Hn. simpl. now rewrite (Unlock_set_lock _ Hl).
  - now apply deleteWithoutMemoryManagement_empty.
  - destruct (remove_empty i q Hn) as (bef & hid & ->).
    eexists. split; [reflexivity|].
    simpl. auto.
Qed.

(** An offset at or past the counter is reported; the queue stays as it
    was. *)
Lemma PeekElemAtIndex_past_tail (h : Heap) (idx : Z) (q : Queue) :
  lock q = false -> 0 < numElements q <= idx -> idx < 2 ^ 63 ->
  PeekElemAtIndex h idx q
  = Returns (0%float, zeroT, Some ErrIndexOutOfBounds, q).
Proof.
  intros Hl Hn Hi. unfold PeekElemAtIndex. rewrite (locked_free _ _ Hl). simpl.
  destruct (numElements q =? 0) eqn:E; [apply Z.eqb_eq in E; lia|].
  assert (Hw : wrap64 (numElements q - 1 - idx) = numElements q - 1 - idx).
  { unfold wrap64.
    rewrite Z.mod_small; lia. }
  rewrite Hw.
  destruct (_ <? 0) eqn:E'; [|apply Z.ltb_ge in E'; lia].
  simpl. now rewrite (Unlock_set_lock _ Hl).
Qed.

(** C8.  A Lifo queue that holds one element, asked for offset -1:
    [realIndex] is 1, which the only check, [realIndex < 0], lets
    through, and [q.queueSlice[1]] panics. *)
Theorem PeekElemAtIndex_negative_offset_panics (h : Heap) (p : pointer) :
  exists q0,
    NewQueue Lifo = (Some q0, None)
    /\ (q ← insertAll h q0 [Some p];
        mret (elems (queueSlice q), numElements q)) = Returns ([Some p], 1)
    /\ (q ← insertAll h q0 [Some p]; PeekElemAtIndex h (-1) q)
       = Panics IndexOutOfRange.
Proof. eexists. split; [reflexivity|]. split; reflexivity. Qed.

(** ** Removal of the tail *)

Ltac zbool :=
  repeat match goal with
  | H : (_ || _) = true |- _ => apply orb_true_iff in H
  | H : (_ || _) = false |- _ => apply orb_false_iff in H; destruct H
  | H : (_ && _) = true |- _ => apply andb_true_iff in H; destruct H
  | H : (_ && _) = false |- _ => apply andb_false_iff in H
  | H : negb _ = true |- _ => apply negb_true_iff in H
  | H : negb _ = false |- _ => apply negb_false_iff in H
  | H : (_ =? _) = true |- _ => apply Z.eqb_eq in H
  | H : (_ =? _) = false |- _ => apply Z.eqb_neq in H
  | H : (_ <? _) = true |- _ => apply Z.ltb_lt in H
  | H : (_ <? _) = false |- _ => apply Z.ltb_ge in H
  | H : (_ <=? _) = true |- _ => apply Z.leb_le in H
  | H : (_ <=? _) = false |- _ => apply Z.leb_gt in H
  end.

Lemma deleteWithoutMemoryManagement_tail (q : Queue) :
  counted q -> 0 < numElements q ->
  exists p s,
    elems (queueSlice q) !! Z.to_nat (numElements q - 1) = Some (Some p)
    /\ deleteWithoutMemoryManagement (numElements q - 1) q
       = Returns (Some p, None,
                  set_numElements (numElements q - 1) (set_queueSlice s q))
    /\ numElements q - 1 <= len s
    /\ Forall is_Some (elems s).
Proof.
  intros [[H0 Hlen] Hall] Hpos.
  destruct q as [o l s n m]; simpl in *. unfold len in Hlen.
  assert (Hlt : (Z.to_nat (n - 1) < length (elems s))%nat) by lia.
  destruct (lookup_lt_is_Some_2 _ _ Hlt) as [e He].
  destruct (Forall_lookup_1 _ _ _ _ Hall He) as [p ->].
  exists p.
  unfold deleteWithoutMemoryManagement; simpl.
  destruct (n =? 0) eqn:E0; zbool; [lia|].
  destruct ((n - 1 <? 0) || (n <=? n - 1)) eqn:E1; zbool; [lia|].
  rewrite (index_returns s (n - 1) (Some p)) by (lia || assumption). simpl.
  destruct (n - 1 =? n) eqn:E2; zbool; [lia|].
  destruct (n - 1 =? 0) eqn:E3; zbool.
  - rewrite assign_returns by (unfold len; lia). simpl.
    rewrite slice_from_returns
      by (unfold len; simpl; rewrite length_insert; lia).
    simpl. eexists. split; [eassumption|]. split; [reflexivity|].
    unfold len; simpl. split.
    + rewrite length_drop, length_insert. lia.
    + rewrite drop_insert_lt by lia. now apply Forall_drop.
  - rewrite (slice_from_returns s (n - 1)) by (unfold len; lia). simpl.
    rewrite (slice_from_returns s (n - 1 + 1)) by (unfold len; lia). simpl.
    set (s1 := written_through _ _ _).
    assert (Hlen1 : length (elems s1) = length (elems s)).
    { unfold s1, written_through, copy. simpl.
      rewrite !length_app, !length_take, !length_drop. lia. }
    assert (Htake1 : take (Z.to_nat (n - 1)) (elems s1)
                     = take (Z.to_nat (n - 1)) (elems s)).
    { unfold s1, written_through. simpl.
      rewrite take_app_le by (rewrite length_take; lia).
      now rewrite take_take, Nat.min_id. }
    clearbody s1.
    rewrite (assign_returns s1) by (unfold len; lia). simpl.
    match goal with
    | |- context [slice_to ?s2 _] =>
        destruct (slice_to_returns s2 (n - 1)) as [hid ->]
    end.
    { unfold len. simpl. rewrite length_insert. lia. }
    simpl. eexists. split; [eassumption|]. split; [reflexivity|].
    unfold len; simpl.
    rewrite take_insert_ge, Htake1 by lia. split.
    + rewrite length_take. lia.
    + now apply Forall_take.
Qed.

Lemma remove_tail (q : Queue) :
  counted q -> 0 < numElements q ->
  exists p q',
    elems (queueSlice q) !! Z.to_nat (numElements q - 1) = Some (Some p)
    /\ remove (numElements q - 1) q = Returns (Some p, None, q')
    /\ order q' = order q /\ lock q' = lock q
    /\ maxnumElements q' = maxnumElements q
    /\ numElements q' = numElements q - 1
    /\ counted q'.
Proof.
  intros Hc Hpos.
  destruct (deleteWithoutMemoryManagement_tail q Hc Hpos)
    as (p & s & Hlk & Hdel & Hlen & Hall).
  unfold remove. rewrite Hdel. simpl.
  match goal with
  | |- context [handleShrink ?q1] =>
      destruct (handleShrink_returns q1) as (bef & hid & ->)
  end.
  simpl. exists p. eexists. split; [exact Hlk|]. split; [reflexivity|].
  destruct Hc as [[? ?] ?].
  repeat split; try reflexivity; try assumption; simpl; lia.
Qed.

Lemma Remove_nonempty (h : Heap) (q : Queue) :
  consistent q -> 0 < numElements q ->
  exists c pr q',
    Remove h q = Returns (c, pr, None, q')
    /\ order q' = order q
    /\ maxnumElements q' = maxnumElements q
    /\ numElements q' = numElements q - 1
    /\ consistent q'.
Proof.
  intros [Hl Hc] Hpos. unfold Remove. rewrite (locked_free _ _ Hl).
  destruct (remove_tail (set_lock true q))
    as (p & q' & _ & -> & Ho & Hl' & Hm & Hn & Hc');
    [destruct q; exact Hc | destruct q; exact Hpos |].
  simpl. destruct (h p) eqn:Hp; simpl; eexists _, _, _;
    (split; [reflexivity|]); simpl;
    destruct q; simpl in *; repeat split; try assumption; apply Hc'.
Qed.

Lemma Remove_consistent (h : Heap) (q : Queue) :
  consistent q ->
  exists r q',
    Remove h q = Returns (r, q')
    /\ order q' = order q
    /\ maxnumElements q' = maxnumElements q
    /\ consistent q'.
Proof.
  intros Hq. pose proof Hq as [Hl [[H0 Hlen] Hall]].
  destruct (Z.eq_dec (numElements q) 0) as [Hn|Hn].
  - destruct (Remove_empty h q Hn Hl) as (bef & hid & ->).
    eexists _, _. split; [reflexivity|]. destruct q; simpl in *.
    repeat split; try assumption; lia.
  - destruct (Remove_nonempty h q Hq) as (c & pr & q' & -> & ? & ? & ? & ?);
      [lia|].
    eexists _, _. split; [reflexivity|]. auto.
Qed.

(** ** Insertion into a counted queue

    Each insertion function, when it returns, has changed the slice
    only: the new slice is longer and still free of nil cells. *)

Lemma grown_counted (e : Element) (q q' : Queue) :
  is_Some e -> grown e q q' -> counted q ->
  counted (set_numElements (numElements q + 1) q').
Proof.
  intros He (s' & -> & Hlen & Hall & _) [[H0 Hn] Hs].
  destruct q; simpl in *. split; [simpl; lia | now apply Hall].
Qed.

Lemma grown_trans (e : Element) (q q1 q2 : Queue) :
  grown e q q1 -> grown e q1 q2 -> grown e q q2.
Proof.
  intros (s1 & -> & Hlen1 & Hall1 & Hin1) (s2 & -> & Hlen2 & Hall2 & Hin2).
  destruct q; simpl in *. exists s2. repeat split; auto. simpl. lia.
Qed.

Lemma insertFifo_grown (e : Element) (q : Queue) : grown e q (insertFifo e q).
Proof.
  unfold insertFifo. eexists. split; [reflexivity|].
  rewrite len_append. unfold len; simpl. split; [lia|]. split.
  - intros Hs He. now constructor.
  - intros x Hx. now apply elem_of_cons; right.
Qed.

Lemma insertLifo_grown (e : Element) (q : Queue) : grown e q (insertLifo e q).
Proof.
  unfold insertLifo. eexists. split; [reflexivity|].
  rewrite len_append. simpl. split; [lia|]. split.
  - intros Hs He. apply Forall_app. split; [assumption|]. now constructor.
  - intros x Hx. apply elem_of_app. now left.
Qed.

Lemma insertBefore_grown (e : Element) (i : Z) (q q' : Queue) :
  insertBefore e i q = Returns q' -> grown e q q'.
Proof.
  unfold insertBefore. intros H.
  destruct (slice_to (queueSlice q) (i - 1)) as [front| |] eqn:Ef;
    try discriminate.
  destruct (slice_from (queueSlice q) (i - 1)) as [back| |] eqn:Eb;
    try discriminate.
  simpl in H. injection H as <-.
  apply slice_from_inv in Eb as [Hi Eb].
  apply slice_to_inv in Ef as [_ Ef]; [|lia].
  eexists. split; [reflexivity|].
  rewrite len_append. unfold len in *. simpl. rewrite Ef, Eb.
  rewrite length_take, length_drop.
  split; [lia|]. split.
  - intros Hs He. apply Forall_app. split; [now apply Forall_take|].
    constructor; [assumption | now apply Forall_drop].
  - intros x Hx.
    rewrite <- (take_drop (Z.to_nat (i - 1)) (elems (queueSlice q))) in Hx.
    apply elem_of_app in Hx as [Hx|Hx]; apply elem_of_app;
      [now left | right; now apply elem_of_cons; right].
Qed.

Lemma backtrack_from_grown (h : Heap) (e : Element) (q q' : Queue) (n : nat) :
  backtrack_from h e q n = Returns q' -> grown e q q'.
Proof.
  induction n as [|n IH]; simpl; intros H.
  - injection H as <-. apply insertFifo_grown.
  - destruct (index (queueSlice q) (Z.of_nat n)) as [c| |] eqn:Ei;
      try discriminate.
    simpl in H.
    destruct (Priority h c) as [pc| |]; try discriminate. simpl in H.
    destruct (Priority h e) as [p| |]; try discriminate. simpl in H.
    destruct (PrimFloat.eqb pc p); [now apply IH|].
    apply index_inv in Ei as [Hi _].
    rewrite slice_from_returns in H by lia. simpl in H.
    destruct (slice_to_returns (queueSlice q) (Z.of_nat n)) as [hid Ef]; [lia|].
    rewrite Ef in H. simpl in H. injection H as <-.
    eexists. split; [reflexivity|].
    rewrite len_append. unfold len in *. simpl.
    rewrite length_take, length_drop.
    split; [lia|]. split.
    + intros Hs He. apply Forall_app. split; [now apply Forall_drop|].
      constructor; [assumption | now apply Forall_take].
    + intros x Hx.
      rewrite <- (take_drop (Z.to_nat (Z.of_nat n)) (elems (queueSlice q)))
        in Hx.
      apply elem_of_app in Hx as [Hx|Hx]; apply elem_of_app;
        [right; now apply elem_of_cons; right | now left].
Qed.

(** The loop over the buffer either reaches [insertBefore], or runs to
    the end because every cell lets the new element pass. *)
Ltac range_inv h c e H IH :=
  destruct (Priority h c) as [pc| |] eqn:Ec; try discriminate; simpl in H;
  destruct (Priority h e) as [p| |] eqn:Ee; try discriminate; simpl in H;
  match type of H with
  | (if ?b then _ else _) = Returns _ =>
      destruct b eqn:Eb;
      [ destruct (IH _ H) as [Hj | [-> Hall]];
        [ now left
        | right; split; [reflexivity|];
          intros x Hx; apply elem_of_cons in Hx as [-> | Hx];
          [ eauto | now apply Hall ] ]
      | left; eauto ]
  end.

Lemma insertPriorityHigh_range_inv (h : Heap) (e : Element) (q q' : Queue)
    (rest : list Element) (i : Z) :
  insertPriorityHigh_range h e q i rest = Returns q' ->
  (exists j, insertBefore e j q = Returns q')
  \/ (q' = q /\
      forall x, x ∈ rest ->
        exists px p, Priority h x = Returns px /\ Priority h e = Returns p
                     /\ PrimFloat.ltb px p = true).
Proof.
  revert i. induction rest as [|c rest IH]; intros i H; simpl in H.
  - injection H as <-. right. split; [reflexivity|].
    intros x Hx. now apply elem_of_nil in Hx.
  - range_inv h c e H IH.
Qed.

Lemma insertPriorityLow_range_inv (h : Heap) (e : Element) (q q' : Queue)
    (rest : list Element) (i : Z) :
  insertPriorityLow_range h e q i rest = Returns q' ->
  (exists j, insertBefore e j q = Returns q')
  \/ (q' = q /\
      forall x, x ∈ rest ->
        exists px p, Priority h x = Returns px /\ Priority h e = Returns p
                     /\ PrimFloat.ltb p px = true).
Proof.
  revert i. induction rest as [|c rest IH]; intros i H; simpl in H.
  - injection H as <-. right. split; [reflexivity|].
    intros x Hx. now apply elem_of_nil in Hx.
  - range_inv h c e H IH.
Qed.

(** The tail does not let the new element pass, so the loop cannot run
    to the end: the slice grows on every path that returns. *)
Lemma insertPriorityHigh_grown (h : Heap) (e : Element) (q q' : Queue) :
  insertPriorityHigh h e q = Returns q' -> grown e q q'.
Proof.
  unfold insertPriorityHigh, backtrackInsertionPoint. intros H.
  destruct (numElements q =? 0) eqn:E0; simpl in H.
  { injection H as <-. apply insertLifo_grown. }
  destruct (index (queueSlice q) (numElements q - 1)) as [tail| |] eqn:Ei;
    try discriminate; simpl in H.
  destruct (Priority h tail) as [pt| |] eqn:Et; try discriminate; simpl in H.
  destruct (Priority h e) as [p| |] eqn:Ee; try discriminate; simpl in H.
  match type of H with
  | (if ?b then _ else _) = Returns _ => destruct b eqn:Ed
  end.
  { injection H as <-. apply insertLifo_grown. }
  apply index_inv in Ei as [_ Ei]. apply list_elem_of_lookup_2 in Ei.
  destruct (PrimFloat.eqb pt p).
  - destruct (backtrack_from h e q (Z.to_nat (numElements q)))
      as [q1| |] eqn:Eq1; try discriminate; simpl in H.
    apply backtrack_from_grown in Eq1.
    apply insertPriorityHigh_range_inv in H as [[j Hj] | [-> Hall]].
    + apply (grown_trans e q q1); [assumption|].
      now apply insertBefore_grown in Hj.
    + destruct Eq1 as (s1 & -> & _ & _ & Hin).
      destruct (Hall tail (Hin tail Ei)) as (px & p' & Hpx & Hp' & Hlt).
      congruence.
  - simpl in H.
    apply insertPriorityHigh_range_inv in H as [[j Hj] | [-> Hall]].
    + now apply insertBefore_grown in Hj.
    + destruct (Hall tail Ei) as (px & p' & Hpx & Hp' & Hlt). congruence.
Qed.

Lemma insertPriorityLow_grown (h : Heap) (e : Element) (q q' : Queue) :
  insertPriorityLow h e q = Returns q' -> grown e q q'.
Proof.
  unfold insertPriorityLow, backtrackInsertionPoint. intros H.
  destruct (numElements q =? 0) eqn:E0; simpl in H.
  { injection H as <-. apply insertLifo_grown. }
  destruct (index (queueSlice q) (numElements q - 1)) as [tail| |] eqn:Ei;
    try discriminate; simpl in H.
  destruct (Priority h tail) as [pt| |] eqn:Et; try discriminate; simpl in H.
  destruct (Priority h e) as [p| |] eqn:Ee; try discriminate; simpl in H.
  match type of H with
  | (if ?b then _ else _) = Returns _ => destruct b eqn:Ed
  end.
  { injection H as <-. apply insertLifo_grown. }
  apply index_inv in Ei as [_ Ei]. apply list_elem_of_lookup_2 in Ei.
  destruct (PrimFloat.eqb pt p).
  - destruct (backtrack_from h e q (Z.to_nat (numElements q)))
      as [q1| |] eqn:Eq1; try discriminate; simpl in H.
    apply backtrack_from_grown in Eq1.
    apply insertPriorityLow_range_inv in H as [[j Hj] | [-> Hall]].
    + apply (grown_trans e q q1); [assumption|].
      now apply insertBefore_grown in Hj.
    + destruct Eq1 as (s1 & -> & _ & _ & Hin).
      destruct (Hall tail (Hin tail Ei)) as (px & p' & Hpx & Hp' & Hlt).
      congruence.
  - simpl in H.
    apply insertPriorityLow_range_inv in H as [[j Hj] | [-> Hall]].
    + now apply insertBefore_grown in Hj.
    + destruct (Hall tail Ei) as (px & p' & Hpx & Hp' & Hlt). congruence.
Qed.

Lemma grown_uncounted (e : Element) (q q' : Queue) :
  is_Some e -> grown e q q' -> counted q -> counted q'.
Proof.
  intros He (s' & -> & Hlen & Hall & _) [[H0 Hn] Hs].
  destruct q; simpl in *. split; [simpl; lia | now apply Hall].
Qed.

Lemma grown_fields (e : Element) (q q' : Queue) :
  grown e q q' ->
  order q' = order q /\ lock q' = lock q
  /\ maxnumElements q' = maxnumElements q /\ numElements q' = numElements q.
Proof. intros (s' & -> & _). destruct q. repeat split. Qed.

Lemma insertFifoLimited_counted (p : pointer) (q q' : Queue)
    (err : option error) :
  counted q -> insertFifoLimited (Some p) q = Returns (err, q') ->
  counted q' /\ order q' = order q /\ lock q' = lock q
  /\ maxnumElements q' = maxnumElements q.
Proof.
  intros Hc. unfold insertFifoLimited.
  assert (Hgrow : forall q0, counted q0 ->
            counted (insertFifo (Some p) q0)
            /\ order (insertFifo (Some p) q0) = order q0
            /\ lock (insertFifo (Some p) q0) = lock q0
            /\ maxnumElements (insertFifo (Some p) q0) = maxnumElements q0).
  { intros q0 Hq0. pose proof (insertFifo_grown (Some p) q0) as Hg.
    split; [eapply grown_uncounted; eauto|].
    destruct (grown_fields _ _ _ Hg) as (? & ? & ? & ?). auto. }
  destruct (andb _ _) eqn:E.
  - zbool.
    destruct (remove_tail q Hc) as (p' & q1 & _ & -> & Ho & Hl & Hm & Hn & Hc1).
    { destruct Hc as [[? ?] ?]. lia. }
    simpl. intros [= <- <-].
    destruct (Hgrow q1 Hc1) as (Hc2 & Ho2 & Hl2 & Hm2).
    split; [exact Hc2|]. repeat split; congruence.
  - intros [= <- <-]. now apply Hgrow.
Qed.

(** [Insert] of an element that is not nil keeps a queue consistent. *)
Lemma Insert_consistent (h : Heap) (p : pointer) (q q' : Queue)
    (err : option error) :
  consistent q -> Insert h (Some p) q = Returns (err, q') ->
  consistent q' /\ order q' = order q /\ maxnumElements q' = maxnumElements q.
Proof.
  intros [Hl Hc] H. unfold Insert in H. rewrite (locked_free _ _ Hl) in H.
  assert (Hc1 : counted (set_lock true q)) by (destruct q; exact Hc).
  set (q1 := set_lock true q) in *.
  assert (Hcounted : forall q2, grown (Some p) q1 q2 ->
            consistent (Unlock (set_numElements (numElements q2 + 1) q2))
            /\ order q2 = order q /\ maxnumElements q2 = maxnumElements q).
  { intros q2 Hg. destruct (grown_fields _ _ _ Hg) as (Ho & _ & Hm & Hn).
    pose proof (grown_counted _ _ _ (ltac:(eauto) : is_Some (Some p)) Hg Hc1)
      as Hc2.
    rewrite <- Hn in Hc2. destruct q2, q; simpl in *.
    repeat split; try apply Hc2; assumption. }
  destruct (order q1 =? Fifo).
  { simpl in H. injection H as <- <-.
    now apply (Hcounted _ (insertFifo_grown _ _)). }
  destruct (order q1 =? Lifo).
  { simpl in H. injection H as <- <-.
    now apply (Hcounted _ (insertLifo_grown _ _)). }
  destruct (order q1 =? PriorityHigh).
  { destruct (insertPriorityHigh h (Some p) q1) as [q2| |] eqn:E;
      try discriminate.
    simpl in H. injection H as <- <-.
    now apply (Hcounted _ (insertPriorityHigh_grown _ _ _ _ E)). }
  destruct (order q1 =? PriorityLow).
  { destruct (insertPriorityLow h (Some p) q1) as [q2| |] eqn:E;
      try discriminate.
    simpl in H. injection H as <- <-.
    now apply (Hcounted _ (insertPriorityLow_grown _ _ _ _ E)). }
  destruct (order q1 =? FifoLimited).
  { destruct (insertFifoLimited (Some p) q1) as [[err2 q2]| |] eqn:E;
      try discriminate.
    simpl in H. injection H as <- <-.
    destruct (insertFifoLimited_counted _ _ _ _ Hc1 E) as (Hc2 & Ho & _ & Hm).
    destruct q2, q; simpl in *. repeat split; try apply Hc2; assumption. }
  simpl in H. injection H as <- <-.
  destruct q; simpl in *. repeat split; try apply Hc; assumption.
Qed.

Lemma run_consistent (h : Heap) (ops : list operation) (q q' : Queue) :
  consistent q -> run h ops q = Returns q' ->
  consistent q' /\ order q' = order q /\ maxnumElements q' = maxnumElements q.
Proof.
  revert q. induction ops as [|[p|] ops IH]; intros q Hq H; simpl in H.
  - injection H as <-. auto.
  - destruct (Insert h (Some p) q) as [[err q1]| |] eqn:E; try discriminate.
    simpl in H.
    destruct (Insert_consistent _ _ _ _ _ Hq E) as (Hq1 & Ho & Hm).
    destruct (IH _ Hq1 H) as (? & ? & ?).
    split; [assumption | split; congruence].
  - destruct (Remove_consistent h q Hq) as (r & q1 & E & Ho & Hm & Hq1).
    rewrite E in H. simpl in H.
    destruct (IH _ Hq1 H) as (? & ? & ?).
    split; [assumption | split; congruence].
Qed.

(** Emptying a consistent queue takes as many calls as its counter says. *)
Lemma drain_consistent (h : Heap) (fuel : nat) (q : Queue) :
  consistent q -> (Z.to_nat (numElements q) < fuel)%nat ->
  exists removed,
    drain h fuel q = Returns (Some removed)
    /\ Z.of_nat (length removed) = numElements q.
Proof.
  revert q. induction fuel as [|fuel IH]; intros q Hq Hfuel; [lia|].
  pose proof Hq as [Hl [[H0 Hlen] Hall]].
  simpl. destruct (Z.eq_dec (numElements q) 0) as [Hn|Hn].
  - destruct (Remove_empty h q Hn Hl) as (bef & hid & ->). simpl.
    exists []. split; [reflexivity | simpl; lia].
  - destruct (Remove_nonempty h q Hq) as (c & pr & q' & -> & _ & _ & Hn' & Hq');
      [lia|].
    simpl. destruct (IH q' Hq') as (removed & -> & Hlen'); [lia|].
    simpl. eexists. split; [reflexivity|]. simpl. lia.
Qed.

(** ** Construction *)

Lemma NewQueue_error_iff (tp : Queuetype) :
  (NewQueue tp).2 = Some ErrInvalidQueueType <-> tp < 0 \/ numQueuetypes < tp.
Proof.
  unfold NewQueue.
  destruct (orb _ _) eqn:E; simpl.
  - apply orb_true_iff in E. rewrite !Z.ltb_lt in E. tauto.
  - apply orb_false_iff in E. rewrite !Z.ltb_ge in E.
    split; [discriminate | lia].
Qed.

(** C7.  [NewQueue] refuses a value below 0 or above [numQueuetypes],
    which is 5: the value 5 itself, which names no order, is accepted
    and gives a queue on which every [Insert] reports
    [ErrInvalidQueueType]. *)
Theorem NewQueue_accepts_numQueuetypes (h : Heap) (e : Element) :
  let q5 := mkQueue 5 false (mkSlice [] [] []) 0 0 in
  NewQueue 5 = (Some q5, None)
  /\ Insert h e q5 = Returns (Some ErrInvalidQueueType, q5)
  /\ NewQueue (-1) = (None, Some ErrInvalidQueueType)
  /\ NewQueue 6 = (None, Some ErrInvalidQueueType).
Proof. repeat split. Qed.

(** ** Fifo and Lifo: the tail is the next element removed *)

Lemma Insert_Fifo (h : Heap) (e : Element) (q : Queue) :
  lock q = false -> order q = Fifo ->
  Insert h e q
  = Returns (None,
             mkQueue Fifo false
               (append (literal e) (elems (queueSlice q)))
               (numElements q + 1) (maxnumElements q)).
Proof.
  intros Hl Ho. unfold Insert. rewrite locked_free by assumption.
  destruct q; simpl in *; subst. reflexivity.
Qed.

Lemma Insert_Lifo (h : Heap) (e : Element) (q : Queue) :
  lock q = false -> order q = Lifo ->
  Insert h e q
  = Returns (None,
             mkQueue Lifo false (append (queueSlice q) [e])
               (numElements q + 1) (maxnumElements q)).
Proof.
  intros Hl Ho. unfold Insert. rewrite locked_free by assumption.
  destruct q; simpl in *; subst. reflexivity.
Qed.

Lemma insertAll_Fifo (h : Heap) (es : list Element) (q : Queue) :
  lock q = false -> order q = Fifo ->
  exists q',
    insertAll h q es = Returns q'
    /\ lock q' = false /\ order q' = Fifo
    /\ elems (queueSlice q') = rev es ++ elems (queueSlice q)
    /\ numElements q' = numElements q + Z.of_nat (length es).
Proof.
  revert q. induction es as [|e es IH]; intros q Hl Ho; simpl.
  - exists q. repeat split; try assumption. lia.
  - rewrite Insert_Fifo by assumption. simpl.
    match goal with
    | |- context [insertAll h ?q1 es] =>
        destruct (IH q1 eq_refl eq_refl) as (q' & -> & Hl' & Ho' & He & Hn)
    end.
    exists q'.
    repeat split; try assumption.
    + rewrite He. simpl. now rewrite <- app_assoc.
    + rewrite Hn. simpl. lia.
Qed.

Lemma insertAll_Lifo (h : Heap) (es : list Element) (q : Queue) :
  lock q = false -> order q = Lifo ->
  exists q',
    insertAll h q es = Returns q'
    /\ lock q' = false /\ order q' = Lifo
    /\ elems (queueSlice q') = elems (queueSlice q) ++ es
    /\ numElements q' = numElements q + Z.of_nat (length es).
Proof.
  revert q. induction es as [|e es IH]; intros q Hl Ho; simpl.
  - exists q. repeat split; try assumption; [now rewrite app_nil_r | lia].
  - rewrite Insert_Lifo by assumption. simpl.
    match goal with
    | |- context [insertAll h ?q1 es] =>
        destruct (IH q1 eq_refl eq_refl) as (q' & -> & Hl' & Ho' & He & Hn)
    end.
    exists q'.
    repeat split; try assumption.
    + rewrite He. simpl. now rewrite <- app_assoc.
    + rewrite Hn. simpl. lia.
Qed.

Lemma RemoveElement_nonempty (q : Queue) :
  consistent q -> 0 < numElements q ->
  exists p q',
    elems (queueSlice q) !! Z.to_nat (numElements q - 1) = Some (Some p)
    /\ RemoveElement q = Returns (Some p, None, q')
    /\ numElements q' = numElements q - 1
    /\ consistent q'.
Proof.
  intros [Hl Hc] Hpos. unfold RemoveElement. rewrite (locked_free _ _ Hl).
  destruct (remove_tail (set_lock true q))
    as (p & q' & Hlk & -> & Ho & Hl' & Hm & Hn & Hc');
    [destruct q; exact Hc | destruct q; exact Hpos |].
  simpl. exists p. eexists. split; [destruct q; exact Hlk|].
  split; [reflexivity|]. destruct q; simpl in *.
  repeat split; try assumption; apply Hc'.
Qed.

(** After any number of insertions into a new Fifo queue, the cell at
    [numElements - 1] holds the first element inserted, and that is the
    element [RemoveElement] returns. *)
Lemma Fifo_tail_is_oldest (h : Heap) (p : pointer) (ps : list pointer)
    (q0 : Queue) :
  NewQueue Fifo = (Some q0, None) ->
  exists q q',
    insertAll h q0 (Some p :: map Some ps) = Returns q
    /\ index (queueSlice q) (numElements q - 1) = Returns (Some p)
    /\ RemoveElement q = Returns (Some p, None, q').
Proof.
  intros [= <-].
  destruct (insertAll_Fifo h (Some p :: map Some ps)
              (mkQueue Fifo false (mkSlice [] [] []) 0 0) eq_refl eq_refl)
    as (q & Hq & Hl & Ho & He & Hn).
  exists q.
  simpl in He, Hn. rewrite app_nil_r in He.
  assert (Hlk : elems (queueSlice q) !! Z.to_nat (numElements q - 1)
                = Some (Some p)).
  { rewrite He, Hn. apply lookup_snoc_Some. right.
    rewrite length_rev, length_map. split; [lia | reflexivity]. }
  destruct (RemoveElement_nonempty q) as (p' & q' & Hlk' & Hr & _); [|lia|].
  { split; [assumption|]. split.
    - unfold len. rewrite He, Hn, length_app, length_rev. simpl. lia.
    - rewrite He. apply Forall_app. split.
      + apply Forall_rev, Forall_forall. intros x Hx.
        apply list_elem_of_In, in_map_iff in Hx as (y & <- & _). eauto.
      + constructor; eauto. }
  exists q'. split; [exact Hq|]. split.
  - apply index_returns; [lia | exact Hlk].
  - rewrite Hr. congruence.
Qed.

(** The same for a new Lifo queue and the last element inserted. *)
Lemma Lifo_tail_is_newest (h : Heap) (p : pointer) (ps : list pointer)
    (q0 : Queue) :
  NewQueue Lifo = (Some q0, None) ->
  exists q q',
    insertAll h q0 (map Some ps ++ [Some p]) = Returns q
    /\ index (queueSlice q) (numElements q - 1) = Returns (Some p)
    /\ RemoveElement q = Returns (Some p, None, q').
Proof.
  intros [= <-].
  destruct (insertAll_Lifo h (map Some ps ++ [Some p])
              (mkQueue Lifo false (mkSlice [] [] []) 0 0) eq_refl eq_refl)
    as (q & Hq & Hl & Ho & He & Hn).
  exists q.
  simpl in He, Hn. rewrite length_app in Hn. simpl in Hn.
  assert (Hlk : elems (queueSlice q) !! Z.to_nat (numElements q - 1)
                = Some (Some p)).
  { rewrite He, Hn. apply lookup_snoc_Some. right.
    split; [lia | reflexivity]. }
  destruct (RemoveElement_nonempty q) as (p' & q' & Hlk' & Hr & _); [|lia|].
  { split; [assumption|]. split.
    - unfold len. rewrite He, Hn, length_app. simpl. lia.
    - rewrite He. apply Forall_app. split.
      + apply Forall_forall. intros x Hx.
        apply list_elem_of_In, in_map_iff in Hx as (y & <- & _). eauto.
      + constructor; eauto. }
  exists q'. split; [exact Hq|]. split.
  - apply index_returns; [lia | exact Hlk].
  - rewrite Hr. congruence.
Qed.

(** ** FifoLimited and PriorityHigh: the tail is not *)

(** C1.  Two runs of [Insert] after which the cell at
    [numElements - 1] is not the element that [Remove] gives next.
    FifoLimited, one element: the counter is still 0, there is no cell
    at index -1 and [Remove] reports an empty queue.  PriorityHigh,
    priority 3 then priority 1: the loop of [insertPriorityHigh] stops
    at index 0, slices [q.queueSlice[:-1]] and the second [Insert]
    panics. *)
Theorem tail_invariant_broken (contents : pointer -> T) :
  let h : Heap :=
    fun p => PriorityElement (if Nat.eqb p 0 then 3 else 1) (contents p) in
  exists q4 q2,
    NewQueue FifoLimited = (Some q4, None)
    /\ NewQueue PriorityHigh = (Some q2, None)
    /\ (q ← insertAll h q4 [Some 0%nat];
        mret (elems (queueSlice q), numElements q))
       = Returns ([Some 0%nat], 0)
    /\ (q ← insertAll h q4 [Some 0%nat];
        index (queueSlice q) (numElements q - 1)) = Panics IndexOutOfRange
    /\ (q ← insertAll h q4 [Some 0%nat];
        r ← Remove h q;
        mret r.1)
       = Returns (zeroT, 0%float,
                  Some (Wrapped ErrEmptyQueue "removing element"))
    /\ insertAll h q2 [Some 0%nat; Some 1%nat]
       = Panics SliceBoundsOutOfRange.
Proof.
  intros h.
  set (q4 := mkQueue FifoLimited false (mkSlice [] [] []) 0 0).
  exists q4. eexists.
  split; [reflexivity|]. split; [reflexivity|]. split; [reflexivity|].
  split; [reflexivity|]. split; [|reflexivity].
  assert (H : exists q,
             insertAll h q4 [Some 0%nat] = Returns q
             /\ numElements q = 0 /\ lock q = false).
  { eexists. split; [reflexivity|]. split; reflexivity. }
  destruct H as (q & -> & Hn & Hl).
  destruct (Remove_empty h q Hn Hl) as (bef & hid & E).
  change (Returns q ≫= ?k) with (k q). cbv beta. now rewrite E.
Qed.

(** ** Insertion by priority *)

(** C2.  Three elements of priority 5 into a PriorityHigh queue: the
    second [Insert] already panics.  [backtrackInsertionPoint] puts the
    element at the head, the function goes on into the loop, the loop
    stops at index 0 and slices [q.queueSlice[:-1]]. *)
Theorem PriorityHigh_equal_priorities_panic (contents : pointer -> T) :
  let h : Heap := fun p => PriorityElement 5 (contents p) in
  exists q0,
    NewQueue PriorityHigh = (Some q0, None)
    /\ (q ← insertAll h q0 [Some 0%nat];
        mret (elems (queueSlice q), numElements q))
       = Returns ([Some 0%nat], 1)
    /\ (q ← insertAll h q0 [Some 0%nat];
        q' ← backtrackInsertionPoint h (Some 1%nat) (set_lock true q);
        mret (elems (queueSlice q'), numElements q'))
       = Returns ([Some 1%nat; Some 0%nat], 1)
    /\ insertAll h q0 [Some 0%nat; Some 1%nat]
       = Panics SliceBoundsOutOfRange
    /\ insertAll h q0 [Some 0%nat; Some 1%nat; Some 2%nat]
       = Panics SliceBoundsOutOfRange.
Proof. eexists. split; [reflexivity|]. repeat split; reflexivity. Qed.

(** ** The bounded queue *)



(** C3.  A FifoLimited queue with limit 3 and five insertions:
    [Insert] returns from the case [FifoLimited] before it counts the
    element, so the counter stays 0, the limit is never reached, the
    buffer holds all five elements and [Remove] reports an empty
    queue. *)
Theorem FifoLimited_limit_3_keeps_five (contents : pointer -> T) :
  let h : Heap := fun p => BaseElement (contents p) in
  let five := [Some 0; Some 1; Some 2; Some 3; Some 4]%nat in
  exists q0,
    NewQueue FifoLimited = (Some q0, None)
    /\ (SetLimit 3 q0).1 = None
    /\ (q ← insertAll h (SetLimit 3 q0).2 five;
        mret (elems (queueSlice q), numElements q, maxnumElements q))
       = Returns ([Some 4; Some 3; Some 2; Some 1; Some 0]%nat, 0, 3)
    /\ (q ← insertAll h (SetLimit 3 q0).2 five;
        r ← Remove h q;
        mret r.1)
       = Returns (zeroT, 0%float,
                  Some (Wrapped ErrEmptyQueue "removing element")).
Proof.
  intros h five.
  set (q0 := mkQueue FifoLimited false (mkSlice [] [] []) 0 0).
  exists q0. split; [reflexivity|]. split; [reflexivity|].
  split; [reflexivity|].
  assert (H : exists q,
             insertAll h (SetLimit 3 q0).2 five = Returns q
             /\ numElements q = 0 /\ lock q = false).
  { eexists. split; [reflexivity|]. split; reflexivity. }
  destruct H as (q & -> & Hn & Hl).
  destruct (Remove_empty h q Hn Hl) as (bef & hid & E).
  change (Returns q ≫= ?k) with (k q). cbv beta. now rewrite E.
Qed.

(** ** Fold *)

Lemma FoldUnsecure_range_no_error {Aggregate : Type} (aggregate : Aggregate)
    (f : Aggregate -> Element -> Aggregate * option error)
    (i : Z) (cells : list Element) :
  (forall a e, (f a e).2 = None) ->
  FoldUnsecure_range aggregate f i cells = (aggregate, None).
Proof.
  intros Hf. revert i.
  induction cells as [|e cells IH]; intros i; simpl; [reflexivity|].
  specialize (Hf aggregate e). destruct (f aggregate e) as [a' err].
  simpl in Hf. subst err. apply IH.
Qed.

(** X29.  With a function that never fails, [Fold] returns [initial]
    and no error, whatever the cells of the queue and whatever
    aggregates the function returns, and leaves the queue as it was. *)
Lemma Fold_no_error {Aggregate : Type} (q : Queue) (initial : Aggregate)
    (f : Aggregate -> Element -> Aggregate * option error) :
  lock q = false -> (forall a e, (f a e).2 = None) ->
  Fold q initial f = Returns (initial, None, q).
Proof.
  intros Hl Hf. unfold Fold. rewrite (locked_free _ _ Hl). simpl.
  unfold FoldUnsecure. rewrite FoldUnsecure_range_no_error by assumption.
  now rewrite (Unlock_set_lock _ Hl).
Qed.

(** C4.  A Lifo queue with the contents [a] then [b] in its buffer,
    folded from the empty list with the function that appends the
    content of each element: the result is the empty list, not
    [[a; b]]. *)
Theorem Fold_returns_initial (a b : T) :
  let h : Heap := fun p => BaseElement (if Nat.eqb p 0 then a else b) in
  let collect (aggregate : list T) (e : Element) : list T * option error :=
    match Content h e with
    | Returns c => (aggregate ++ [c], None)
    | _ => (aggregate, None)
    end in
  exists q0,
    NewQueue Lifo = (Some q0, None)
    /\ (q ← insertAll h q0 [Some 0%nat; Some 1%nat];
        GetAllElements h q) = Returns [zeroT; zeroT; a; b]
    /\ (q ← insertAll h q0 [Some 0%nat; Some 1%nat];
        r ← Fold q [] collect;
        mret r.1) = Returns ([], None).
Proof. eexists. split; [reflexivity|]. split; reflexivity. Qed.

(** ** Map *)

(** C5.  A Lifo queue with one element of content [c], mapped with the
    projector that keeps every element as it is.  The new queue has the
    order and the limit of the old one, but its buffer starts with a nil
    cell and its counter is 2: [GetAllElements] panics on it, while on
    the old queue it returns. *)
Theorem Map_identity_GetAllElements_panics (c : T) :
  let h : Heap := fun _ => BaseElement c in
  let identity (e : Element) : Element * bool * option error :=
    (e, true, None) in
  let view (q : Queue) :=
    (order q, maxnumElements q, elems (queueSlice q), numElements q) in
  exists q0,
    NewQueue Lifo = (Some q0, None)
    /\ (q ← insertAll h q0 [Some 0%nat]; mret (view q))
       = Returns (Lifo, 0, [Some 0%nat], 1)
    /\ (q ← insertAll h q0 [Some 0%nat]; GetAllElements h q)
       = Returns [zeroT; c]
    /\ (q ← insertAll h q0 [Some 0%nat];
        r ← Map h q identity;
        mret (option_map view r.1.1, r.1.2))
       = Returns (Some (Lifo, 0, [None; Some 0%nat], 2), None)
    /\ (q ← insertAll h q0 [Some 0%nat];
        r ← Map h q identity;
        match r.1.1 with
        | Some q' => GetAllElements h q'
        | None => mret []
        end) = Panics NilDereference.
Proof. eexists. split; [reflexivity|]. repeat split; reflexivity. Qed.

(** ** The counter and the removable elements *)

Lemma NewQueue_consistent (tp : Queuetype) (q0 : Queue) :
  NewQueue tp = (Some q0, None) -> consistent q0.
Proof.
  unfold NewQueue. destruct (orb _ _); [discriminate|].
  intros [= <-]. repeat split; simpl; try reflexivity. constructor.
Qed.

Lemma SetLimit_consistent (limit : Z) (q : Queue) :
  consistent q -> consistent (SetLimit limit q).2.
Proof.
  unfold SetLimit. destruct (limit <? 0); [easy|].
  destruct q. easy.
Qed.

(** C6.  Take a queue from [NewQueue], with any limit, through any
    calls of [Insert] (of elements that are not nil) and [Remove] that
    do not panic.  Then [Remove] succeeds exactly [numElements] times
    before it reports an error.  A shrink on the way keeps every cell
    of the buffer, and happens only when the length is below
    [shrinkFactor] times the capacity. *)
Theorem numElements_counts_removable (h : Heap) (tp : Queuetype) (limit : Z)
    (ops : list operation) (q0 q : Queue) (fuel : nat) :
  NewQueue tp = (Some q0, None) ->
  run h ops (SetLimit limit q0).2 = Returns q ->
  (Z.to_nat (numElements q) < fuel)%nat ->
  (exists removed,
     drain h fuel q = Returns (Some removed)
     /\ Z.of_nat (length removed) = numElements q)
  /\ (forall q1, exists bef hid,
        handleShrink q1
        = Returns (set_queueSlice
                     (mkSlice bef (elems (queueSlice q1)) hid) q1))
  /\ (forall q1,
        (shrinkFactor q1 * inject_Z (cap (queueSlice q1))
         <= inject_Z (len (queueSlice q1)))%Q ->
        handleShrink q1 = Returns q1).
Proof.
  intros Hnew Hrun Hfuel. split; [|split].
  - apply drain_consistent; [|assumption].
    eapply run_consistent; [|eassumption].
    apply SetLimit_consistent. eapply NewQueue_consistent. eassumption.
  - apply handleShrink_returns.
  - apply handleShrink_idle.
Qed.

(** ** UpdatePriority on Fifo and Lifo queues *)

Lemma countPriority_ext (h h' : Heap) (oldPriority : float)
    (cells : list Element) :
  (forall p, Some p ∈ cells -> h' p = h p) ->
  countPriority h' oldPriority cells = countPriority h oldPriority cells.
Proof.
  induction cells as [|[p|] cells IH]; intros Hext; simpl;
    [reflexivity | |].
  - rewrite (Hext p) by (apply elem_of_cons; now left).
    rewrite IH; [reflexivity|].
    intros p' Hp'. apply Hext, elem_of_cons. now right.
  - apply IH. intros p' Hp'. apply Hext, elem_of_cons. now right.
Qed.

Lemma SetPriority_others (h h' : Heap) (p : pointer) (priority : float) :
  SetPriority h (Some p) priority = Returns h' ->
  forall p', p' <> p -> h' p' = h p'.
Proof.
  simpl. destruct (h p); intros [= <-] p' Hp'; [reflexivity|].
  unfold store. destruct (Nat.eqb_spec p' p); [contradiction | reflexivity].
Qed.

Lemma updateInPlace_counts (h : Heap) (oldPriority newPriority : float)
    (counter : Z) (cells : list Element) :
  Forall is_Some cells -> NoDup cells ->
  exists h',
    updateInPlace h oldPriority newPriority counter cells
    = Returns (h', counter + countPriority h oldPriority cells)
    /\ forall p, Some p ∉ cells -> h' p = h p.
Proof.
  revert h counter.
  induction cells as [|e cells IH]; intros h counter Hall Hnd.
  - exists h. simpl. split; [f_equal; f_equal; lia | reflexivity].
  - apply Forall_cons in Hall as [[p ->] Hall].
    apply NoDup_cons in Hnd as [Hp Hnd].
    cbn [updateInPlace countPriority].
    assert (HP : exists pr, Priority h (Some p) = Returns pr).
    { simpl. destruct (h p); eauto. }
    destruct HP as [pr HP]. rewrite HP. cbv [mbind outcome_bind].
    destruct (PrimFloat.eqb pr oldPriority).
    + assert (HS : exists h1, SetPriority h (Some p) newPriority = Returns h1).
      { simpl. destruct (h p); eauto. }
      destruct HS as [h1 HS]. rewrite HS.
      pose proof (SetPriority_others _ _ _ _ HS) as Hothers.
      destruct (IH h1 (counter + 1) Hall Hnd) as (h' & -> & Hh').
      exists h'. split.
      * rewrite (countPriority_ext h h1); [f_equal; f_equal; lia|].
        intros p' Hp'. apply Hothers. intros ->. contradiction.
      * intros p' Hp'. apply not_elem_of_cons in Hp' as [Hne Hp'].
        rewrite Hh' by assumption. apply Hothers. congruence.
    + destruct (IH h counter Hall Hnd) as (h' & -> & Hh').
      exists h'. split; [reflexivity|].
      intros p' Hp'. apply not_elem_of_cons in Hp' as [_ Hp']. now apply Hh'.
Qed.

(** On a Fifo or Lifo queue whose cells hold distinct elements, none of
    them nil, [UpdatePriority] returns the number of cells whose element
    had the old priority and leaves the queue as it was. *)
Lemma UpdatePriority_Fifo_Lifo (h : Heap) (oldPriority newPriority : float)
    (performanceFlag : bool) (q : Queue) :
  lock q = false -> order q = Fifo \/ order q = Lifo ->
  Forall is_Some (elems (queueSlice q)) -> NoDup (elems (queueSlice q)) ->
  exists h',
    UpdatePriority h oldPriority newPriority performanceFlag q
    = Returns (countPriority h oldPriority (elems (queueSlice q)), h', q).
Proof.
  intros Hl Ho Hall Hnd. unfold UpdatePriority.
  rewrite (locked_free _ _ Hl).
  destruct (updateInPlace_counts h oldPriority newPriority 0 _ Hall Hnd)
    as (h' & Hu & _).
  exists h'. destruct q as [o l s n m]. simpl in *. subst l.
  destruct Ho as [-> | ->]; simpl; rewrite Hu; reflexivity.
Qed.

(** ** UpdatePriority on the other queues *)

(** [UpdatePriority] holds the mutex while it runs, and a call of
    [Insert] on the queue then blocks. *)
Lemma Insert_while_locked (h : Heap) (e : Element) (q : Queue) :
  lock q = true -> Insert h e q = Deadlocks.
Proof. intros Hl. unfold Insert. now apply locked_held. Qed.

(** Outside of Fifo and Lifo the counter is never incremented: when the
    call returns, it returns 0. *)
Lemma UpdatePriority_returns_0 (h h' : Heap) (oldPriority newPriority : float)
    (performanceFlag : bool) (q q' : Queue) (counter : Z) :
  order q <> Fifo -> order q <> Lifo ->
  UpdatePriority h oldPriority newPriority performanceFlag q
  = Returns (counter, h', q') ->
  counter = 0.
Proof.
  intros HF HL. unfold UpdatePriority, locked.
  destruct (Lock q) as [q1| |] eqn:EL; try discriminate.
  assert (Ho : order q1 = order q).
  { unfold Lock in EL. destruct (lock q); [discriminate|].
    injection EL as <-. now destruct q. }
  cbv [mbind outcome_bind]. rewrite Ho.
  destruct (order q =? Lifo) eqn:E1; zbool; [contradiction|].
  destruct (order q =? Fifo) eqn:E2; zbool; [contradiction|].
  cbn [orb].
  destruct ((order q =? PriorityHigh) || (order q =? PriorityLow)).
  - destruct (updateByReinsertion _ _ _ _ _ _ _ _ _) as [[[h1 q2] l1]| |];
      try discriminate.
    cbn [mret outcome_ret].
    destruct (_ && _); [destruct (reinsertAll _ _ _)|];
      try discriminate; now intros [= <- _ _].
  - cbn [mret outcome_ret].
    destruct (_ && _); [destruct (reinsertAll _ _ _)|];
      try discriminate; now intros [= <- _ _].
Qed.

(** C9.  One element of priority 1 in the buffer, and
    [UpdatePriority(1, 2, _)].  On a FifoLimited queue no case of the
    switch applies: the call returns 0 and the priority stays 1.  On a
    PriorityHigh queue the element is taken out and [q.Insert] is called
    while [UpdatePriority] holds the mutex of [q]: the call never
    returns, with either value of the flag. *)
Theorem UpdatePriority_count_missed (c : T) :
  let h : Heap := fun _ => PriorityElement 1 c in
  exists q4 q2,
    NewQueue FifoLimited = (Some q4, None)
    /\ NewQueue PriorityHigh = (Some q2, None)
    /\ (q ← insertAll h q4 [Some 0%nat];
        mret (countPriority h 1 (elems (queueSlice q)))) = Returns 1
    /\ (q ← insertAll h q4 [Some 0%nat];
        r ← UpdatePriority h 1 2 false q;
        mret (r.1.1, Priority r.1.2 (Some 0%nat)))
       = Returns (0, Returns 1%float)
    /\ (q ← insertAll h q2 [Some 0%nat];
        mret (countPriority h 1 (elems (queueSlice q)))) = Returns 1
    /\ (q ← insertAll h q2 [Some 0%nat]; UpdatePriority h 1 2 true q)
       = Deadlocks
    /\ (q ← insertAll h q2 [Some 0%nat]; UpdatePriority h 1 2 false q)
       = Deadlocks.
Proof. eexists _, _. repeat split; reflexivity. Qed.

(** * Further properties *)

(** ** Removal at any index of a full queue *)

Lemma Priority_pointer (h : Heap) (p : pointer) :
  Priority h (Some p) = Returns (priorityOf (h p)).
Proof. simpl. now destruct (h p). Qed.

Lemma Content_pointer (h : Heap) (p : pointer) :
  Content h (Some p) = Returns (contentOf (h p)).
Proof. simpl. now destruct (h p). Qed.

(** The cell at [i] leaves the slice, the cells behind it move up, and
    the array keeps a nil cell where the slice ended (or, for [i = 0],
    where it began). *)
Lemma deleteWithoutMemoryManagement_full (q : Queue) (i : Z) (e : Element) :
  full q -> 0 <= i -> elems (queueSlice q) !! Z.to_nat i = Some e ->
  exists s,
    deleteWithoutMemoryManagement i q
    = Returns (e, None,
               set_numElements (numElements q - 1) (set_queueSlice s q))
    /\ elems s = take (Z.to_nat i) (elems (queueSlice q))
                 ++ drop (S (Z.to_nat i)) (elems (queueSlice q))
    /\ array s
       = if i =? 0
         then before (queueSlice q) ++ None
                :: drop 1 (elems (queueSlice q)) ++ hidden (queueSlice q)
         else before (queueSlice q)
                ++ (take (Z.to_nat i) (elems (queueSlice q))
                    ++ drop (S (Z.to_nat i)) (elems (queueSlice q)))
                ++ None :: hidden (queueSlice q).
Proof.
  unfold full. intros Hfull Hi He.
  destruct q as [o l s n m]; simpl in *. unfold len in Hfull.
  pose proof (lookup_lt_Some _ _ _ He) as Hlt.
  unfold deleteWithoutMemoryManagement; simpl.
  destruct (n =? 0) eqn:E0; zbool; [lia|].
  destruct ((i <? 0) || (n <=? i)) eqn:E1; zbool; [lia|].
  rewrite (index_returns s i e) by assumption. simpl.
  destruct (i =? n) eqn:E2; zbool; [lia|].
  destruct (i =? 0) eqn:E3; zbool.
  - subst i. rewrite assign_returns by (unfold len; lia). simpl.
    rewrite slice_from_returns
      by (unfold len; simpl; rewrite length_insert; lia).
    simpl. eexists. split; [reflexivity|]. unfold array. simpl.
    rewrite drop_insert_lt by lia.
    destruct (elems s) as [|c cs]; [simpl in Hlt; lia|].
    simpl. split; [now rewrite drop_0|].
    rewrite drop_0, <- app_assoc. reflexivity.
  - rewrite (slice_from_returns s i) by (unfold len; lia). simpl.
    rewrite (slice_from_returns s (i + 1)) by (unfold len; lia). simpl.
    replace (Z.to_nat (i + 1)) with (S (Z.to_nat i)) by lia.
    set (front := take (Z.to_nat i) (elems s)).
    set (back := drop (S (Z.to_nat i)) (elems s)).
    assert (Hfront : length front = Z.to_nat i).
    { unfold front. rewrite length_take. lia. }
    assert (Hback : S (length back + Z.to_nat i) = length (elems s)).
    { unfold back. rewrite length_drop. lia. }
    assert (Hs1 : exists c,
               elems (written_through s i
                        (copy (mkSlice (before s ++ front)
                                 (drop (Z.to_nat i) (elems s)) (hidden s))
                           back))
               = front ++ back ++ [c]).
    { unfold written_through, copy. simpl. fold front.
      rewrite length_drop.
      replace (Nat.min (length (elems s) - Z.to_nat i) (length back))
        with (length back) by lia.
      rewrite firstn_all, drop_drop.
      destruct (lookup_lt_is_Some_2 (elems s) (Z.to_nat i + length back))
        as [c Hc]; [lia|].
      exists c. rewrite (drop_S _ _ _ Hc).
      rewrite drop_ge by lia. reflexivity. }
    destruct Hs1 as [c Hs1].
    set (s1 := written_through _ _ _) in *.
    assert (Hb1 : before s1 = before s) by reflexivity.
    assert (Hh1 : hidden s1 = hidden s) by reflexivity.
    clearbody s1.
    rewrite (assign_returns s1)
      by (unfold len; rewrite Hs1, !length_app; simpl; lia).
    simpl. unfold slice_to. simpl.
    match goal with
    | |- context [take _ (?x ++ hidden s1)] =>
        assert (Hins : x = (front ++ back) ++ [None]);
        [ rewrite Hs1, app_assoc;
          replace (Z.to_nat (n - 1)) with (length (front ++ back) + 0)%nat
            by (rewrite length_app; lia);
          rewrite insert_app_r; reflexivity
        | rewrite Hins ]
    end.
    destruct ((n - 1 <? 0) || _) eqn:E4; zbool.
    { exfalso. destruct E4 as [E4|E4]; zbool; [lia|].
      unfold cap, len in E4. simpl in E4.
      rewrite !length_app in E4. simpl in E4. lia. }
    simpl. eexists. split; [reflexivity|]. unfold array. simpl.
    replace (Z.to_nat (n - 1)) with (length (front ++ back))
      by (rewrite length_app; lia).
    rewrite <- !app_assoc, (app_assoc front back), take_app_length,
      drop_app_length.
    rewrite Hb1, Hh1. split; [reflexivity|].
    now rewrite <- !app_assoc.
Qed.

(** [remove] of a cell of a full queue: the queue stays full. *)
Lemma remove_full (q : Queue) (i : Z) (e : Element) :
  full q -> 0 <= i -> elems (queueSlice q) !! Z.to_nat i = Some e ->
  exists q',
    remove i q = Returns (e, None, q')
    /\ elems (queueSlice q')
       = take (Z.to_nat i) (elems (queueSlice q))
         ++ drop (S (Z.to_nat i)) (elems (queueSlice q))
    /\ full q' /\ numElements q' = numElements q - 1
    /\ order q' = order q /\ lock q' = lock q
    /\ maxnumElements q' = maxnumElements q.
Proof.
  intros Hfull Hi He.
  pose proof (lookup_lt_Some _ _ _ He) as Hlt.
  destruct (deleteWithoutMemoryManagement_full q i e Hfull Hi He)
    as (s & Hdel & Hs & _).
  unfold remove. rewrite Hdel. simpl.
  match goal with
  | |- context [handleShrink ?q1] =>
      destruct (handleShrink_returns q1) as (bef & hid & ->)
  end.
  simpl. eexists. split; [reflexivity|]. simpl.
  split; [exact Hs|]. unfold full in *. simpl. unfold len in *. simpl.
  rewrite Hs, length_app, length_take, length_drop.
  repeat split; lia.
Qed.

(** ** Remove, RemoveElement and PeekElem at the tail *)

Lemma remove_last (q : Queue) (cells : list Element) (e : Element) :
  full q -> elems (queueSlice q) = cells ++ [e] ->
  exists q',
    remove (numElements q - 1) q = Returns (e, None, q')
    /\ elems (queueSlice q') = cells
    /\ full q' /\ numElements q' = numElements q - 1
    /\ order q' = order q /\ lock q' = lock q
    /\ maxnumElements q' = maxnumElements q.
Proof.
  intros Hfull He.
  assert (Hn : numElements q - 1 = Z.of_nat (length cells)).
  { unfold full, len in Hfull. rewrite Hfull, He, length_app. simpl. lia. }
  rewrite Hn.
  destruct (remove_full q (Z.of_nat (length cells)) e Hfull)
    as (q' & Hr & Hcells & Hrest); [lia| |].
  { rewrite Nat2Z.id, He. apply list_lookup_middle. reflexivity. }
  exists q'. split; [exact Hr|]. split; [|rewrite <- Hn; exact Hrest].
  rewrite Hcells, He, Nat2Z.id, take_app_length.
  rewrite drop_ge by (rewrite length_app; simpl; lia).
  apply app_nil_r.
Qed.

Lemma Remove_last (h : Heap) (q : Queue) (cells : list Element)
    (p : pointer) :
  lock q = false -> full q -> elems (queueSlice q) = cells ++ [Some p] ->
  exists q',
    Remove h q = Returns (contentOf (h p), priorityOf (h p), None, q')
    /\ elems (queueSlice q') = cells
    /\ full q' /\ numElements q' = numElements q - 1
    /\ order q' = order q /\ lock q' = false
    /\ maxnumElements q' = maxnumElements q.
Proof.
  intros Hl Hfull He. unfold Remove. rewrite (locked_free _ _ Hl).
  destruct (remove_last (set_lock true q) cells (Some p))
    as (q' & Hr & Hcells & Hf & Hn & Ho & Hl' & Hm);
    [destruct q; exact Hfull | destruct q; exact He |].
  replace (numElements (set_lock true q)) with (numElements q) in *
    by now destruct q.
  rewrite Hr. simpl.
  exists (Unlock q'). split; [now destruct (h p)|].
  destruct q, q'; simpl in *. repeat split; assumption.
Qed.

Lemma RemoveElement_last (q : Queue) (cells : list Element) (e : Element) :
  lock q = false -> full q -> elems (queueSlice q) = cells ++ [e] ->
  exists q',
    RemoveElement q = Returns (e, None, q')
    /\ elems (queueSlice q') = cells
    /\ full q' /\ numElements q' = numElements q - 1
    /\ order q' = order q /\ lock q' = false
    /\ maxnumElements q' = maxnumElements q.
Proof.
  intros Hl Hfull He. unfold RemoveElement. rewrite (locked_free _ _ Hl).
  destruct (remove_last (set_lock true q) cells e)
    as (q' & Hr & Hcells & Hf & Hn & Ho & Hl' & Hm);
    [destruct q; exact Hfull | destruct q; exact He |].
  replace (numElements (set_lock true q)) with (numElements q) in *
    by now destruct q.
  rewrite Hr. simpl.
  exists (Unlock q'). split; [reflexivity|].
  destruct q, q'; simpl in *. repeat split; assumption.
Qed.

(** Emptying a full queue gives its elements from the tail to the head. *)
Lemma drain_full (h : Heap) (ps : list pointer) :
  forall (fuel : nat) (q : Queue),
    lock q = false -> full q -> elems (queueSlice q) = map Some ps ->
    (length ps < fuel)%nat ->
    drain h fuel q = Returns (Some (map (removed h) (rev ps))).
Proof.
  induction ps as [|p ps IH] using rev_ind; intros fuel q Hl Hfull He Hfuel;
    (destruct fuel as [|fuel]; [simpl in Hfuel; lia|]); simpl.
  - assert (Hn : numElements q = 0).
    { unfold full, len in Hfull. now rewrite Hfull, He. }
    destruct (Remove_empty h q Hn Hl) as (bef & hid & ->). reflexivity.
  - rewrite map_app in He. simpl in He.
    destruct (Remove_last h q _ p Hl Hfull He)
      as (q' & -> & Hcells & Hf & _ & _ & Hl' & _).
    simpl. rewrite length_app in Hfuel. simpl in Hfuel.
    rewrite (IH fuel q' Hl' Hf Hcells) by lia.
    simpl. now rewrite rev_app_distr.
Qed.

Lemma insertAll_Fifo_full (h : Heap) (es : list Element) (q : Queue) :
  lock q = false -> order q = Fifo -> full q ->
  exists q',
    insertAll h q es = Returns q'
    /\ lock q' = false /\ order q' = Fifo /\ full q'
    /\ elems (queueSlice q') = rev es ++ elems (queueSlice q).
Proof.
  intros Hl Ho Hf.
  destruct (insertAll_Fifo h es q Hl Ho) as (q' & Hq & Hl' & Ho' & He & Hn).
  exists q'. repeat split; try assumption.
  unfold full, len in *. rewrite Hn, He, Hf, length_app, length_rev. lia.
Qed.

Lemma insertAll_Lifo_full (h : Heap) (es : list Element) (q : Queue) :
  lock q = false -> order q = Lifo -> full q ->
  exists q',
    insertAll h q es = Returns q'
    /\ lock q' = false /\ order q' = Lifo /\ full q'
    /\ elems (queueSlice q') = elems (queueSlice q) ++ es.
Proof.
  intros Hl Ho Hf.
  destruct (insertAll_Lifo h es q Hl Ho) as (q' & Hq & Hl' & Ho' & He & Hn).
  exists q'. repeat split; try assumption.
  unfold full, len in *. rewrite Hn, He, Hf, length_app. lia.
Qed.

(** X1.  First in, first out: the elements inserted into a new Fifo
    queue come back from [Remove], content and priority, in the order of
    their insertion, and then the queue reports that it is empty. *)
Theorem Fifo_first_in_first_out (h : Heap) (ps : list pointer) :
  exists q0 q,
    NewQueue Fifo = (Some q0, None)
    /\ insertAll h q0 (map Some ps) = Returns q
    /\ numElements q = Z.of_nat (length ps)
    /\ drain h (S (length ps)) q = Returns (Some (map (removed h) ps)).
Proof.
  eexists. 
  destruct (insertAll_Fifo_full h (map Some ps)
              (mkQueue Fifo false (mkSlice [] [] []) 0 0))
    as (q & Hq & Hl & Ho & Hf & He); try reflexivity.
  exists q. split; [reflexivity|]. split; [exact Hq|].
  simpl in He. rewrite app_nil_r, <- map_rev in He. split.
  - unfold full, len in Hf. now rewrite Hf, He, length_map, length_rev.
  - rewrite (drain_full h (rev ps) _ q Hl Hf He)
      by (rewrite length_rev; lia).
    now rewrite rev_involutive.
Qed.

(** X2.  Last in, first out: from a new Lifo queue the elements come
    back in the reverse order of their insertion. *)
Theorem Lifo_last_in_first_out (h : Heap) (ps : list pointer) :
  exists q0 q,
    NewQueue Lifo = (Some q0, None)
    /\ insertAll h q0 (map Some ps) = Returns q
    /\ numElements q = Z.of_nat (length ps)
    /\ drain h (S (length ps)) q
       = Returns (Some (map (removed h) (rev ps))).
Proof.
  eexists.
  destruct (insertAll_Lifo_full h (map Some ps)
              (mkQueue Lifo false (mkSlice [] [] []) 0 0))
    as (q & Hq & Hl & Ho & Hf & He); try reflexivity.
  exists q. split; [reflexivity|]. split; [exact Hq|].
  simpl in He. split.
  - unfold full, len in Hf. now rewrite Hf, He, length_map.
  - apply (drain_full h ps _ q Hl Hf He). lia.
Qed.

(** X3.  On a consistent queue that counts at least one element,
    [PeekElem] returns the priority and the content that the next
    [Remove] returns, and leaves the queue as it was. *)
Theorem PeekElem_shows_next_Remove (h : Heap) (q : Queue) :
  consistent q -> 0 < numElements q ->
  exists p q',
    elems (queueSlice q) !! Z.to_nat (numElements q - 1) = Some (Some p)
    /\ PeekElem h q = Returns (priorityOf (h p), contentOf (h p), None, q)
    /\ Remove h q = Returns (contentOf (h p), priorityOf (h p), None, q')
    /\ numElements q' = numElements q - 1.
Proof.
  intros [Hl Hc] Hpos.
  destruct (remove_tail (set_lock true q))
    as (p & q' & Hlk & Hr & _ & _ & _ & Hn & _);
    [destruct q; exact Hc | destruct q; exact Hpos |].
  replace (numElements (set_lock true q)) with (numElements q) in *
    by now destruct q.
  replace (queueSlice (set_lock true q)) with (queueSlice q) in *
    by now destruct q.
  exists p, (Unlock q'). split; [exact Hlk|]. split; [|split].
  - unfold PeekElem. rewrite (locked_free _ _ Hl).
    replace (numElements (set_lock true q)) with (numElements q)
      by now destruct q.
    replace (queueSlice (set_lock true q)) with (queueSlice q)
      by now destruct q.
    destruct (numElements q =? 0) eqn:E; zbool; [lia|].
    rewrite (index_returns (queueSlice q) (numElements q - 1) (Some p)
               ltac:(lia) Hlk).
    cbv [mbind outcome_bind]. rewrite Priority_pointer, Content_pointer.
    cbv [mret outcome_ret fst snd]. now rewrite (Unlock_set_lock _ Hl).
  - unfold Remove. rewrite (locked_free _ _ Hl).
    replace (numElements (set_lock true q)) with (numElements q)
      by now destruct q.
    rewrite Hr. cbv [mbind outcome_bind fst snd].
    now rewrite Content_pointer, Priority_pointer.
  - now destruct q'.
Qed.

(** X4.  [PeekElemAtIndex] with an offset that is not negative: below
    the counter it returns the element that many cells before the tail,
    from the counter on it reports [ErrIndexOutOfBounds]; the queue
    stays as it was. *)
Theorem PeekElemAtIndex_offset (h : Heap) (idx : Z) (q : Queue)
    (p : pointer) :
  lock q = false -> 0 < numElements q < 2 ^ 63 -> 0 <= idx < 2 ^ 63 ->
  elems (queueSlice q) !! Z.to_nat (numElements q - 1 - idx) = Some (Some p) ->
  PeekElemAtIndex h idx q
  = if idx <? numElements q
    then Returns (priorityOf (h p), contentOf (h p), None, q)
    else Returns (0%float, zeroT, Some ErrIndexOutOfBounds, q).
Proof.
  intros Hl Hn Hi Hlk.
  destruct (idx <? numElements q) eqn:E; zbool;
    [|apply PeekElemAtIndex_past_tail; (assumption || lia)].
  unfold PeekElemAtIndex. rewrite (locked_free _ _ Hl).
  replace (numElements (set_lock true q)) with (numElements q)
    by now destruct q.
  replace (queueSlice (set_lock true q)) with (queueSlice q)
    by now destruct q.
  destruct (numElements q =? 0) eqn:E0; zbool; [lia|].
  assert (Hw : wrap64 (numElements q - 1 - idx) = numElements q - 1 - idx).
  { unfold wrap64. rewrite Z.mod_small; lia. }
  rewrite Hw.
  destruct (_ <? 0) eqn:E1; zbool; [lia|].
  rewrite (index_returns (queueSlice q) (numElements q - 1 - idx) (Some p)
             ltac:(lia) Hlk).
  cbv [mbind outcome_bind]. rewrite Priority_pointer, Content_pointer.
  cbv [mret outcome_ret fst snd]. now rewrite (Unlock_set_lock _ Hl).
Qed.

(** X5.  On a queue whose counter is 0, [Remove], [RemoveElement] and
    [PeekElem] report [ErrEmptyQueue] (the removals wrap it), return
    zero values and keep the cells of the buffer. *)
Theorem empty_queue_reports_ErrEmptyQueue (h : Heap) (q : Queue) :
  numElements q = 0 -> lock q = false ->
  PeekElem h q = Returns (0%float, zeroT, Some ErrEmptyQueue, q)
  /\ (exists q',
        Remove h q
        = Returns (zeroT, 0%float,
                   Some (Wrapped ErrEmptyQueue "removing element"), q')
        /\ elems (queueSlice q') = elems (queueSlice q)
        /\ numElements q' = 0)
  /\ (exists q',
        RemoveElement q
        = Returns (None, Some (Wrapped ErrEmptyQueue "removing element"), q')
        /\ elems (queueSlice q') = elems (queueSlice q)
        /\ numElements q' = 0).
Proof.
  intros Hn Hl. split; [|split].
  - unfold PeekElem. rewrite (locked_free _ _ Hl).
    replace (numElements (set_lock true q)) with (numElements q)
      by now destruct q.
    rewrite Hn. simpl. now rewrite (Unlock_set_lock _ Hl).
  - destruct (Remove_empty h q Hn Hl) as (bef & hid & ->).
    eexists. split; [reflexivity|]. now destruct q.
  - unfold RemoveElement. rewrite (locked_free _ _ Hl).
    destruct (remove_empty (numElements (set_lock true q) - 1)
                (set_lock true q)) as (bef & hid & ->);
      [now destruct q|].
    simpl. eexists. split; [reflexivity|]. now destruct q.
Qed.

(** X6.  [Append] puts the element at the tail whatever the order of
    the queue: on a full queue the next [RemoveElement] returns it and
    leaves the cells that were there before. *)
Theorem Append_then_RemoveElement (e : Element) (q : Queue) :
  lock q = false -> full q ->
  exists q1 q2,
    Append e q = Returns q1
    /\ elems (queueSlice q1) = elems (queueSlice q) ++ [e]
    /\ numElements q1 = numElements q + 1
    /\ RemoveElement q1 = Returns (e, None, q2)
    /\ elems (queueSlice q2) = elems (queueSlice q)
    /\ numElements q2 = numElements q.
Proof.
  intros Hl Hf. unfold Append. rewrite (locked_free _ _ Hl).
  cbv [mbind outcome_bind mret outcome_ret fst snd].
  set (q1 := Unlock _).
  assert (He1 : elems (queueSlice q1) = elems (queueSlice q) ++ [e])
    by now destruct q.
  assert (Hn1 : numElements q1 = numElements q + 1) by now destruct q.
  assert (Hl1 : lock q1 = false) by reflexivity.
  assert (Hf1 : full q1).
  { unfold full, len in *. rewrite Hn1, He1, length_app. simpl. lia. }
  clearbody q1.
  destruct (RemoveElement_last q1 _ e Hl1 Hf1 He1)
    as (q2 & Hr & He2 & _ & Hn2 & _).
  exists q1, q2. repeat split; try assumption. lia.
Qed.

(** ** Clone and GetAllElements *)

(** X7.  [Clone] leaves the queue as it was and returns a queue with
    the same order, counter and limit and a free mutex, whose buffer
    has [numElements] cells: the first [numElements] cells of the
    original, filled up with nil cells if the original has fewer. *)
Theorem Clone_copies_counted_cells (q : Queue) :
  lock q = false -> 0 <= numElements q ->
  exists c,
    Clone q = Returns (c, q)
    /\ order c = order q /\ lock c = false
    /\ numElements c = numElements q
    /\ maxnumElements c = maxnumElements q
    /\ elems (queueSlice c)
       = take (Z.to_nat (numElements q)) (elems (queueSlice q))
         ++ replicate (Z.to_nat (numElements q)
                       - length (elems (queueSlice q))) None.
Proof.
  intros Hl Hn. unfold Clone. rewrite (locked_free _ _ Hl).
  replace (numElements (set_lock true q)) with (numElements q)
    by now destruct q.
  unfold make. destruct (numElements q <? 0) eqn:E; zbool; [lia|].
  cbv [mbind outcome_bind mret outcome_ret fst snd].
  rewrite (Unlock_set_lock _ Hl).
  eexists. split; [reflexivity|].
  replace (queueSlice (set_lock true q)) with (queueSlice q)
    by now destruct q.
  replace (order (set_lock true q)) with (order q) by now destruct q.
  replace (maxnumElements (set_lock true q)) with (maxnumElements q)
    by now destruct q.
  cbn [order lock numElements maxnumElements queueSlice].
  repeat split. unfold copy. cbn [elems].
  rewrite length_replicate, drop_replicate.
  set (n := Z.to_nat (numElements q)). set (l := elems (queueSlice q)).
  destruct (Nat.le_ge_cases n (length l)) as [H|H].
  - rewrite Nat.min_l by assumption.
    now replace (n - n)%nat with (n - length l)%nat by lia.
  - rewrite Nat.min_r by assumption.
    now rewrite firstn_all, (take_ge l n) by assumption.
Qed.

Lemma appendContents_pointers (h : Heap) (ps : list pointer) :
  forall ret,
    appendContents h ret (map Some ps)
    = Returns (ret ++ map (fun p => contentOf (h p)) ps).
Proof.
  induction ps as [|p ps IH]; intros ret; simpl.
  - now rewrite app_nil_r.
  - destruct (h p); simpl; rewrite IH, <- app_assoc; reflexivity.
Qed.

(** X8.  When no cell of the buffer is nil, [GetAllElements] returns
    [numElements] zero values followed by the contents of the buffer
    from its head to its tail. *)
Theorem GetAllElements_zero_values_then_contents (h : Heap) (q : Queue)
    (ps : list pointer) :
  0 <= numElements q -> elems (queueSlice q) = map Some ps ->
  GetAllElements h q
  = Returns (replicate (Z.to_nat (numElements q)) zeroT
             ++ map (fun p => contentOf (h p)) ps).
Proof.
  intros Hn He. unfold GetAllElements.
  destruct (numElements q <? 0) eqn:E; zbool; [lia|].
  rewrite He. apply appendContents_pointers.
Qed.

(** ** The capacity after a removal *)

Lemma afterShrinkFactor_below_1 (q : Queue) : (afterShrinkFactor q <= 1)%Q.
Proof.
  unfold afterShrinkFactor.
  repeat (destruct (numElements q <? _)); discriminate.
Qed.

(** X9.  [handleShrink] always returns.  It keeps the cells of the
    buffer; the capacity stays as it is unless the length is below
    [shrinkFactor] times the capacity, and then becomes
    [afterShrinkFactor] times the capacity, rounded up, which is never
    more than before. *)
Theorem handleShrink_capacity (q : Queue) :
  exists s,
    handleShrink q = Returns (set_queueSlice s q)
    /\ elems s = elems (queueSlice q)
    /\ cap s <= cap (queueSlice q)
    /\ cap s
       = if Qlt_bool (inject_Z (len (queueSlice q)))
               (shrinkFactor q * inject_Z (cap (queueSlice q)))%Q
         then Qceiling (afterShrinkFactor q * inject_Z (cap (queueSlice q)))%Q
         else cap (queueSlice q).
Proof.
  destruct (Qlt_bool _ _) eqn:E.
  - assert (H : (inject_Z (len (queueSlice q))
                 < shrinkFactor q * inject_Z (cap (queueSlice q)))%Q).
    { unfold Qlt_bool in E. apply negb_true_iff in E.
      apply Qnot_le_lt. intros H. apply Qle_bool_iff in H. congruence. }
    destruct (handleShrink_fires q H) as (s & Hs & He & Hc).
    exists s. repeat split; try assumption.
    rewrite Hc.
    assert (Hle : (afterShrinkFactor q * inject_Z (cap (queueSlice q))
                   <= 1 * inject_Z (cap (queueSlice q)))%Q).
    { apply Qmult_le_compat_r; [apply afterShrinkFactor_below_1|].
      rewrite <- (Zle_Qle 0). unfold cap, len. lia. }
    rewrite Qmult_1_l in Hle. apply Qceiling_resp_le in Hle.
    now rewrite Qceiling_Z in Hle.
  - assert (H : (shrinkFactor q * inject_Z (cap (queueSlice q))
                 <= inject_Z (len (queueSlice q)))%Q).
    { unfold Qlt_bool in E. apply negb_false_iff in E.
      now apply Qle_bool_iff. }
    rewrite (handleShrink_idle q H).
    exists (queueSlice q). repeat split; try lia. now destruct q.
Qed.

(** ** Insertion by priority: the direct path *)

Lemma rising_middle (h : Heap) (l r : list pointer) (t p : pointer) :
  rising h (l ++ t :: p :: r) = true ->
  PrimFloat.ltb (priorityOf (h t)) (priorityOf (h p)) = true.
Proof.
  induction l as [|x l IH]; simpl.
  - intros H. now apply andb_true_iff in H as [H _].
  - destruct (l ++ t :: p :: r) eqn:E; [now destruct l|].
    intros H. apply andb_true_iff in H as [_ H]. now apply IH.
Qed.

Lemma falling_middle (h : Heap) (l r : list pointer) (t p : pointer) :
  falling h (l ++ t :: p :: r) = true ->
  PrimFloat.ltb (priorityOf (h p)) (priorityOf (h t)) = true.
Proof.
  induction l as [|x l IH]; simpl.
  - intros H. now apply andb_true_iff in H as [H _].
  - destruct (l ++ t :: p :: r) eqn:E; [now destruct l|].
    intros H. apply andb_true_iff in H as [_ H]. now apply IH.
Qed.

(** An element above the tail of a PriorityHigh queue, or any element
    when the counter is 0, goes to the tail. *)
Lemma Insert_PriorityHigh_direct (h : Heap) (p : pointer) (q : Queue)
    (done : list pointer) :
  lock q = false -> order q = PriorityHigh -> full q ->
  elems (queueSlice q) = map Some done ->
  (forall l t, done = l ++ [t] ->
     PrimFloat.ltb (priorityOf (h t)) (priorityOf (h p)) = true) ->
  exists q',
    Insert h (Some p) q = Returns (None, q')
    /\ lock q' = false /\ order q' = PriorityHigh /\ full q'
    /\ elems (queueSlice q') = map Some (done ++ [p]).
Proof.
  intros Hl Ho Hf He Hlt. unfold Insert. rewrite (locked_free _ _ Hl).
  destruct q as [o l s n m]; simpl in *. subst o l. simpl.
  unfold insertPriorityHigh. simpl.
  assert (Hdirect :
    (if n =? 0 then mret true
     else index s (n - 1) ≫= λ tail, Priority h tail ≫= λ pt,
          Priority h (Some p) ≫= λ p0, mret (PrimFloat.ltb pt p0))
    = Returns true).
  { destruct (n =? 0) eqn:E0; zbool; [reflexivity|].
    destruct done as [|t l _] using rev_ind.
    - unfold full, len in Hf. simpl in Hf. rewrite He in Hf. simpl in Hf. lia.
    - rewrite map_app in He. simpl in He.
      rewrite (index_returns s (n - 1) (Some t)).
      + cbv [mbind outcome_bind]. rewrite !Priority_pointer.
        cbv [mret outcome_ret]. now rewrite (Hlt l t eq_refl).
      + unfold full, len in Hf. simpl in Hf. rewrite He, length_app in Hf.
        simpl in Hf. lia.
      + unfold full, len in Hf. simpl in Hf. rewrite He, length_app in Hf.
        simpl in Hf. rewrite He.
        replace (Z.to_nat (n - 1)) with (length (map Some l)) by lia.
        apply list_lookup_middle. reflexivity. }
  simpl in Hdirect. rewrite Hdirect. simpl.
  eexists. split; [reflexivity|]. simpl. repeat split.
  - unfold full, len in *. simpl in *. rewrite length_app. simpl. lia.
  - now rewrite He, map_app.
Qed.

Lemma Insert_PriorityLow_direct (h : Heap) (p : pointer) (q : Queue)
    (done : list pointer) :
  lock q = false -> order q = PriorityLow -> full q ->
  elems (queueSlice q) = map Some done ->
  (forall l t, done = l ++ [t] ->
     PrimFloat.ltb (priorityOf (h p)) (priorityOf (h t)) = true) ->
  exists q',
    Insert h (Some p) q = Returns (None, q')
    /\ lock q' = false /\ order q' = PriorityLow /\ full q'
    /\ elems (queueSlice q') = map Some (done ++ [p]).
Proof.
  intros Hl Ho Hf He Hlt. unfold Insert. rewrite (locked_free _ _ Hl).
  destruct q as [o l s n m]; simpl in *. subst o l. simpl.
  unfold insertPriorityLow. simpl.
  assert (Hdirect :
    (if n =? 0 then mret true
     else index s (n - 1) ≫= λ tail, Priority h tail ≫= λ pt,
          Priority h (Some p) ≫= λ p0, mret (PrimFloat.ltb p0 pt))
    = Returns true).
  { destruct (n =? 0) eqn:E0; zbool; [reflexivity|].
    destruct done as [|t l _] using rev_ind.
    - unfold full, len in Hf. simpl in Hf. rewrite He in Hf. simpl in Hf. lia.
    - rewrite map_app in He. simpl in He.
      rewrite (index_returns s (n - 1) (Some t)).
      + cbv [mbind outcome_bind]. rewrite !Priority_pointer.
        cbv [mret outcome_ret]. now rewrite (Hlt l t eq_refl).
      + unfold full, len in Hf. simpl in Hf. rewrite He, length_app in Hf.
        simpl in Hf. lia.
      + unfold full, len in Hf. simpl in Hf. rewrite He, length_app in Hf.
        simpl in Hf. rewrite He.
        replace (Z.to_nat (n - 1)) with (length (map Some l)) by lia.
        apply list_lookup_middle. reflexivity. }
  simpl in Hdirect. rewrite Hdirect. simpl.
  eexists. split; [reflexivity|]. simpl. repeat split.
  - unfold full, len in *. simpl in *. rewrite length_app. simpl. lia.
  - now rewrite He, map_app.
Qed.

Lemma insertAll_rising (h : Heap) (ps : list pointer) :
  forall (q : Queue) (done : list pointer),
    lock q = false -> order q = PriorityHigh -> full q ->
    elems (queueSlice q) = map Some done ->
    rising h (done ++ ps) = true ->
    exists q',
      insertAll h q (map Some ps) = Returns q'
      /\ lock q' = false /\ full q'
      /\ elems (queueSlice q') = map Some (done ++ ps).
Proof.
  induction ps as [|p ps IH]; intros q done Hl Ho Hf He Hr; simpl.
  - exists q. rewrite app_nil_r. auto.
  - destruct (Insert_PriorityHigh_direct h p q done Hl Ho Hf He)
      as (q1 & -> & Hl1 & Ho1 & Hf1 & He1).
    { intros l t ->. rewrite <- app_assoc in Hr.
      now apply rising_middle in Hr. }
    simpl.
    destruct (IH q1 (done ++ [p]) Hl1 Ho1 Hf1 He1) as (q' & Hq' & ? & ? & He');
      [now rewrite <- app_assoc|].
    exists q'. rewrite <- app_assoc in He'. auto.
Qed.

Lemma insertAll_falling (h : Heap) (ps : list pointer) :
  forall (q : Queue) (done : list pointer),
    lock q = false -> order q = PriorityLow -> full q ->
    elems (queueSlice q) = map Some done ->
    falling h (done ++ ps) = true ->
    exists q',
      insertAll h q (map Some ps) = Returns q'
      /\ lock q' = false /\ full q'
      /\ elems (queueSlice q') = map Some (done ++ ps).
Proof.
  induction ps as [|p ps IH]; intros q done Hl Ho Hf He Hr; simpl.
  - exists q. rewrite app_nil_r. auto.
  - destruct (Insert_PriorityLow_direct h p q done Hl Ho Hf He)
      as (q1 & -> & Hl1 & Ho1 & Hf1 & He1).
    { intros l t ->. rewrite <- app_assoc in Hr.
      now apply falling_middle in Hr. }
    simpl.
    destruct (IH q1 (done ++ [p]) Hl1 Ho1 Hf1 He1) as (q' & Hq' & ? & ? & He');
      [now rewrite <- app_assoc|].
    exists q'. rewrite <- app_assoc in He'. auto.
Qed.

(** X10.  Elements inserted into a new PriorityHigh queue in the order
    of strictly rising priorities stay in that order in the buffer, and
    [Remove] returns them from the highest priority down. *)
Theorem PriorityHigh_rising_insertions (h : Heap) (ps : list pointer)
    (q0 : Queue) :
  NewQueue PriorityHigh = (Some q0, None) -> rising h ps = true ->
  exists q,
    insertAll h q0 (map Some ps) = Returns q
    /\ elems (queueSlice q) = map Some ps
    /\ numElements q = Z.of_nat (length ps)
    /\ drain h (S (length ps)) q
       = Returns (Some (map (removed h) (rev ps))).
Proof.
  intros [= <-] Hr.
  destruct (insertAll_rising h ps
              (mkQueue PriorityHigh false (mkSlice [] [] []) 0 0) [])
    as (q & Hq & Hl & Hf & He); try reflexivity; [exact Hr|].
  exists q. split; [exact Hq|]. split; [exact He|]. split.
  - unfold full, len in Hf. now rewrite Hf, He, length_map.
  - apply (drain_full h ps _ q Hl Hf He). lia.
Qed.

(** X11.  Elements inserted into a new PriorityLow queue in the order
    of strictly falling priorities stay in that order in the buffer,
    and [Remove] returns them from the lowest priority up. *)
Theorem PriorityLow_falling_insertions (h : Heap) (ps : list pointer)
    (q0 : Queue) :
  NewQueue PriorityLow = (Some q0, None) -> falling h ps = true ->
  exists q,
    insertAll h q0 (map Some ps) = Returns q
    /\ elems (queueSlice q) = map Some ps
    /\ numElements q = Z.of_nat (length ps)
    /\ drain h (S (length ps)) q
       = Returns (Some (map (removed h) (rev ps))).
Proof.
  intros [= <-] Hr.
  destruct (insertAll_falling h ps
              (mkQueue PriorityLow false (mkSlice [] [] []) 0 0) [])
    as (q & Hq & Hl & Hf & He); try reflexivity; [exact Hr|].
  exists q. split; [exact Hq|]. split; [exact He|]. split.
  - unfold full, len in Hf. now rewrite Hf, He, length_map.
  - apply (drain_full h ps _ q Hl Hf He). lia.
Qed.

(** ** Insertion by priority: the paths that panic *)

Lemma Insert_PriorityHigh_panics (h : Heap) (e : Element) (q : Queue)
    (x : panic) :
  lock q = false -> order q = PriorityHigh ->
  insertPriorityHigh h e (set_lock true q) = Panics x ->
  Insert h e q = Panics x.
Proof.
  intros Hl Ho H. unfold Insert. rewrite (locked_free _ _ Hl).
  replace (order (set_lock true q)) with PriorityHigh by now destruct q.
  cbn [Z.eqb PriorityHigh Fifo Lifo Pos.eqb]. now rewrite H.
Qed.

Lemma Insert_PriorityLow_panics (h : Heap) (e : Element) (q : Queue)
    (x : panic) :
  lock q = false -> order q = PriorityLow ->
  insertPriorityLow h e (set_lock true q) = Panics x ->
  Insert h e q = Panics x.
Proof.
  intros Hl Ho H. unfold Insert. rewrite (locked_free _ _ Hl).
  replace (order (set_lock true q)) with PriorityLow by now destruct q.
  cbn [Z.eqb PriorityLow PriorityHigh Fifo Lifo Pos.eqb]. now rewrite H.
Qed.

(** X12.  PriorityHigh, a queue that counts at least one element.  An
    element that is not above the tail, does not tie with it and is
    not above the first cell either makes [Insert] panic: the loop
    stops at index 0 and slices [q.queueSlice[:-1]]. *)
Theorem PriorityHigh_not_above_head_panics (h : Heap) (p f t : pointer)
    (rest : list Element) (q : Queue) :
  lock q = false -> order q = PriorityHigh -> 0 < numElements q ->
  elems (queueSlice q) = Some f :: rest ->
  elems (queueSlice q) !! Z.to_nat (numElements q - 1) = Some (Some t) ->
  PrimFloat.ltb (priorityOf (h t)) (priorityOf (h p)) = false ->
  PrimFloat.eqb (priorityOf (h t)) (priorityOf (h p)) = false ->
  PrimFloat.ltb (priorityOf (h f)) (priorityOf (h p)) = false ->
  Insert h (Some p) q = Panics SliceBoundsOutOfRange.
Proof.
  intros Hl Ho Hn He Ht Hlt Heq Hlf.
  apply Insert_PriorityHigh_panics; try assumption.
  unfold insertPriorityHigh.
  replace (numElements (set_lock true q)) with (numElements q)
    by now destruct q.
  replace (queueSlice (set_lock true q)) with (queueSlice q)
    by now destruct q.
  destruct (numElements q =? 0) eqn:E0; zbool; [lia|].
  rewrite (index_returns _ (numElements q - 1) (Some t) ltac:(lia) Ht).
  cbv [mbind outcome_bind mret outcome_ret]. rewrite !Priority_pointer.
  cbv [mbind outcome_bind mret outcome_ret]. rewrite Hlt, Heq.
  replace (queueSlice (set_lock true q)) with (queueSlice q)
    by now destruct q.
  rewrite He. cbn [insertPriorityHigh_range].
  rewrite !Priority_pointer.
  cbv [mbind outcome_bind]. rewrite Hlf. reflexivity.
Qed.

(** X13.  The same for PriorityLow and an element that is not below
    the tail, does not tie with it and is not below the first cell. *)
Theorem PriorityLow_not_below_head_panics (h : Heap) (p f t : pointer)
    (rest : list Element) (q : Queue) :
  lock q = false -> order q = PriorityLow -> 0 < numElements q ->
  elems (queueSlice q) = Some f :: rest ->
  elems (queueSlice q) !! Z.to_nat (numElements q - 1) = Some (Some t) ->
  PrimFloat.ltb (priorityOf (h p)) (priorityOf (h t)) = false ->
  PrimFloat.eqb (priorityOf (h t)) (priorityOf (h p)) = false ->
  PrimFloat.ltb (priorityOf (h p)) (priorityOf (h f)) = false ->
  Insert h (Some p) q = Panics SliceBoundsOutOfRange.
Proof.
  intros Hl Ho Hn He Ht Hlt Heq Hlf.
  apply Insert_PriorityLow_panics; try assumption.
  unfold insertPriorityLow.
  replace (numElements (set_lock true q)) with (numElements q)
    by now destruct q.
  replace (queueSlice (set_lock true q)) with (queueSlice q)
    by now destruct q.
  destruct (numElements q =? 0) eqn:E0; zbool; [lia|].
  rewrite (index_returns _ (numElements q - 1) (Some t) ltac:(lia) Ht).
  cbv [mbind outcome_bind mret outcome_ret]. rewrite !Priority_pointer.
  cbv [mbind outcome_bind mret outcome_ret]. rewrite Hlt, Heq.
  replace (queueSlice (set_lock true q)) with (queueSlice q)
    by now destruct q.
  rewrite He. cbn [insertPriorityLow_range].
  rewrite !Priority_pointer.
  cbv [mbind outcome_bind]. rewrite Hlf. reflexivity.
Qed.

Lemma backtrack_from_all_tie (h : Heap) (p : pointer) (q : Queue)
    (ps : list pointer) (n : nat) :
  elems (queueSlice q) = map Some ps -> (n <= length ps)%nat ->
  (forall x, x ∈ ps -> priorityOf (h x) = priorityOf (h p)) ->
  PrimFloat.eqb (priorityOf (h p)) (priorityOf (h p)) = true ->
  backtrack_from h (Some p) q n
  = Returns (set_queueSlice
               (append (literal (Some p)) (elems (queueSlice q))) q).
Proof.
  intros He Hn Hall Heq. induction n as [|n IH]; [reflexivity|].
  cbn [backtrack_from].
  destruct (lookup_lt_is_Some_2 ps n) as [x Hx]; [lia|].
  rewrite (index_returns (queueSlice q) (Z.of_nat n) (Some x));
    [|lia|rewrite Nat2Z.id, He, list_lookup_fmap, Hx; reflexivity].
  cbv [mbind outcome_bind]. rewrite !Priority_pointer.
  cbv [mbind outcome_bind].
  rewrite (Hall x) by (eapply list_elem_of_lookup_2; eauto).
  rewrite Heq. apply IH. lia.
Qed.

(** X14.  PriorityHigh, a full queue whose elements all have one
    priority, a number: [Insert] of one more element of that priority
    panics.  [backtrackInsertionPoint] puts it at the head, the
    function runs on into the loop, which stops at the new head and
    slices [q.queueSlice[:-1]]. *)
Theorem PriorityHigh_equal_priority_panics (h : Heap) (p : pointer)
    (ps : list pointer) (q : Queue) :
  lock q = false -> order q = PriorityHigh -> full q ->
  elems (queueSlice q) = map Some ps -> ps <> [] ->
  (forall x, x ∈ ps -> priorityOf (h x) = priorityOf (h p)) ->
  PrimFloat.eqb (priorityOf (h p)) (priorityOf (h p)) = true ->
  PrimFloat.ltb (priorityOf (h p)) (priorityOf (h p)) = false ->
  Insert h (Some p) q = Panics SliceBoundsOutOfRange.
Proof.
  intros Hl Ho Hf He Hne Hall Heq Hlt.
  apply Insert_PriorityHigh_panics; try assumption.
  assert (Hbt := backtrack_from_all_tie h p (set_lock true q) ps
                   (Z.to_nat (numElements q))).
  unfold insertPriorityHigh, backtrackInsertionPoint.
  replace (numElements (set_lock true q)) with (numElements q)
    by now destruct q.
  replace (queueSlice (set_lock true q)) with (queueSlice q) in *
    by now destruct q.
  unfold full, len in Hf.
  destruct ps as [|t ps _] using rev_ind; [contradiction|].
  assert (Hlen : numElements q = Z.of_nat (length ps) + 1).
  { rewrite Hf, He, length_map, length_app. simpl. lia. }
  destruct (numElements q =? 0) eqn:E0; zbool; [lia|].
  rewrite (index_returns _ (numElements q - 1) (Some t)); [|lia|].
  2:{ rewrite He, map_app.
      replace (Z.to_nat (numElements q - 1)) with (length (map Some ps))
        by (rewrite length_map; lia).
      apply list_lookup_middle. reflexivity. }
  cbv [mbind outcome_bind mret outcome_ret]. rewrite !Priority_pointer.
  rewrite (Hall t)
    by (apply elem_of_app; right; now apply list_elem_of_singleton).
  cbv [mbind outcome_bind mret outcome_ret]. rewrite Hlt, Heq.
  rewrite Hbt; [| assumption | rewrite length_app; simpl; lia
               | assumption | assumption ].
  replace (queueSlice (set_queueSlice
             (append (literal (Some p)) (elems (queueSlice q)))
             (set_lock true q)))
    with (append (literal (Some p)) (elems (queueSlice q)))
    by now destruct q.
  cbn [append literal elems app insertPriorityHigh_range].
  rewrite !Priority_pointer.
  cbv [mbind outcome_bind]. rewrite Hlt. reflexivity.
Qed.

(** ** The bounded queue, whatever is inserted *)


(** ** Fold: the first error *)

Lemma FoldUnsecure_range_first_error {Aggregate : Type}
    (aggregate : Aggregate)
    (f : Aggregate -> Element -> Aggregate * option error)
    (i : Z) (pre : list Element) (e : Element) (post : list Element)
    (err : error) :
  Forall (fun x => (f aggregate x).2 = None) pre ->
  (f aggregate e).2 = Some err ->
  FoldUnsecure_range aggregate f i (pre ++ e :: post)
  = ((f aggregate e).1,
     Some (WrappedAt err "folding element at position %d"
             (i + Z.of_nat (length pre)))).
Proof.
  intros Hpre He. revert i.
  induction pre as [|x pre IH]; intros i.
  - cbn [app FoldUnsecure_range length].
    destruct (f aggregate e) as [a' o]. simpl in He. subst o. simpl.
    do 3 f_equal. lia.
  - apply Forall_cons in Hpre as [Hx Hpre].
    cbn [app FoldUnsecure_range].
    destruct (f aggregate x) as [a' o]. simpl in Hx. subst o.
    rewrite (IH Hpre). do 3 f_equal. simpl length. lia.
Qed.

(** X16.  When [f] fails for the first time, at the cell of index
    [length pre], [Fold] returns what [f] made of [initial] and that
    cell, not of an aggregate built from the cells before it, and the
    error wrapped with the index. *)
Theorem Fold_first_error {Aggregate : Type} (q : Queue) (initial : Aggregate)
    (f : Aggregate -> Element -> Aggregate * option error)
    (pre : list Element) (e : Element) (post : list Element) (err : error) :
  lock q = false ->
  elems (queueSlice q) = pre ++ e :: post ->
  Forall (fun x => (f initial x).2 = None) pre ->
  (f initial e).2 = Some err ->
  Fold q initial f
  = Returns ((f initial e).1,
             Some (WrappedAt err "folding element at position %d"
                     (Z.of_nat (length pre))),
             q).
Proof.
  intros Hl He Hpre Herr. unfold Fold. rewrite (locked_free _ _ Hl).
  cbv [mbind outcome_bind mret outcome_ret]. unfold FoldUnsecure.
  replace (queueSlice (set_lock true q)) with (queueSlice q)
    by now destruct q.
  rewrite He, (FoldUnsecure_range_first_error _ _ _ _ _ _ err Hpre Herr).
  cbn [fst snd]. now rewrite (Unlock_set_lock _ Hl).
Qed.

(** ** MapInPlace *)

Lemma SetContent_pointer (h : Heap) (p : pointer) (c : T) :
  SetContent h (Some p) c = Returns (store h p (withContent (h p) c)).
Proof. simpl. now destruct (h p). Qed.

Lemma store_same (h : Heap) (p : pointer) (o : object) :
  store h p o p = o.
Proof. unfold store. now rewrite Nat.eqb_refl. Qed.

Lemma store_other (h : Heap) (p p' : pointer) (o : object) :
  p' <> p -> store h p o p' = h p'.
Proof.
  intros Hne. unfold store.
  destruct (Nat.eqb_spec p' p); [contradiction | reflexivity].
Qed.

(** The loop over a run of distinct elements for which [f] succeeds. *)
Lemma MapInPlaceUnsecure_range_mapped (h : Heap) (f : T -> T * option error)
    (i : Z) (pre : list pointer) (rest : list Element) :
  NoDup pre ->
  Forall (fun p => (f (contentOf (h p))).2 = None) pre ->
  exists h',
    MapInPlaceUnsecure_range h f i (map Some pre ++ rest)
    = MapInPlaceUnsecure_range h' f (i + Z.of_nat (length pre)) rest
    /\ (forall p, p ∈ pre ->
          h' p = withContent (h p) (f (contentOf (h p))).1)
    /\ (forall p, p ∉ pre -> h' p = h p).
Proof.
  revert h i. induction pre as [|a pre IH]; intros h i Hnd Hf.
  - exists h. simpl. rewrite Z.add_0_r.
    split; [reflexivity|]. split; [|reflexivity].
    intros p Hp. now apply elem_of_nil in Hp.
  - apply NoDup_cons in Hnd as [Ha Hnd].
    apply Forall_cons in Hf as [Hfa Hf].
    cbn [map app MapInPlaceUnsecure_range].
    rewrite Content_pointer. cbv [mbind outcome_bind].
    destruct (f (contentOf (h a))) as [c o] eqn:Efa.
    simpl in Hfa. subst o.
    rewrite SetContent_pointer.
    set (h1 := store h a (withContent (h a) c)).
    assert (Hsame : forall p, p <> a -> h1 p = h p)
      by (intros p Hp; now apply store_other).
    destruct (IH h1 (i + 1) Hnd) as (h' & Hrun & Hin & Hout).
    { apply Forall_forall. intros p Hp.
      rewrite Hsame by (intros ->; contradiction).
      rewrite Forall_forall in Hf. now apply Hf. }
    exists h'. split; [|split].
    + rewrite Hrun. f_equal. simpl length. lia.
    + intros p Hp. apply elem_of_cons in Hp as [-> | Hp].
      * rewrite (Hout a Ha). unfold h1. rewrite store_same.
        now rewrite Efa.
      * rewrite (Hin p Hp). rewrite Hsame by (intros ->; contradiction).
        reflexivity.
    + intros p Hp. apply not_elem_of_cons in Hp as [Hne Hp].
      rewrite (Hout p Hp). now apply Hsame.
Qed.

(** X17.  On a queue whose cells hold distinct elements, none of them
    nil, and with a function that succeeds on every content,
    [MapInPlace] gives every element of the queue its mapped content,
    keeps its priority and touches no other object. *)
Theorem MapInPlace_maps_every_content (h : Heap) (q : Queue)
    (f : T -> T * option error) (ps : list pointer) :
  lock q = false ->
  elems (queueSlice q) = map Some ps -> NoDup ps ->
  Forall (fun p => (f (contentOf (h p))).2 = None) ps ->
  exists h',
    MapInPlace h q f = Returns (None, h', q)
    /\ (forall p, p ∈ ps ->
          h' p = withContent (h p) (f (contentOf (h p))).1)
    /\ (forall p, p ∉ ps -> h' p = h p).
Proof.
  intros Hl He Hnd Hf.
  destruct (MapInPlaceUnsecure_range_mapped h f 0 ps [] Hnd Hf)
    as (h' & Hrun & Hin & Hout).
  exists h'. split; [|split; assumption].
  unfold MapInPlace. rewrite (locked_free _ _ Hl).
  unfold MapInPlaceUnsecure.
  replace (queueSlice (set_lock true q)) with (queueSlice q)
    by now destruct q.
  rewrite app_nil_r in Hrun. rewrite He, Hrun.
  cbn [MapInPlaceUnsecure_range]. cbv [mbind outcome_bind mret outcome_ret].
  cbn [fst snd]. now rewrite (Unlock_set_lock _ Hl).
Qed.

(** X18.  When [f] fails for the first time, at the cell of index
    [length pre], [MapInPlace] returns the error wrapped with that
    index; the elements before that cell keep their new contents, the
    others are untouched. *)
Theorem MapInPlace_first_error (h : Heap) (q : Queue)
    (f : T -> T * option error) (pre : list pointer) (p : pointer)
    (post : list Element) (err : error) :
  lock q = false ->
  elems (queueSlice q) = map Some pre ++ Some p :: post ->
  NoDup pre -> p ∉ pre ->
  Forall (fun p' => (f (contentOf (h p'))).2 = None) pre ->
  (f (contentOf (h p))).2 = Some err ->
  exists h',
    MapInPlace h q f
    = Returns (Some (WrappedAt err "mapping element at position %d"
                       (Z.of_nat (length pre))),
               h', q)
    /\ (forall p', p' ∈ pre ->
          h' p' = withContent (h p') (f (contentOf (h p'))).1)
    /\ (forall p', p' ∉ pre -> h' p' = h p').
Proof.
  intros Hl He Hnd Hp Hf Herr.
  destruct (MapInPlaceUnsecure_range_mapped h f 0 pre (Some p :: post)
              Hnd Hf) as (h' & Hrun & Hin & Hout).
  exists h'. split; [|split; assumption].
  unfold MapInPlace. rewrite (locked_free _ _ Hl).
  unfold MapInPlaceUnsecure.
  replace (queueSlice (set_lock true q)) with (queueSlice q)
    by now destruct q.
  rewrite He, Hrun. cbn [MapInPlaceUnsecure_range].
  rewrite Content_pointer. cbv [mbind outcome_bind mret outcome_ret].
  rewrite (Hout p Hp).
  destruct (f (contentOf (h p))) as [c o]. simpl in Herr. subst o.
  cbn [Wrapf fst snd]. now rewrite (Unlock_set_lock _ Hl).
Qed.

(** ** FilterInPlace *)

Lemma handleShrink_not_shrinks (q : Queue) :
  shrinks q = false -> handleShrink q = Returns q.
Proof. unfold handleShrink, shrinks. now intros ->. Qed.

(** Past index 0, [deleteWithoutMemoryManagement] leaves the slice where
    it begins in its array. *)
Lemma deleteWithoutMemoryManagement_before (q : Queue) (i : Z)
    (r : Element * option error * Queue) :
  0 < i -> deleteWithoutMemoryManagement i q = Returns r ->
  before (queueSlice r.2) = before (queueSlice q).
Proof.
  intros Hi H. unfold deleteWithoutMemoryManagement in H.
  destruct (numElements q =? 0); [now injection H as <-|].
  destruct ((i <? 0) || (numElements q <=? i)); [now injection H as <-|].
  destruct (index (queueSlice q) i) as [e| |]; try discriminate.
  cbv [mbind outcome_bind] in H.
  destruct (i =? numElements q).
  - unfold slice_to in H.
    destruct ((i <? 0) || _); try discriminate.
    now injection H as <-.
  - destruct (i =? 0) eqn:E0; zbool; [lia|].
    unfold slice_from in H.
    destruct ((i <? 0) || _); try discriminate.
    destruct ((i + 1 <? 0) || _); try discriminate.
    unfold assign in H.
    destruct ((numElements q - 1 <? 0) || _); try discriminate.
    unfold slice_to in H. cbv [mbind outcome_bind] in H.
    destruct ((numElements q - 1 <? 0) || _); try discriminate.
    now injection H as <-.
Qed.

(** The loop over a run of cells that it keeps. *)
Lemma FilterInPlaceUnsecure_range_kept (h : Heap)
    (f : T -> bool * option error) (off : nat) (arr : list Element)
    (shared : bool) (q : Queue) (pre : list pointer) (j n : nat) :
  (forall k p, pre !! k = Some p ->
               arr !! (off + (j + k))%nat = Some (Some p)) ->
  Forall (fun p => f (contentOf (h p)) = (true, None)) pre ->
  FilterInPlaceUnsecure_range h f off arr shared q (Z.of_nat j)
    (length pre + n)
  = FilterInPlaceUnsecure_range h f off arr shared q
      (Z.of_nat (j + length pre)) n.
Proof.
  revert j. induction pre as [|a pre IH]; intros j Harr Hf.
  - simpl. now rewrite Nat.add_0_r.
  - apply Forall_cons in Hf as [Hfa Hf].
    cbn [length Nat.add FilterInPlaceUnsecure_range].
    rewrite Nat2Z.id.
    specialize (Harr 0%nat a eq_refl) as Ha. rewrite Nat.add_0_r in Ha.
    rewrite Ha. cbv [from_option id]. rewrite Content_pointer.
    cbv [mbind outcome_bind]. rewrite Hfa.
    replace (Z.of_nat j + 1) with (Z.of_nat (S j)) by lia.
    rewrite (IH (S j)); [f_equal; f_equal; lia | | assumption].
    intros k p Hk. specialize (Harr (S k) p Hk).
    now replace (S j + k)%nat with (j + S k)%nat by lia.
Qed.

Lemma lookup_past_elems {A : Type} (b x y : list A) (k : nat) :
  (length x <= k)%nat ->
  (b ++ x ++ y) !! (length b + k)%nat = y !! (k - length x)%nat.
Proof.
  intros Hk. rewrite lookup_app_r by lia. rewrite lookup_app_r by lia.
  f_equal. lia.
Qed.

(** The cells of a slice, read in its array. *)
Lemma array_lookup (s : slice) (k : nat) (e : Element) :
  elems s !! k = Some e -> array s !! (length (before s) + k)%nat = Some e.
Proof.
  intros Hk. unfold array. rewrite lookup_app_r by lia.
  replace (length (before s) + k - length (before s))%nat with k by lia.
  now rewrite lookup_app_l by (eapply lookup_lt_Some; eauto).
Qed.

(** A cell past the first one is rejected while the queue lies in the
    array that the loop reads: the loop goes on to the next index, with
    one nil cell more ahead of it. *)
Lemma FilterInPlaceUnsecure_range_reject (h : Heap)
    (f : T -> bool * option error) (off N m : nat) (arr : list Element)
    (q : Queue) (j n : nat) (e : Element) (c : T) :
  ranging off N m arr true q -> (0 < j < m)%nat ->
  elems (queueSlice q) !! j = Some e ->
  Content h e = Returns c -> f c = (false, None) ->
  exists arr' shared' q',
    FilterInPlaceUnsecure_range h f off arr true q (Z.of_nat j) (S n)
    = FilterInPlaceUnsecure_range h f off arr' shared' q'
        (Z.of_nat j + 1) n
    /\ ranging off N (m - 1) arr' shared' q'
    /\ elems (queueSlice q')
       = take j (elems (queueSlice q)) ++ drop (S j) (elems (queueSlice q))
    /\ numElements q' = numElements q - 1
    /\ order q' = order q /\ lock q' = lock q
    /\ maxnumElements q' = maxnumElements q.
Proof.
  intros [Hnil Hsh] Hj He Hc Hfc.
  destruct (Hsh eq_refl) as (Harr & Hoff & Hlen & Hnum).
  assert (Hfull : full q) by (unfold full, len; lia).
  assert (He' : elems (queueSlice q) !! Z.to_nat (Z.of_nat j) = Some e)
    by now rewrite Nat2Z.id.
  destruct (deleteWithoutMemoryManagement_full q (Z.of_nat j) e Hfull
              ltac:(lia) He') as (s & Hdel & Hs & Hsarr).
  rewrite Nat2Z.id in Hs, Hsarr.
  destruct (Z.of_nat j =? 0) eqn:E0; zbool; [lia|].
  pose proof (deleteWithoutMemoryManagement_before q (Z.of_nat j) _
                ltac:(lia) Hdel) as Hbef.
  cbn [snd] in Hbef.
  replace (queueSlice (set_numElements (numElements q - 1)
                         (set_queueSlice s q))) with s in Hbef
    by reflexivity.
  set (q1 := set_numElements (numElements q - 1) (set_queueSlice s q))
    in *.
  assert (Hq1s : queueSlice q1 = s) by reflexivity.
  assert (Hq1n : numElements q1 = numElements q - 1) by reflexivity.
  assert (Hq1o : order q1 = order q) by reflexivity.
  assert (Hq1l : lock q1 = lock q) by reflexivity.
  assert (Hq1m : maxnumElements q1 = maxnumElements q) by reflexivity.
  clearbody q1.
  assert (Hlens : length (elems s) = (m - 1)%nat).
  { rewrite Hs, length_app, length_take, length_drop. lia. }
  assert (Hnil' : forall k, (m - 1 <= k < N)%nat ->
                            array s !! (off + k)%nat = Some None).
  { intros k Hk. rewrite Hsarr, <- Hoff, <- Hs. unfold Element in *.
    rewrite lookup_past_elems by (rewrite Hlens; lia). rewrite Hlens.
    destruct (decide (k = (m - 1)%nat)) as [->|Hne].
    - now rewrite Nat.sub_diag.
    - replace (k - (m - 1))%nat with (S (k - m)) by lia. simpl.
      specialize (Hnil k ltac:(lia)). rewrite Harr in Hnil.
      unfold array in Hnil. rewrite <- Hoff in Hnil.
      rewrite lookup_past_elems in Hnil by (rewrite Hlen; lia).
      now rewrite Hlen in Hnil. }
  cbn [FilterInPlaceUnsecure_range]. rewrite Nat2Z.id.
  assert (Hcell : arr !! (off + j)%nat = Some e).
  { rewrite Harr, <- Hoff. now apply array_lookup. }
  unfold Element in *.
  rewrite Hcell. cbv [from_option id]. rewrite Hc.
  cbv [mbind outcome_bind]. rewrite Hfc, Hdel.
  cbn [fst snd Wrap andb]. rewrite Hq1s.
  destruct (shrinks q1) eqn:Eshr.
  - destruct (handleShrink_returns q1) as (bef & hid & ->).
    rewrite Hq1s. cbn [negb].
    eexists _, _, _. split; [reflexivity|].
    split; [split; [assumption | discriminate]|].
    destruct q1; simpl in *. now subst.
  - rewrite (handleShrink_not_shrinks _ Eshr). cbn [negb].
    eexists _, _, _. split; [reflexivity|].
    split; [split; [assumption|]|].
    + intros _. unfold Element in *.
      rewrite Hq1s, Hq1n, Hbef, Hoff, Hlens.
      split; [reflexivity|]. split; [reflexivity|].
      split; [reflexivity | lia].
    + rewrite Hq1s, Hq1n, Hq1o, Hq1l, Hq1m. now rewrite Hs.
Qed.

(** With a nil cell ahead of it, the loop never comes to its end. *)
Lemma FilterInPlaceUnsecure_range_nil_ahead (h : Heap)
    (f : T -> bool * option error) (off N : nat) (n : nat) :
  forall (j m : nat) (arr : list Element) (shared : bool) (q : Queue),
    (0 < j)%nat -> (j + S n = N)%nat -> (m < N)%nat ->
    ranging off N m arr shared q ->
    forall q',
      FilterInPlaceUnsecure_range h f off arr shared q (Z.of_nat j) (S n)
      <> Returns (None, q').
Proof.
  induction n as [|n IH]; intros j m arr shared q Hj HN Hm Hr q'.
  - (* the last index: its cell is nil *)
    destruct Hr as [Hnil _].
    cbn [FilterInPlaceUnsecure_range]. rewrite Nat2Z.id.
    rewrite (Hnil j) by lia. discriminate.
  - destruct (decide (m <= j)%nat) as [Hmj|Hmj].
    { destruct Hr as [Hnil _].
      cbn [FilterInPlaceUnsecure_range]. rewrite Nat2Z.id.
      rewrite (Hnil j) by lia. discriminate. }
    remember (S n) as n1 eqn:En1.
    cbn [FilterInPlaceUnsecure_range]. rewrite Nat2Z.id.
    destruct (Content h (default None (arr !! (off + j)%nat)))
      as [c| |] eqn:Ec; try discriminate.
    cbv [mbind outcome_bind].
    destruct (f c) as [keep [err|]] eqn:Efc; [discriminate|].
    replace (Z.of_nat j + 1) with (Z.of_nat (S j)) by lia.
    destruct keep.
    + subst n1. apply (IH (S j) m); try lia. assumption.
    + destruct shared.
      * (* the queue is in the array that the loop reads *)
        destruct Hr as [Hnil Hsh].
        destruct (Hsh eq_refl) as (Harr & Hoff & Hlen & Hnum).
        destruct (lookup_lt_is_Some_2 (elems (queueSlice q)) j)
          as [e He]; [lia|].
        assert (Hcell : arr !! (off + j)%nat = Some e).
        { rewrite Harr, <- Hoff. now apply array_lookup. }
        unfold Element in *.
        rewrite Hcell in Ec. cbv [from_option id] in Ec.
        destruct (FilterInPlaceUnsecure_range_reject h f off N m arr q
                    j n1 e c (conj Hnil Hsh) ltac:(lia) He Ec Efc)
          as (arr' & shared' & q1 & Hstep & Hr' & _).
        cbn [FilterInPlaceUnsecure_range] in Hstep. unfold Element in *.
        rewrite Nat2Z.id, Hcell in Hstep. cbv [from_option id] in Hstep.
        rewrite Ec in Hstep. cbv [mbind outcome_bind] in Hstep.
        rewrite Efc in Hstep.
        replace (Z.of_nat j + 1) with (Z.of_nat (S j)) in Hstep by lia.
        rewrite Hstep. subst n1.
        apply (IH (S j) (m - 1)%nat); try lia. assumption.
      * (* the queue has moved to another array *)
        destruct (deleteWithoutMemoryManagement (Z.of_nat j) q)
          as [r| |]; try discriminate.
        destruct (handleShrink_returns r.2) as (bef & hid & ->).
        cbn [andb].
        destruct (Wrap r.1.2 "removing element"); [discriminate|].
        subst n1. apply (IH (S j) m); try lia.
        destruct Hr as [Hnil _]. split; [assumption | discriminate].
Qed.

(** The cells that the loop reads at its start. *)
Lemma array_lookup_prefix (s : slice) (pre : list pointer)
    (rest : list Element) (k : nat) (p : pointer) :
  elems s = map Some pre ++ rest -> pre !! k = Some p ->
  array s !! (length (before s) + (0 + k))%nat = Some (Some p).
Proof.
  intros He Hk. cbn [Nat.add]. apply array_lookup. rewrite He.
  rewrite lookup_app_l
    by (rewrite length_map; eapply lookup_lt_Some; eauto).
  now rewrite list_lookup_fmap, Hk.
Qed.

(** X19.  With a function that keeps every content, on a queue without
    nil cells, [FilterInPlace] returns no error and leaves the queue as
    it was. *)
Theorem FilterInPlace_keeps_all (h : Heap) (q : Queue)
    (f : T -> bool * option error) (ps : list pointer) :
  lock q = false -> elems (queueSlice q) = map Some ps ->
  Forall (fun p => f (contentOf (h p)) = (true, None)) ps ->
  FilterInPlace h q f = Returns (None, q).
Proof.
  intros Hl He Hf. unfold FilterInPlace. rewrite (locked_free _ _ Hl).
  unfold FilterInPlaceUnsecure.
  replace (queueSlice (set_lock true q)) with (queueSlice q)
    by now destruct q.
  rewrite He, length_map, <- (Nat.add_0_r (length ps)).
  change 0 with (Z.of_nat 0).
  rewrite FilterInPlaceUnsecure_range_kept; [|  | assumption].
  - cbn [FilterInPlaceUnsecure_range].
    cbv [mbind outcome_bind mret outcome_ret]. cbn [fst snd].
    now rewrite (Unlock_set_lock _ Hl).
  - intros k p Hk. apply (array_lookup_prefix _ ps []); [|assumption].
    now rewrite app_nil_r.
Qed.

(** X20.  When [f] fails for the first time, at the cell of index
    [length pre] and after cells that it keeps, [FilterInPlace] returns
    the error wrapped with that index and leaves the queue as it was,
    whatever [f] says of keeping the element. *)
Theorem FilterInPlace_first_error (h : Heap) (q : Queue)
    (f : T -> bool * option error) (pre : list pointer) (p : pointer)
    (post : list Element) (keep : bool) (err : error) :
  lock q = false ->
  elems (queueSlice q) = map Some pre ++ Some p :: post ->
  Forall (fun p' => f (contentOf (h p')) = (true, None)) pre ->
  f (contentOf (h p)) = (keep, Some err) ->
  FilterInPlace h q f
  = Returns (Some (WrappedAt err "filtering element at position %d"
                     (Z.of_nat (length pre))),
             q).
Proof.
  intros Hl He Hf Herr. unfold FilterInPlace. rewrite (locked_free _ _ Hl).
  unfold FilterInPlaceUnsecure.
  replace (queueSlice (set_lock true q)) with (queueSlice q)
    by now destruct q.
  rewrite He, length_app, length_map. cbn [length].
  change 0 with (Z.of_nat 0).
  rewrite FilterInPlaceUnsecure_range_kept; [|  | assumption].
  2:{ intros k p' Hk. now apply (array_lookup_prefix _ pre (Some p :: post)). }
  cbn [FilterInPlaceUnsecure_range Nat.add]. rewrite Nat2Z.id.
  assert (Hcell : array (queueSlice q)
                    !! (length (before (queueSlice q)) + length pre)%nat
                  = Some (Some p)).
  { apply array_lookup. rewrite He.
    rewrite lookup_app_r by (rewrite length_map; lia).
    now rewrite length_map, Nat.sub_diag. }
  unfold Element in *. rewrite Hcell. cbv [from_option id].
  rewrite Content_pointer. cbv [mbind outcome_bind mret outcome_ret].
  rewrite Herr. cbn [Wrapf fst snd].
  now rewrite (Unlock_set_lock _ Hl).
Qed.

(** X21.  A full queue without nil cells in front of the first content
    that [f] rejects, which is neither in the first nor in the last
    cell: [FilterInPlace] never returns without an error.  The removal
    moves the cells behind it and leaves a nil cell in the array, which
    the loop goes on reading to its old length: the call panics, or
    returns an error. *)
Theorem FilterInPlace_inner_rejection_never_succeeds (h : Heap) (q : Queue)
    (f : T -> bool * option error) (pre : list pointer) (p : pointer)
    (post : list Element) :
  lock q = false -> full q ->
  elems (queueSlice q) = map Some pre ++ Some p :: post ->
  pre <> [] -> post <> [] ->
  Forall (fun p' => f (contentOf (h p')) = (true, None)) pre ->
  f (contentOf (h p)) = (false, None) ->
  forall q', FilterInPlace h q f <> Returns (None, q').
Proof.
  intros Hl Hfull He Hpre Hpost Hf Hrej q'.
  unfold FilterInPlace. rewrite (locked_free _ _ Hl).
  unfold FilterInPlaceUnsecure.
  set (q1 := set_lock true q).
  assert (Hs1 : queueSlice q1 = queueSlice q) by now destruct q.
  assert (Hn1 : numElements q1 = numElements q) by now destruct q.
  clearbody q1. rewrite Hs1.
  set (N := length (elems (queueSlice q))).
  assert (HN : N = (length pre + S (length post))%nat).
  { unfold N. rewrite He, length_app, length_map. reflexivity. }
  rewrite HN. change 0 with (Z.of_nat 0).
  rewrite FilterInPlaceUnsecure_range_kept; [|  | assumption].
  2:{ intros k p' Hk. now apply (array_lookup_prefix _ pre (Some p :: post)). }
  cbn [Nat.add].
  assert (Hlk : elems (queueSlice q1) !! length pre = Some (Some p)).
  { rewrite Hs1, He. rewrite lookup_app_r by (rewrite length_map; lia).
    now rewrite length_map, Nat.sub_diag. }
  assert (Hr : ranging (length (before (queueSlice q))) N N
                 (array (queueSlice q)) true q1).
  { split; [intros k Hk; lia|]. intros _. rewrite Hs1.
    split; [reflexivity|]. split; [reflexivity|]. split; [reflexivity|].
    rewrite Hn1. unfold full, len in Hfull. exact Hfull. }
  assert (Hlpre : (0 < length pre)%nat)
    by (destruct pre; [contradiction | simpl; lia]).
  assert (Hlpost : (0 < length post)%nat)
    by (destruct post; [contradiction | simpl; lia]).
  destruct (FilterInPlaceUnsecure_range_reject h f _ N N _ q1
              (length pre) (length post) (Some p) (contentOf (h p))
              Hr ltac:(lia) Hlk (Content_pointer h p) Hrej)
    as (arr' & shared' & q2 & Hstep & Hr' & _).
  rewrite Hstep.
  destruct (length post) as [|n] eqn:En; [lia|].
  replace (Z.of_nat (length pre) + 1) with (Z.of_nat (S (length pre)))
    by lia.
  cbv [mbind outcome_bind mret outcome_ret].
  destruct (FilterInPlaceUnsecure_range h f (length (before (queueSlice q)))
              arr' shared' q2 (Z.of_nat (S (length pre))) (S n))
    as [[o q3]| |] eqn:Erun; try discriminate.
  destruct o as [e|]; [discriminate|]. exfalso.
  eapply (FilterInPlaceUnsecure_range_nil_ahead h f _ N n
            (S (length pre)) (N - 1)%nat arr' shared' q2);
    [lia | lia | lia | exact Hr' | exact Erun].
Qed.

(** X22.  A full queue of at least two cells, none of them nil, and a
    function that keeps every content but that of the last cell:
    [FilterInPlace] returns no error and the last cell has left the
    queue. *)
Theorem FilterInPlace_rejects_last_cell (h : Heap) (q : Queue)
    (f : T -> bool * option error) (pre : list pointer) (p : pointer) :
  lock q = false -> full q ->
  elems (queueSlice q) = map Some pre ++ [Some p] ->
  pre <> [] ->
  Forall (fun p' => f (contentOf (h p')) = (true, None)) pre ->
  f (contentOf (h p)) = (false, None) ->
  exists q',
    FilterInPlace h q f = Returns (None, q')
    /\ elems (queueSlice q') = map Some pre
    /\ numElements q' = numElements q - 1
    /\ order q' = order q /\ lock q' = false
    /\ maxnumElements q' = maxnumElements q.
Proof.
  intros Hl Hfull He Hpre Hf Hrej.
  unfold FilterInPlace. rewrite (locked_free _ _ Hl).
  unfold FilterInPlaceUnsecure.
  set (q1 := set_lock true q).
  assert (Hs1 : queueSlice q1 = queueSlice q) by now destruct q.
  assert (Hn1 : numElements q1 = numElements q) by now destruct q.
  assert (Ho1 : order q1 = order q) by now destruct q.
  assert (Hm1 : maxnumElements q1 = maxnumElements q) by now destruct q.
  clearbody q1. rewrite Hs1.
  set (N := length (elems (queueSlice q))).
  assert (HN : N = (length pre + 1)%nat).
  { unfold N. rewrite He, length_app, length_map. reflexivity. }
  rewrite HN. change 0 with (Z.of_nat 0).
  rewrite FilterInPlaceUnsecure_range_kept; [|  | assumption].
  2:{ intros k p' Hk. now apply (array_lookup_prefix _ pre [Some p]). }
  cbn [Nat.add].
  assert (Hlk : elems (queueSlice q1) !! length pre = Some (Some p)).
  { rewrite Hs1, He. rewrite lookup_app_r by (rewrite length_map; lia).
    now rewrite length_map, Nat.sub_diag. }
  assert (Hr : ranging (length (before (queueSlice q))) N N
                 (array (queueSlice q)) true q1).
  { split; [intros k Hk; lia|]. intros _. rewrite Hs1.
    split; [reflexivity|]. split; [reflexivity|]. split; [reflexivity|].
    rewrite Hn1. unfold full, len in Hfull. exact Hfull. }
  assert (Hlpre : (0 < length pre)%nat)
    by (destruct pre; [contradiction | simpl; lia]).
  destruct (FilterInPlaceUnsecure_range_reject h f _ N N _ q1
              (length pre) 0%nat (Some p) (contentOf (h p))
              Hr ltac:(lia) Hlk (Content_pointer h p) Hrej)
    as (arr' & shared' & q2 & Hstep & _ & Hel & Hnum & Hord & Hlock & Hmax).
  rewrite Hstep. cbn [FilterInPlaceUnsecure_range].
  cbv [mbind outcome_bind mret outcome_ret]. cbn [fst snd].
  eexists. split; [reflexivity|].
  replace (queueSlice (Unlock q2)) with (queueSlice q2) by now destruct q2.
  replace (numElements (Unlock q2)) with (numElements q2)
    by now destruct q2.
  replace (order (Unlock q2)) with (order q2) by now destruct q2.
  replace (maxnumElements (Unlock q2)) with (maxnumElements q2)
    by now destruct q2.
  rewrite Hel, Hnum, Hord, Hmax, Hs1, Hn1, Ho1, Hm1, He.
  split; [|split; [reflexivity|]; split; [reflexivity|];
           split; [reflexivity|reflexivity]].
  rewrite <- (length_map Some pre) at 1.
  rewrite take_app_length.
  rewrite drop_ge by (rewrite length_app, length_map; simpl; lia).
  apply app_nil_r.
Qed.

(** ** UpdatePriority: what it writes, and when it never returns *)

Lemma SetPriority_pointer (h : Heap) (p : pointer) (priority : float) :
  exists h',
    SetPriority h (Some p) priority = Returns h'
    /\ h' p = withPriority (h p) priority
    /\ forall p', p' <> p -> h' p' = h p'.
Proof.
  simpl. destruct (h p) as [c|pr c] eqn:Ep.
  - exists h. rewrite Ep. now repeat split.
  - eexists. split; [reflexivity|]. split.
    + apply store_same.
    + intros p' Hne. now apply store_other.
Qed.

Lemma updateInPlace_heap (h : Heap) (oldPriority newPriority : float)
    (counter : Z) (ps : list pointer) :
  NoDup ps ->
  exists h',
    updateInPlace h oldPriority newPriority counter (map Some ps)
    = Returns (h', counter + countPriority h oldPriority (map Some ps))
    /\ (forall p, p ∈ ps ->
          h' p = if PrimFloat.eqb (priorityOf (h p)) oldPriority
                 then withPriority (h p) newPriority else h p)
    /\ (forall p, p ∉ ps -> h' p = h p).
Proof.
  revert h counter. induction ps as [|a ps IH]; intros h counter Hnd.
  - exists h. simpl. split; [do 2 f_equal; lia|].
    split; [|reflexivity]. intros p Hp. now apply elem_of_nil in Hp.
  - apply NoDup_cons in Hnd as [Ha Hnd].
    cbn [map updateInPlace countPriority]. rewrite Priority_pointer.
    cbv [mbind outcome_bind].
    destruct (PrimFloat.eqb (priorityOf (h a)) oldPriority) eqn:Eeq.
    + destruct (SetPriority_pointer h a newPriority)
        as (h1 & -> & Hsame & Hother).
      destruct (IH h1 (counter + 1) Hnd) as (h' & -> & Hin & Hout).
      exists h'. split; [|split].
      * rewrite (countPriority_ext h h1); [do 2 f_equal; lia|].
        intros p Hp. apply Hother. intros ->.
        apply Ha. apply list_elem_of_In in Hp.
        apply in_map_iff in Hp as (x & [= ->] & Hx).
        now apply list_elem_of_In.
      * intros p Hp. apply elem_of_cons in Hp as [-> | Hp].
        -- now rewrite (Hout a Ha), Eeq.
        -- rewrite (Hin p Hp).
           now rewrite Hother by (intros ->; contradiction).
      * intros p Hp. apply not_elem_of_cons in Hp as [Hne Hp].
        rewrite (Hout p Hp). now apply Hother.
    + destruct (IH h counter Hnd) as (h' & -> & Hin & Hout).
      exists h'. split; [reflexivity|]. split.
      * intros p Hp. apply elem_of_cons in Hp as [-> | Hp].
        -- now rewrite (Hout a Ha), Eeq.
        -- now apply Hin.
      * intros p Hp. apply not_elem_of_cons in Hp as [_ Hp].
        now apply Hout.
Qed.

(** X23.  On a Fifo or Lifo queue whose cells hold distinct elements,
    none of them nil, [UpdatePriority] returns the number of elements
    whose priority equals the old one and leaves the queue as it was.
    Each of these elements has the new priority afterwards if it is a
    [PriorityElement]; a [BaseElement] is counted when the old priority
    is 0, and stays as it is.  No other object is touched. *)
Theorem UpdatePriority_Fifo_Lifo_writes (h : Heap)
    (oldPriority newPriority : float) (performanceFlag : bool) (q : Queue)
    (ps : list pointer) :
  lock q = false -> order q = Fifo \/ order q = Lifo ->
  elems (queueSlice q) = map Some ps -> NoDup ps ->
  exists h',
    UpdatePriority h oldPriority newPriority performanceFlag q
    = Returns (countPriority h oldPriority (map Some ps), h', q)
    /\ (forall p, p ∈ ps ->
          h' p = if PrimFloat.eqb (priorityOf (h p)) oldPriority
                 then withPriority (h p) newPriority else h p)
    /\ (forall p, p ∉ ps -> h' p = h p).
Proof.
  intros Hl Ho He Hnd. unfold UpdatePriority.
  rewrite (locked_free _ _ Hl).
  destruct (updateInPlace_heap h oldPriority newPriority 0 ps Hnd)
    as (h' & Hu & Hin & Hout).
  exists h'. split; [|split; assumption].
  destruct q as [o l s n m]. simpl in *. subst l. rewrite He.
  destruct Ho as [-> | ->]; simpl; rewrite Hu; reflexivity.
Qed.

(** [deleteWithoutMemoryManagement] writes neither the mutex nor the
    order. *)
Lemma deleteWithoutMemoryManagement_keeps (q : Queue) (i : Z)
    (r : Element * option error * Queue) :
  deleteWithoutMemoryManagement i q = Returns r ->
  lock r.2 = lock q /\ order r.2 = order q.
Proof.
  intros H. unfold deleteWithoutMemoryManagement in H.
  destruct (numElements q =? 0); [now injection H as <-|].
  destruct ((i <? 0) || (numElements q <=? i)); [now injection H as <-|].
  destruct (index (queueSlice q) i) as [e| |]; try discriminate.
  cbv [mbind outcome_bind] in H.
  destruct (i =? numElements q).
  - destruct (slice_to _ _); try discriminate. now injection H as <-.
  - destruct (i =? 0).
    + destruct (assign _ _ _) as [s1| |]; try discriminate.
      cbv [mbind outcome_bind] in H.
      destruct (slice_from _ _); try discriminate. now injection H as <-.
    + destruct (slice_from _ i); try discriminate.
      cbv [mbind outcome_bind] in H.
      destruct (slice_from _ (i + 1)); try discriminate.
      cbv [mbind outcome_bind] in H.
      destruct (assign _ _ _) as [s1| |]; try discriminate.
      cbv [mbind outcome_bind] in H.
      destruct (slice_to _ _); try discriminate. now injection H as <-.
Qed.

(** The loop of the case [PriorityHigh, PriorityLow] over a run of cells
    whose elements do not have the old priority. *)
Lemma updateByReinsertion_skips (h : Heap) (oldPriority newPriority : float)
    (performanceFlag : bool) (s0 : slice) (q : Queue)
    (list' : list Element) (pre : list pointer) (j n : nat) :
  (forall k p, pre !! k = Some p ->
               range_cell s0 (queueSlice q) (Z.of_nat (j + k)) = Some p) ->
  Forall (fun p => PrimFloat.eqb (priorityOf (h p)) oldPriority = false)
    pre ->
  updateByReinsertion h oldPriority newPriority performanceFlag s0 q list'
    (Z.of_nat j) (length pre + n)
  = updateByReinsertion h oldPriority newPriority performanceFlag s0 q list'
      (Z.of_nat (j + length pre)) n.
Proof.
  revert j. induction pre as [|a pre IH]; intros j Hcell Hf.
  - simpl. now rewrite Nat.add_0_r.
  - apply Forall_cons in Hf as [Hfa Hf].
    cbn [length Nat.add updateByReinsertion].
    specialize (Hcell 0%nat a eq_refl) as Ha. rewrite Nat.add_0_r in Ha.
    rewrite Ha, Priority_pointer. cbv [mbind outcome_bind]. rewrite Hfa.
    replace (Z.of_nat j + 1) with (Z.of_nat (S j)) by lia.
    rewrite (IH (S j)); [do 2 f_equal; lia | | assumption].
    intros k p Hk. specialize (Hcell (S k) p Hk).
    now replace (S j + k)%nat with (j + S k)%nat by lia.
Qed.

(** With the flag, the first element of the old priority brings the
    loop to [q.Insert], which waits for the mutex. *)
Lemma updateByReinsertion_fast_blocks (h : Heap)
    (oldPriority newPriority : float) (s0 : slice) (q : Queue)
    (list' : list Element) (i : Z) (n : nat) (p : pointer) :
  lock q = true -> range_cell s0 (queueSlice q) i = Some p ->
  PrimFloat.eqb (priorityOf (h p)) oldPriority = true ->
  forall r,
    updateByReinsertion h oldPriority newPriority true s0 q list' i (S n)
    <> Returns r.
Proof.
  intros Hl Hcell Heq r. cbn [updateByReinsertion].
  rewrite Hcell, Priority_pointer. cbv [mbind outcome_bind]. rewrite Heq.
  destruct (deleteWithoutMemoryManagement i q) as [r0| |] eqn:Edel;
    try discriminate.
  destruct (deleteWithoutMemoryManagement_keeps _ _ _ Edel) as [Hl0 _].
  destruct (SetPriority_pointer h p newPriority) as (h1 & -> & _).
  rewrite Insert_while_locked by congruence. discriminate.
Qed.

(** Without the flag, the loop keeps the mutex and the order, and never
    shortens its list. *)
Lemma updateByReinsertion_slow_list (oldPriority newPriority : float)
    (s0 : slice) (n : nat) :
  forall (h0 : Heap) (q : Queue) (list' : list Element) (i : Z)
         (h' : Heap) (q' : Queue) (l' : list Element),
    updateByReinsertion h0 oldPriority newPriority false s0 q list' i n
    = Returns (h', q', l') ->
    lock q' = lock q /\ order q' = order q /\ (list' <> [] -> l' <> []).
Proof.
  induction n as [|n IH]; intros h0 q l i h' q' l' H.
  - injection H as <- <- <-. now repeat split.
  - cbn [updateByReinsertion] in H.
    destruct (Priority h0 _) as [pr| |]; try discriminate.
    cbv [mbind outcome_bind] in H.
    destruct (PrimFloat.eqb pr oldPriority).
    + destruct (deleteWithoutMemoryManagement i q) as [r0| |] eqn:Edel;
        try discriminate.
      destruct (deleteWithoutMemoryManagement_keeps _ _ _ Edel)
        as [Hl0 Ho0].
      destruct (SetPriority h0 _ newPriority) as [h1| |]; try discriminate.
      apply IH in H as (Hl' & Ho' & Hne).
      split; [congruence|]. split; [congruence|].
      intros _. apply Hne. now destruct l.
    + now apply IH in H.
Qed.

(** X24.  A PriorityHigh or PriorityLow queue with an element of the old
    priority behind elements of other priorities, none of them nil:
    [UpdatePriority] never returns, with either value of the flag.  It
    takes the element out and calls [q.Insert] while it holds the mutex
    of [q], at once with the flag, after the loop without it, unless
    the loop has panicked before. *)
Theorem UpdatePriority_priority_queue_never_returns (h : Heap)
    (oldPriority newPriority : float) (performanceFlag : bool) (q : Queue)
    (pre : list pointer) (p : pointer) (post : list Element) :
  lock q = false -> order q = PriorityHigh \/ order q = PriorityLow ->
  elems (queueSlice q) = map Some pre ++ Some p :: post ->
  Forall (fun p' => PrimFloat.eqb (priorityOf (h p')) oldPriority = false)
    pre ->
  PrimFloat.eqb (priorityOf (h p)) oldPriority = true ->
  forall r,
    UpdatePriority h oldPriority newPriority performanceFlag q <> Returns r.
Proof.
  intros Hl Ho He Hpre Hp r. unfold UpdatePriority.
  rewrite (locked_free _ _ Hl).
  set (q1 := set_lock true q).
  assert (Hs1 : queueSlice q1 = queueSlice q) by now destruct q.
  assert (Ho1 : order q1 = order q) by now destruct q.
  assert (Hl1 : lock q1 = true) by now destruct q.
  clearbody q1.
  assert (Hcells : forall k e,
             elems (queueSlice q) !! k = Some e ->
             range_cell (queueSlice q1) (queueSlice q1) (Z.of_nat k) = e).
  { intros k e Hk. unfold range_cell. rewrite Hs1, Nat2Z.id.
    fold (array (queueSlice q)). now rewrite (array_lookup _ _ _ Hk). }
  assert (Hfirst : (order q1 =? Lifo) || (order q1 =? Fifo) = false).
  { rewrite Ho1. now destruct Ho as [-> | ->]. }
  assert (Hsecond :
            (order q1 =? PriorityHigh) || (order q1 =? PriorityLow) = true).
  { rewrite Ho1. now destruct Ho as [-> | ->]. }
  cbv [mbind outcome_bind]. rewrite Hfirst, Hsecond.
  replace (length (elems (queueSlice q1)))
    with (length pre + S (length post))%nat
    by (rewrite Hs1, He, length_app, length_map; reflexivity).
  assert (Hskip := updateByReinsertion_skips h oldPriority newPriority
                     performanceFlag (queueSlice q1) q1 [] pre 0
                     (S (length post))).
  cbn [Nat.add] in Hskip. change (Z.of_nat 0) with 0 in Hskip.
  rewrite Hskip; [| | assumption].
  2:{ intros k p' Hk. apply Hcells. rewrite He.
      rewrite lookup_app_l
        by (rewrite length_map; eapply lookup_lt_Some; eauto).
      now rewrite list_lookup_fmap, Hk. }
  clear Hskip.
  assert (Hcell : range_cell (queueSlice q1) (queueSlice q1)
                    (Z.of_nat (length pre)) = Some p).
  { apply Hcells. rewrite He.
    rewrite lookup_app_r by (rewrite length_map; lia).
    now rewrite length_map, Nat.sub_diag. }
  destruct performanceFlag.
  - destruct (updateByReinsertion _ _ _ true _ _ _ _ _) as [r0| |] eqn:Erun;
      try discriminate.
    exfalso.
    now apply (updateByReinsertion_fast_blocks h oldPriority newPriority
                 (queueSlice q1) q1 [] (Z.of_nat (length pre))
                 (length post) p Hl1 Hcell Hp r0).
  - destruct (updateByReinsertion _ _ _ false _ _ _ _ _)
      as [[[h' q'] l']| |] eqn:Erun; try discriminate.
    cbn [updateByReinsertion] in Erun.
    rewrite Hcell, Priority_pointer in Erun.
    cbv [mbind outcome_bind] in Erun. rewrite Hp in Erun.
    destruct (deleteWithoutMemoryManagement _ q1) as [r0| |] eqn:Edel;
      try discriminate.
    destruct (deleteWithoutMemoryManagement_keeps _ _ _ Edel) as [Hl0 Ho0].
    destruct (SetPriority_pointer h p newPriority) as (h1 & Hset & _).
    rewrite Hset in Erun.
    apply updateByReinsertion_slow_list in Erun as (Hl' & Ho' & Hne).
    cbn [mret outcome_ret].
    replace ((order q' =? PriorityHigh) || (order q' =? PriorityLow))
      with true by (rewrite Ho', Ho0; now symmetry).
    cbn [andb negb].
    destruct (rev l') as [|x l''] eqn:Erev.
    { exfalso. apply Hne; [discriminate|].
      apply (f_equal (@rev _)) in Erev. now rewrite rev_involutive in Erev. }
    cbn [reinsertAll]. rewrite Insert_while_locked by congruence.
    discriminate.
Qed.

(** X25.  On a queue whose order is none of Fifo, Lifo, PriorityHigh and
    PriorityLow, such as a FifoLimited queue, [UpdatePriority] does
    nothing: it returns 0 and writes neither the elements nor the
    queue. *)
Theorem UpdatePriority_other_orders (h : Heap)
    (oldPriority newPriority : float) (performanceFlag : bool) (q : Queue) :
  lock q = false -> order q < Fifo \/ PriorityLow < order q ->
  UpdatePriority h oldPriority newPriority performanceFlag q
  = Returns (0, h, q).
Proof.
  intros Hl Ho. unfold UpdatePriority. rewrite (locked_free _ _ Hl).
  destruct q as [o l s n m]. simpl in *. subst l.
  unfold Fifo, Lifo, PriorityHigh, PriorityLow in *.
  assert (E1 : (o =? 1) = false) by (apply Z.eqb_neq; lia).
  assert (E0 : (o =? 0) = false) by (apply Z.eqb_neq; lia).
  assert (E2 : (o =? 2) = false) by (apply Z.eqb_neq; lia).
  assert (E3 : (o =? 3) = false) by (apply Z.eqb_neq; lia).
  rewrite E1, E0, E2, E3. simpl. rewrite E2, E3. reflexivity.
Qed.

(** ** The constructors of elements *)

(** One element put into a new queue comes back with its content and its
    priority. *)
Lemma Insert_Remove_new_queue (h : Heap) (p : pointer) (tp : Queuetype) :
  Fifo <= tp <= PriorityLow ->
  exists q0 q1 q2,
    NewQueue tp = (Some q0, None)
    /\ Insert h (Some p) q0 = Returns (None, q1)
    /\ Len q1 = 1
    /\ Remove h q1 = Returns (contentOf (h p), priorityOf (h p), None, q2)
    /\ Len q2 = 0.
Proof.
  intros Htp. unfold Fifo, PriorityLow in Htp.
  set (q0 := mkQueue tp false (mkSlice [] [] []) 0 0).
  assert (Hnew : NewQueue tp = (Some q0, None)).
  { unfold NewQueue, numQueuetypes.
    destruct ((tp <? 0) || (5 <? tp)) eqn:E; [|reflexivity].
    zbool. destruct E as [E|E]; zbool; lia. }
  assert (Hins : exists q1,
             Insert h (Some p) q0 = Returns (None, q1)
             /\ lock q1 = false /\ full q1
             /\ elems (queueSlice q1) = [] ++ [Some p]).
  { assert (Hcase : tp = Fifo \/ tp = Lifo \/ tp = PriorityHigh
                    \/ tp = PriorityLow)
      by (unfold Fifo, Lifo, PriorityHigh, PriorityLow; lia).
    destruct Hcase as [-> | [-> | [-> | ->]]].
    - rewrite Insert_Fifo by reflexivity. eexists.
      split; [reflexivity|]. now repeat split.
    - rewrite Insert_Lifo by reflexivity. eexists.
      split; [reflexivity|]. now repeat split.
    - destruct (Insert_PriorityHigh_direct h p q0 [])
        as (q1 & Hi & Hl & _ & Hf & He);
        try reflexivity.
      { intros l t Hlt. now destruct l. }
      exists q1. now repeat split.
    - destruct (Insert_PriorityLow_direct h p q0 [])
        as (q1 & Hi & Hl & _ & Hf & He);
        try reflexivity.
      { intros l t Hlt. now destruct l. }
      exists q1. now repeat split. }
  destruct Hins as (q1 & Hi & Hl & Hf & He).
  destruct (Remove_last h q1 [] p Hl Hf He)
    as (q2 & Hr & _ & _ & Hn & _).
  assert (Hn1 : numElements q1 = 1).
  { unfold full, len in Hf. rewrite Hf, He. reflexivity. }
  exists q0, q1, q2. unfold Len.
  split; [exact Hnew|]. split; [exact Hi|]. split; [exact Hn1|].
  split; [exact Hr | lia].
Qed.

(** X26.  An element made by [NewPriorityElement] and put into a new
    Fifo, Lifo, PriorityHigh or PriorityLow queue: [Len] is 1, [Remove]
    returns the content and the priority that the constructor was
    given, and [Len] is 0 again. *)
Theorem NewPriorityElement_round_trip (h : Heap) (p : pointer) (c : T)
    (priority : float) (tp : Queuetype) :
  Fifo <= tp <= PriorityLow ->
  exists q0 q1 q2,
    NewQueue tp = (Some q0, None)
    /\ Insert (NewPriorityElement h p c priority).1
         (NewPriorityElement h p c priority).2 q0
       = Returns (None, q1)
    /\ Len q1 = 1
    /\ Remove (NewPriorityElement h p c priority).1 q1
       = Returns (c, priority, None, q2)
    /\ Len q2 = 0.
Proof.
  intros Htp. cbn [NewPriorityElement fst snd].
  destruct (Insert_Remove_new_queue
              (store h p (PriorityElement priority c)) p tp Htp)
    as (q0 & q1 & q2 & H).
  rewrite store_same in H. exists q0, q1, q2. exact H.
Qed.

(** X27.  The same with [NewBaseElement]: [Remove] returns the content
    and the priority 0. *)
Theorem NewBaseElement_round_trip (h : Heap) (p : pointer) (c : T)
    (tp : Queuetype) :
  Fifo <= tp <= PriorityLow ->
  exists q0 q1 q2,
    NewQueue tp = (Some q0, None)
    /\ Insert (NewBaseElement h p c).1 (NewBaseElement h p c).2 q0
       = Returns (None, q1)
    /\ Len q1 = 1
    /\ Remove (NewBaseElement h p c).1 q1
       = Returns (c, 0%float, None, q2)
    /\ Len q2 = 0.
Proof.
  intros Htp. cbn [NewBaseElement fst snd].
  destruct (Insert_Remove_new_queue (store h p (BaseElement c)) p tp Htp)
    as (q0 & q1 & q2 & H).
  rewrite store_same in H. exists q0, q1, q2. exact H.
Qed.

End Queue.

(** * sorting: InsertionSort *)

Lemma read_middle (p : list Z) (x : Z) (tl : list Z) :
  read (p ++ x :: tl) (Z.of_nat (length p)) = Returns x.
Proof.
  unfold read. rewrite length_app. cbn [length].
  destruct ((Z.of_nat (length p) <? 0)
            || (Z.of_nat (length p + S (length tl)) <=? Z.of_nat (length p)))
    eqn:E.
  - apply orb_true_iff in E as [E|E]; [apply Z.ltb_lt in E | apply Z.leb_le in E];
      lia.
  - rewrite Nat2Z.id, list_lookup_middle; reflexivity.
Qed.

Lemma write_middle (p : list Z) (x v : Z) (tl : list Z) :
  write (p ++ x :: tl) (Z.of_nat (length p)) v = Returns (p ++ v :: tl).
Proof.
  unfold write. rewrite length_app. cbn [length].
  destruct ((Z.of_nat (length p) <? 0)
            || (Z.of_nat (length p + S (length tl)) <=? Z.of_nat (length p)))
    eqn:E.
  - apply orb_true_iff in E as [E|E]; [apply Z.ltb_lt in E | apply Z.leb_le in E];
      lia.
  - rewrite Nat2Z.id. f_equal.
    replace (length p) with (length p + 0)%nat at 1 by lia.
    now rewrite insert_app_r.
Qed.

Lemma place_snoc_lt (x y : Z) (p : list Z) :
  x < y -> place x (p ++ [y]) = place x p ++ [y].
Proof.
  intros Hxy. induction p as [|z p IH]; simpl.
  - apply Z.ltb_lt in Hxy. now rewrite Hxy.
  - destruct (x <? z); [reflexivity|]. now rewrite IH.
Qed.

Lemma place_all_le (x : Z) (l : list Z) :
  Forall (fun z => z <= x) l -> place x l = l ++ [x].
Proof.
  induction 1 as [|z l Hz _ IH]; simpl; [reflexivity|].
  destruct (x <? z) eqn:E; [apply Z.ltb_lt in E; lia|]. now rewrite IH.
Qed.

Lemma place_Permutation (x : Z) (l : list Z) : x :: l ≡ₚ place x l.
Proof.
  induction l as [|y l IH]; simpl; [reflexivity|].
  destruct (x <? y); [reflexivity|].
  rewrite <- IH. apply perm_swap.
Qed.

Lemma place_StronglySorted (x : Z) (l : list Z) :
  StronglySorted Z.le l -> StronglySorted Z.le (place x l).
Proof.
  induction 1 as [|y l Hs IH Hy]; simpl.
  - repeat constructor.
  - destruct (x <? y) eqn:E.
    + apply Z.ltb_lt in E. constructor; [now constructor|].
      constructor; [lia|].
      eapply Forall_impl; [exact Hy|]. simpl. intros z Hz. lia.
    + apply Z.ltb_ge in E. constructor; [exact IH|].
      rewrite <- place_Permutation. now constructor.
Qed.

Lemma StronglySorted_snoc_le (p : list Z) (y : Z) :
  StronglySorted Z.le (p ++ [y]) -> Forall (fun z => z <= y) p.
Proof.
  induction p as [|z p IH]; simpl; intros H; [constructor|].
  apply StronglySorted_inv in H as [Hs Hz].
  constructor; [|now apply IH].
  rewrite Forall_app in Hz. destruct Hz as [_ Hz].
  now apply Forall_inv in Hz.
Qed.

Lemma StronglySorted_snoc_inv (p : list Z) (y : Z) :
  StronglySorted Z.le (p ++ [y]) -> StronglySorted Z.le p.
Proof.
  induction p as [|z p IH]; simpl; intros H; [constructor|].
  apply StronglySorted_inv in H as [Hs Hz].
  constructor; [now apply IH|].
  rewrite Forall_app in Hz. now destruct Hz.
Qed.

(** The inner loop puts the cell behind a sorted run into the run. *)
Lemma sink_place (p : list Z) :
  forall (x : Z) (tl : list Z),
    StronglySorted Z.le p ->
    sink (p ++ x :: tl) (length p) = Returns (place x p ++ tl).
Proof.
  induction p as [|y p IH] using rev_ind; intros x tl Hs; [reflexivity|].
  rewrite length_app. cbn [length]. rewrite Nat.add_1_r.
  cbn [sink].
  assert (Hx : read ((p ++ [y]) ++ x :: tl) (Z.of_nat (length p) + 1)
               = Returns x).
  { replace (Z.of_nat (length p) + 1) with (Z.of_nat (length (p ++ [y])))
      by (rewrite length_app; simpl; lia).
    apply read_middle. }
  assert (Hy : read ((p ++ [y]) ++ x :: tl) (Z.of_nat (length p))
               = Returns y).
  { rewrite <- app_assoc. apply read_middle. }
  rewrite Hx, Hy. cbv [mbind outcome_bind].
  destruct (x <? y) eqn:E.
  - apply Z.ltb_lt in E.
    rewrite <- app_assoc. cbn [app]. rewrite write_middle.
    replace (Z.of_nat (length p) + 1) with (Z.of_nat (length (p ++ [x])))
      by (rewrite length_app; simpl; lia).
    replace (p ++ x :: x :: tl) with ((p ++ [x]) ++ x :: tl)
      by now rewrite <- app_assoc.
    rewrite write_middle. rewrite <- app_assoc. cbn [app].
    rewrite IH by (eapply StronglySorted_snoc_inv; eauto).
    rewrite place_snoc_lt by assumption.
    now rewrite <- app_assoc.
  - apply Z.ltb_ge in E. cbn [mret outcome_ret]. f_equal.
    rewrite place_all_le; [now rewrite <- !app_assoc|].
    apply Forall_app. split; [|repeat constructor; lia].
    eapply Forall_impl; [apply StronglySorted_snoc_le; eauto|].
    simpl. intros z Hz. lia.
Qed.

(** The outer loop, with a sorted run of at least one cell behind it. *)
Lemma passes_sorts (tl : list Z) :
  forall p : list Z,
    p <> [] -> StronglySorted Z.le p ->
    exists a',
      passes (p ++ tl) (Z.of_nat (length p)) (length tl) = Returns a'
      /\ StronglySorted Z.le a' /\ p ++ tl ≡ₚ a'.
Proof.
  induction tl as [|x tl IH]; intros p Hne Hs.
  - exists p. rewrite app_nil_r. now repeat split.
  - cbn [length passes]. rewrite read_middle.
    destruct p as [|y p _] using rev_ind; [contradiction|].
    assert (Hy : read ((p ++ [y]) ++ x :: tl)
                   (Z.of_nat (length (p ++ [y])) - 1) = Returns y).
    { replace (Z.of_nat (length (p ++ [y])) - 1) with (Z.of_nat (length p))
        by (rewrite length_app; simpl; lia).
      rewrite <- app_assoc. apply read_middle. }
    rewrite Hy. cbv [mbind outcome_bind].
    assert (Hstep :
      (if x >=? y then mret ((p ++ [y]) ++ x :: tl)
       else sink ((p ++ [y]) ++ x :: tl)
              (Z.to_nat (Z.of_nat (length (p ++ [y])) - 1 + 1)))
      = Returns (place x (p ++ [y]) ++ tl)).
    { destruct (x >=? y) eqn:E.
      - apply Z.geb_le in E. cbn [mret outcome_ret]. f_equal.
        rewrite place_all_le; [now rewrite <- !app_assoc|].
        apply Forall_app. split; [|repeat constructor; lia].
        eapply Forall_impl; [apply StronglySorted_snoc_le; eauto|].
        simpl. intros z Hz. lia.
      - replace (Z.to_nat (Z.of_nat (length (p ++ [y])) - 1 + 1))
          with (length (p ++ [y])) by lia.
        now apply sink_place. }
    rewrite Hstep.
    destruct (IH (place x (p ++ [y]))) as (a' & Hrun & Hsorted & Hperm).
    { intros Hnil. apply (f_equal (@length Z)) in Hnil.
      rewrite <- place_Permutation in Hnil. discriminate. }
    { now apply place_StronglySorted. }
    exists a'. split; [|split; [assumption|]].
    + rewrite <- Hrun. f_equal.
      rewrite <- (place_Permutation x (p ++ [y])). simpl length. lia.
    + rewrite <- Hperm, <- place_Permutation.
      symmetry. apply Permutation_middle.
Qed.

(** X28.  [InsertionSort] returns on every slice, and leaves in it the
    numbers it held, in ascending order. *)
Theorem InsertionSort_sorts (a : list Z) :
  exists a',
    InsertionSort a = Returns a'
    /\ StronglySorted Z.le a' /\ a ≡ₚ a'.
Proof.
  unfold InsertionSort.
  destruct (Z.of_nat (length a) <=? 1) eqn:E.
  - apply Z.leb_le in E. exists a. split; [reflexivity|].
    split; [|reflexivity].
    destruct a as [|x [|y a]]; simpl in E; try lia; repeat constructor.
  - apply Z.leb_gt in E.
    destruct a as [|x tl]; [simpl in E; lia|].
    replace (Z.to_nat (Z.of_nat (length (x :: tl)) - 1)) with (length tl)
      by (simpl length; lia).
    apply (passes_sorts tl [x]); [discriminate | repeat constructor].
Qed.

(** * The properties with hypotheses, at concrete queues *)

Lemma empty_check_precedes_bounds_check_witness :
  let h : @Heap nat := fun p => BaseElement p in
  let q := mkQueue Lifo false (mkSlice [] [] []) 0 0 in
  numElements q = 0 /\ lock q = false
  /\ PeekElemAtIndex 0%nat h 7 q
     = Returns (0%float, 0%nat, Some ErrEmptyQueue, q)
  /\ deleteWithoutMemoryManagement 3 q
     = Returns (None, Some ErrEmptyQueue, q)
  /\ exists q',
       remove 3 q
       = Returns (None, Some (Wrapped ErrEmptyQueue "removing element"), q')
       /\ elems (queueSlice q') = elems (queueSlice q)
       /\ numElements q' = 0.
Proof.
  intros h q. split; [reflexivity|]. split; [reflexivity|].
  apply (empty_check_precedes_bounds_check 0%nat h 7 3 q);
    reflexivity.
Defined.

Lemma numElements_counts_removable_witness :
  let h : @Heap nat :=
    fun p => PriorityElement (if Nat.eqb p 0 then 1 else 5) p in
  let grow (c n : Z) := Z.max n (2 * c) in
  let q0 := mkQueue PriorityHigh false (mkSlice [] [] []) 0 0 in
  let q := mkQueue PriorityHigh false (mkSlice [] [Some 0%nat] [None]) 1 0 in
  NewQueue PriorityHigh = (Some q0, None)
  /\ run 0%nat grow h [DoInsert 0%nat; DoInsert 1%nat; DoRemove]
       (SetLimit 0 q0).2
     = Returns q
  /\ (Z.to_nat (numElements q) < 2)%nat
  /\ exists removed,
       drain 0%nat h 2 q = Returns (Some removed)
       /\ Z.of_nat (length removed) = numElements q.
Proof.
  intros h grow q0 q.
  split; [reflexivity|]. split; [reflexivity|]. split; [simpl; lia|].
  apply (numElements_counts_removable 0%nat grow h PriorityHigh 0
           [DoInsert 0%nat; DoInsert 1%nat; DoRemove] q0 q 2);
    [reflexivity | reflexivity | simpl; lia].
Defined.

Lemma PeekElem_shows_next_Remove_witness :
  let h : @Heap nat := fun p => PriorityElement 1 p in
  let q := mkQueue Lifo false (mkSlice [] [Some 0%nat; Some 1%nat] []) 2 0 in
  consistent q /\ 0 < numElements q
  /\ exists p q',
       elems (queueSlice q) !! Z.to_nat (numElements q - 1) = Some (Some p)
       /\ PeekElem 0%nat h q
          = Returns (priorityOf (h p), contentOf (h p), None, q)
       /\ Remove 0%nat h q
          = Returns (contentOf (h p), priorityOf (h p), None, q')
       /\ numElements q' = numElements q - 1.
Proof.
  intros h q.
  assert (H1 : consistent q).
  { split; [reflexivity|]. split; [unfold len; simpl; lia|].
    repeat constructor; eexists; reflexivity. }
  assert (H2 : 0 < numElements q) by (simpl; lia).
  exact (conj H1 (conj H2 (PeekElem_shows_next_Remove 0%nat h q H1 H2))).
Defined.

Lemma PeekElemAtIndex_offset_witness :
  let h : @Heap nat := fun p => PriorityElement 1 p in
  let q := mkQueue Lifo false (mkSlice [] [Some 0%nat; Some 1%nat] []) 2 0 in
  lock q = false /\ 0 < numElements q < 2 ^ 63 /\ 0 <= 1 < 2 ^ 63
  /\ elems (queueSlice q) !! Z.to_nat (numElements q - 1 - 1)
     = Some (Some 0%nat)
  /\ PeekElemAtIndex 0%nat h 1 q
     = if 1 <? numElements q
       then Returns (priorityOf (h 0%nat), contentOf (h 0%nat), None, q)
       else Returns (0%float, 0%nat, Some ErrIndexOutOfBounds, q).
Proof.
  intros h q.
  assert (H1 : lock q = false) by reflexivity.
  assert (H2 : 0 < numElements q < 2 ^ 63) by (simpl; lia).
  assert (H3 : 0 <= 1 < 2 ^ 63) by lia.
  assert (H4 : elems (queueSlice q) !! Z.to_nat (numElements q - 1 - 1)
               = Some (Some 0%nat)) by reflexivity.
  exact (conj H1 (conj H2 (conj H3 (conj H4
           (PeekElemAtIndex_offset 0%nat h 1 q 0%nat H1 H2 H3 H4))))).
Defined.

Lemma empty_queue_reports_ErrEmptyQueue_witness :
  let h : @Heap nat := fun p => BaseElement p in
  let q := mkQueue Fifo false (mkSlice [] [] []) 0 0 in
  numElements q = 0 /\ lock q = false
  /\ PeekElem 0%nat h q = Returns (0%float, 0%nat, Some ErrEmptyQueue, q)
  /\ (exists q',
        Remove 0%nat h q
        = Returns (0%nat, 0%float,
                   Some (Wrapped ErrEmptyQueue "removing element"), q')
        /\ elems (queueSlice q') = elems (queueSlice q)
        /\ numElements q' = 0)
  /\ (exists q',
        RemoveElement q
        = Returns (None, Some (Wrapped ErrEmptyQueue "removing element"), q')
        /\ elems (queueSlice q') = elems (queueSlice q)
        /\ numElements q' = 0).
Proof.
  intros h q.
  assert (H1 : numElements q = 0) by reflexivity.
  assert (H2 : lock q = false) by reflexivity.
  exact (conj H1 (conj H2 (empty_queue_reports_ErrEmptyQueue 0%nat h q H1 H2))).
Defined.

Lemma Append_then_RemoveElement_witness :
  let grow (c n : Z) := Z.max n (2 * c) in
  let q := mkQueue Fifo false (mkSlice [] [Some 0%nat; Some 1%nat] []) 2 0 in
  let e : Element := Some 7%nat in
  lock q = false /\ full q
  /\ exists q1 q2,
       Append grow e q = Returns q1
       /\ elems (queueSlice q1) = elems (queueSlice q) ++ [e]
       /\ numElements q1 = numElements q + 1
       /\ RemoveElement q1 = Returns (e, None, q2)
       /\ elems (queueSlice q2) = elems (queueSlice q)
       /\ numElements q2 = numElements q.
Proof.
  intros grow q e.
  assert (H1 : lock q = false) by reflexivity.
  assert (H2 : full q) by reflexivity.
  exact (conj H1 (conj H2 (Append_then_RemoveElement grow e q H1 H2))).
Defined.

Lemma Clone_copies_counted_cells_witness :
  let q := mkQueue Fifo false (mkSlice [] [Some 0%nat; Some 1%nat] []) 1 0 in
  lock q = false /\ 0 <= numElements q
  /\ exists c,
       Clone q = Returns (c, q)
       /\ order c = order q /\ lock c = false
       /\ numElements c = numElements q
       /\ maxnumElements c = maxnumElements q
       /\ elems (queueSlice c)
          = take (Z.to_nat (numElements q)) (elems (queueSlice q))
            ++ replicate (Z.to_nat (numElements q)
                          - length (elems (queueSlice q))) None.
Proof.
  intros q.
  assert (H1 : lock q = false) by reflexivity.
  assert (H2 : 0 <= numElements q) by (simpl; lia).
  exact (conj H1 (conj H2 (Clone_copies_counted_cells q H1 H2))).
Defined.

Lemma GetAllElements_zero_values_then_contents_witness :
  let h : @Heap nat := fun p => BaseElement (p + 10)%nat in
  let q := mkQueue Lifo false (mkSlice [] [Some 0%nat; Some 1%nat] []) 2 0 in
  0 <= numElements q
  /\ elems (queueSlice q) = map Some [0%nat; 1%nat]
  /\ GetAllElements 0%nat h q
     = Returns (replicate (Z.to_nat (numElements q)) 0%nat
                ++ map (fun p => contentOf (h p)) [0%nat; 1%nat]).
Proof.
  intros h q.
  assert (H1 : 0 <= numElements q) by (simpl; lia).
  assert (H2 : elems (queueSlice q) = map Some [0%nat; 1%nat])
    by reflexivity.
  exact (conj H1 (conj H2
           (GetAllElements_zero_values_then_contents 0%nat h q _ H1 H2))).
Defined.

Lemma PriorityHigh_rising_insertions_witness :
  let h : @Heap nat :=
    fun p => PriorityElement (if Nat.eqb p 0 then 1 else 5) p in
  let grow (c n : Z) := Z.max n (2 * c) in
  let q0 := mkQueue PriorityHigh false (mkSlice [] [] []) 0 0 in
  let ps := [0%nat; 1%nat] in
  NewQueue PriorityHigh = (Some q0, None) /\ rising h ps = true
  /\ exists q,
       insertAll grow h q0 (map Some ps) = Returns q
       /\ elems (queueSlice q) = map Some ps
       /\ numElements q = Z.of_nat (length ps)
       /\ drain 0%nat h (S (length ps)) q
          = Returns (Some (map (removed h) (rev ps))).
Proof.
  intros h grow q0 ps.
  assert (H1 : NewQueue PriorityHigh = (Some q0, None)) by reflexivity.
  assert (H2 : rising h ps = true) by reflexivity.
  exact (conj H1 (conj H2
           (PriorityHigh_rising_insertions 0%nat grow h ps q0 H1 H2))).
Defined.

Lemma PriorityLow_falling_insertions_witness :
  let h : @Heap nat :=
    fun p => PriorityElement (if Nat.eqb p 0 then 5 else 1) p in
  let grow (c n : Z) := Z.max n (2 * c) in
  let q0 := mkQueue PriorityLow false (mkSlice [] [] []) 0 0 in
  let ps := [0%nat; 1%nat] in
  NewQueue PriorityLow = (Some q0, None) /\ falling h ps = true
  /\ exists q,
       insertAll grow h q0 (map Some ps) = Returns q
       /\ elems (queueSlice q) = map Some ps
       /\ numElements q = Z.of_nat (length ps)
       /\ drain 0%nat h (S (length ps)) q
          = Returns (Some (map (removed h) (rev ps))).
Proof.
  intros h grow q0 ps.
  assert (H1 : NewQueue PriorityLow = (Some q0, None)) by reflexivity.
  assert (H2 : falling h ps = true) by reflexivity.
  exact (conj H1 (conj H2
           (PriorityLow_falling_insertions 0%nat grow h ps q0 H1 H2))).
Defined.

Lemma PriorityHigh_not_above_head_panics_witness :
  let h : @Heap nat :=
    fun p => PriorityElement (if Nat.eqb p 2 then 1 else 5) p in
  let grow (c n : Z) := Z.max n (2 * c) in
  let q :=
    mkQueue PriorityHigh false (mkSlice [] [Some 0%nat; Some 1%nat] []) 2 0 in
  lock q = false /\ order q = PriorityHigh /\ 0 < numElements q
  /\ elems (queueSlice q) = Some 0%nat :: [Some 1%nat]
  /\ elems (queueSlice q) !! Z.to_nat (numElements q - 1) = Some (Some 1%nat)
  /\ PrimFloat.ltb (priorityOf (h 1%nat)) (priorityOf (h 2%nat)) = false
  /\ PrimFloat.eqb (priorityOf (h 1%nat)) (priorityOf (h 2%nat)) = false
  /\ PrimFloat.ltb (priorityOf (h 0%nat)) (priorityOf (h 2%nat)) = false
  /\ Insert grow h (Some 2%nat) q = Panics SliceBoundsOutOfRange.
Proof.
  intros h grow q.
  assert (H1 : lock q = false) by reflexivity.
  assert (H2 : order q = PriorityHigh) by reflexivity.
  assert (H3 : 0 < numElements q) by (simpl; lia).
  assert (H4 : elems (queueSlice q) = Some 0%nat :: [Some 1%nat])
    by reflexivity.
  assert (H5 : elems (queueSlice q) !! Z.to_nat (numElements q - 1)
               = Some (Some 1%nat)) by reflexivity.
  assert (H6 : PrimFloat.ltb (priorityOf (h 1%nat)) (priorityOf (h 2%nat))
               = false) by reflexivity.
  assert (H7 : PrimFloat.eqb (priorityOf (h 1%nat)) (priorityOf (h 2%nat))
               = false) by reflexivity.
  assert (H8 : PrimFloat.ltb (priorityOf (h 0%nat)) (priorityOf (h 2%nat))
               = false) by reflexivity.
  exact (conj H1 (conj H2 (conj H3 (conj H4 (conj H5 (conj H6 (conj H7
           (conj H8
              (PriorityHigh_not_above_head_panics grow h 2%nat 0%nat 1%nat
                 _ q H1 H2 H3 H4 H5 H6 H7 H8))))))))).
Defined.

Lemma PriorityLow_not_below_head_panics_witness :
  let h : @Heap nat :=
    fun p => PriorityElement (if Nat.eqb p 2 then 5 else 1) p in
  let grow (c n : Z) := Z.max n (2 * c) in
  let q :=
    mkQueue PriorityLow false (mkSlice [] [Some 0%nat; Some 1%nat] []) 2 0 in
  lock q = false /\ order q = PriorityLow /\ 0 < numElements q
  /\ elems (queueSlice q) = Some 0%nat :: [Some 1%nat]
  /\ elems (queueSlice q) !! Z.to_nat (numElements q - 1) = Some (Some 1%nat)
  /\ PrimFloat.ltb (priorityOf (h 2%nat)) (priorityOf (h 1%nat)) = false
  /\ PrimFloat.eqb (priorityOf (h 1%nat)) (priorityOf (h 2%nat)) = false
  /\ PrimFloat.ltb (priorityOf (h 2%nat)) (priorityOf (h 0%nat)) = false
  /\ Insert grow h (Some 2%nat) q = Panics SliceBoundsOutOfRange.
Proof.
  intros h grow q.
  assert (H1 : lock q = false) by reflexivity.
  assert (H2 : order q = PriorityLow) by reflexivity.
  assert (H3 : 0 < numElements q) by (simpl; lia).
  assert (H4 : elems (queueSlice q) = Some 0%nat :: [Some 1%nat])
    by reflexivity.
  assert (H5 : elems (queueSlice q) !! Z.to_nat (numElements q - 1)
               = Some (Some 1%nat)) by reflexivity.
  assert (H6 : PrimFloat.ltb (priorityOf (h 2%nat)) (priorityOf (h 1%nat))
               = false) by reflexivity.
  assert (H7 : PrimFloat.eqb (priorityOf (h 1%nat)) (priorityOf (h 2%nat))
               = false) by reflexivity.
  assert (H8 : PrimFloat.ltb (priorityOf (h 2%nat)) (priorityOf (h 0%nat))
               = false) by reflexivity.
  exact (conj H1 (conj H2 (conj H3 (conj H4 (conj H5 (conj H6 (conj H7
           (conj H8
              (PriorityLow_not_below_head_panics grow h 2%nat 0%nat 1%nat
                 _ q H1 H2 H3 H4 H5 H6 H7 H8))))))))).
Defined.

Lemma PriorityHigh_equal_priority_panics_witness :
  let h : @Heap nat := fun p => PriorityElement 5 p in
  let grow (c n : Z) := Z.max n (2 * c) in
  let q :=
    mkQueue PriorityHigh false (mkSlice [] [Some 0%nat; Some 1%nat] []) 2 0 in
  let ps := [0%nat; 1%nat] in
  lock q = false /\ order q = PriorityHigh /\ full q
  /\ elems (queueSlice q) = map Some ps /\ ps <> []
  /\ (forall x, x ∈ ps -> priorityOf (h x) = priorityOf (h 2%nat))
  /\ PrimFloat.eqb (priorityOf (h 2%nat)) (priorityOf (h 2%nat)) = true
  /\ PrimFloat.ltb (priorityOf (h 2%nat)) (priorityOf (h 2%nat)) = false
  /\ Insert grow h (Some 2%nat) q = Panics SliceBoundsOutOfRange.
Proof.
  intros h grow q ps.
  assert (H1 : lock q = false) by reflexivity.
  assert (H2 : order q = PriorityHigh) by reflexivity.
  assert (H3 : full q) by reflexivity.
  assert (H4 : elems (queueSlice q) = map Some ps) by reflexivity.
  assert (H5 : ps <> []) by discriminate.
  assert (H6 : forall x, x ∈ ps -> priorityOf (h x) = priorityOf (h 2%nat))
    by reflexivity.
  assert (H7 : PrimFloat.eqb (priorityOf (h 2%nat)) (priorityOf (h 2%nat))
               = true) by reflexivity.
  assert (H8 : PrimFloat.ltb (priorityOf (h 2%nat)) (priorityOf (h 2%nat))
               = false) by reflexivity.
  exact (conj H1 (conj H2 (conj H3 (conj H4 (conj H5 (conj H6 (conj H7
           (conj H8
              (PriorityHigh_equal_priority_panics grow h 2%nat ps q
                 H1 H2 H3 H4 H5 H6 H7 H8))))))))).
Defined.

Lemma Fold_first_error_witness :
  let q :=
    mkQueue Lifo false
      (mkSlice [] [Some 0%nat; Some 1%nat; Some 2%nat] []) 3 0 in
  let f (a : nat) (e : Element) : nat * option error :=
    match e with
    | Some 1%nat => (S a, Some (Failure "stop"))
    | _ => (S a, None)
    end in
  lock q = false
  /\ elems (queueSlice q) = [Some 0%nat] ++ Some 1%nat :: [Some 2%nat]
  /\ Forall (fun x => (f 10%nat x).2 = None) [Some 0%nat]
  /\ (f 10%nat (Some 1%nat)).2 = Some (Failure "stop")
  /\ Fold q 10%nat f
     = Returns ((f 10%nat (Some 1%nat)).1,
                Some (WrappedAt (Failure "stop")
                        "folding element at position %d"
                        (Z.of_nat (length [Some 0%nat]))),
                q).
Proof.
  intros q f.
  assert (H1 : lock q = false) by reflexivity.
  assert (H2 : elems (queueSlice q)
               = [Some 0%nat] ++ Some 1%nat :: [Some 2%nat]) by reflexivity.
  assert (H3 : Forall (fun x => (f 10%nat x).2 = None) [Some 0%nat])
    by (repeat constructor).
  assert (H4 : (f 10%nat (Some 1%nat)).2 = Some (Failure "stop"))
    by reflexivity.
  exact (conj H1 (conj H2 (conj H3 (conj H4
           (Fold_first_error q 10%nat f _ _ _ _ H1 H2 H3 H4))))).
Defined.

Lemma Fold_no_error_witness :
  let q :=
    mkQueue Lifo false (mkSlice [] [Some 0%nat; Some 1%nat] []) 2 0 in
  let f (a : nat) (e : Element) : nat * option error := (S a, None) in
  lock q = false /\ (forall a e, (f a e).2 = None)
  /\ Fold q 10%nat f = Returns (10%nat, None, q).
Proof.
  intros q f.
  assert (H1 : lock q = false) by reflexivity.
  assert (H2 : forall a e, (f a e).2 = None) by reflexivity.
  exact (conj H1 (conj H2 (Fold_no_error q 10%nat f H1 H2))).
Defined.

Lemma MapInPlace_maps_every_content_witness :
  let h : @Heap nat := fun p => BaseElement p in
  let q :=
    mkQueue Lifo false (mkSlice [] [Some 0%nat; Some 1%nat] []) 2 0 in
  let f (c : nat) : nat * option error := ((c + 10)%nat, None) in
  let ps := [0%nat; 1%nat] in
  lock q = false /\ elems (queueSlice q) = map Some ps /\ NoDup ps
  /\ Forall (fun p => (f (contentOf (h p))).2 = None) ps
  /\ exists h',
       MapInPlace h q f = Returns (None, h', q)
       /\ (forall p, p ∈ ps ->
             h' p = withContent (h p) (f (contentOf (h p))).1)
       /\ (forall p, p ∉ ps -> h' p = h p).
Proof.
  intros h q f ps.
  assert (H1 : lock q = false) by reflexivity.
  assert (H2 : elems (queueSlice q) = map Some ps) by reflexivity.
  assert (H3 : NoDup ps) by (apply (bool_decide_unpack _); vm_compute; exact I).
  assert (H4 : Forall (fun p => (f (contentOf (h p))).2 = None) ps)
    by (repeat constructor).
  exact (conj H1 (conj H2 (conj H3 (conj H4
           (MapInPlace_maps_every_content h q f ps H1 H2 H3 H4))))).
Defined.

Lemma MapInPlace_first_error_witness :
  let h : @Heap nat := fun p => BaseElement p in
  let q :=
    mkQueue Lifo false
      (mkSlice [] [Some 0%nat; Some 1%nat; Some 2%nat] []) 3 0 in
  let f (c : nat) : nat * option error :=
    if Nat.eqb c 1 then (c, Some (Failure "stop")) else ((c + 10)%nat, None) in
  let pre := [0%nat] in
  lock q = false
  /\ elems (queueSlice q) = map Some pre ++ Some 1%nat :: [Some 2%nat]
  /\ NoDup pre /\ (1%nat ∉ pre)
  /\ Forall (fun p' => (f (contentOf (h p'))).2 = None) pre
  /\ (f (contentOf (h 1%nat))).2 = Some (Failure "stop")
  /\ exists h',
       MapInPlace h q f
       = Returns (Some (WrappedAt (Failure "stop")
                          "mapping element at position %d"
                          (Z.of_nat (length pre))),
                  h', q)
       /\ (forall p', p' ∈ pre ->
             h' p' = withContent (h p') (f (contentOf (h p'))).1)
       /\ (forall p', p' ∉ pre -> h' p' = h p').
Proof.
  intros h q f pre.
  assert (H1 : lock q = false) by reflexivity.
  assert (H2 : elems (queueSlice q)
               = map Some pre ++ Some 1%nat :: [Some 2%nat]) by reflexivity.
  assert (H3 : NoDup pre) by (apply (bool_decide_unpack _); vm_compute; exact I).
  assert (H4 : 1%nat ∉ pre) by (apply (bool_decide_unpack _); vm_compute; exact I).
  assert (H5 : Forall (fun p' => (f (contentOf (h p'))).2 = None) pre)
    by (repeat constructor).
  assert (H6 : (f (contentOf (h 1%nat))).2 = Some (Failure "stop"))
    by reflexivity.
  exact (conj H1 (conj H2 (conj H3 (conj H4 (conj H5 (conj H6
           (MapInPlace_first_error h q f pre 1%nat _ _
              H1 H2 H3 H4 H5 H6))))))).
Defined.

Lemma FilterInPlace_keeps_all_witness :
  let h : @Heap nat := fun p => BaseElement p in
  let q :=
    mkQueue Lifo false (mkSlice [] [Some 0%nat; Some 1%nat] []) 2 0 in
  let f (c : nat) : bool * option error := (true, None) in
  let ps := [0%nat; 1%nat] in
  lock q = false /\ elems (queueSlice q) = map Some ps
  /\ Forall (fun p => f (contentOf (h p)) = (true, None)) ps
  /\ FilterInPlace h q f = Returns (None, q).
Proof.
  intros h q f ps.
  assert (H1 : lock q = false) by reflexivity.
  assert (H2 : elems (queueSlice q) = map Some ps) by reflexivity.
  assert (H3 : Forall (fun p => f (contentOf (h p)) = (true, None)) ps)
    by (repeat constructor).
  exact (conj H1 (conj H2 (conj H3
           (FilterInPlace_keeps_all h q f ps H1 H2 H3)))).
Defined.

Lemma FilterInPlace_first_error_witness :
  let h : @Heap nat := fun p => BaseElement p in
  let q :=
    mkQueue Lifo false
      (mkSlice [] [Some 0%nat; Some 1%nat; Some 2%nat] []) 3 0 in
  let f (c : nat) : bool * option error :=
    if Nat.eqb c 1 then (false, Some (Failure "stop")) else (true, None) in
  let pre := [0%nat] in
  lock q = false
  /\ elems (queueSlice q) = map Some pre ++ Some 1%nat :: [Some 2%nat]
  /\ Forall (fun p' => f (contentOf (h p')) = (true, None)) pre
  /\ f (contentOf (h 1%nat)) = (false, Some (Failure "stop"))
  /\ FilterInPlace h q f
     = Returns (Some (WrappedAt (Failure "stop")
                        "filtering element at position %d"
                        (Z.of_nat (length pre))),
                q).
Proof.
  intros h q f pre.
  assert (H1 : lock q = false) by reflexivity.
  assert (H2 : elems (queueSlice q)
               = map Some pre ++ Some 1%nat :: [Some 2%nat]) by reflexivity.
  assert (H3 : Forall (fun p' => f (contentOf (h p')) = (true, None)) pre)
    by (repeat constructor).
  assert (H4 : f (contentOf (h 1%nat)) = (false, Some (Failure "stop")))
    by reflexivity.
  exact (conj H1 (conj H2 (conj H3 (conj H4
           (FilterInPlace_first_error h q f pre 1%nat _ _ _
              H1 H2 H3 H4))))).
Defined.

Lemma FilterInPlace_inner_rejection_never_succeeds_witness :
  let h : @Heap nat := fun p => BaseElement p in
  let q :=
    mkQueue Lifo false
      (mkSlice [] [Some 0%nat; Some 1%nat; Some 2%nat] []) 3 0 in
  let f (c : nat) : bool * option error := (negb (Nat.eqb c 1), None) in
  let pre := [0%nat] in
  let post : list Element := [Some 2%nat] in
  lock q = false /\ full q
  /\ elems (queueSlice q) = map Some pre ++ Some 1%nat :: post
  /\ pre <> [] /\ post <> []
  /\ Forall (fun p' => f (contentOf (h p')) = (true, None)) pre
  /\ f (contentOf (h 1%nat)) = (false, None)
  /\ forall q', FilterInPlace h q f <> Returns (None, q').
Proof.
  intros h q f pre post.
  assert (H1 : lock q = false) by reflexivity.
  assert (H2 : full q) by reflexivity.
  assert (H3 : elems (queueSlice q) = map Some pre ++ Some 1%nat :: post)
    by reflexivity.
  assert (H4 : pre <> []) by discriminate.
  assert (H5 : post <> []) by discriminate.
  assert (H6 : Forall (fun p' => f (contentOf (h p')) = (true, None)) pre)
    by (repeat constructor).
  assert (H7 : f (contentOf (h 1%nat)) = (false, None)) by reflexivity.
  exact (conj H1 (conj H2 (conj H3 (conj H4 (conj H5 (conj H6 (conj H7
           (FilterInPlace_inner_rejection_never_succeeds h q f pre 1%nat
              post H1 H2 H3 H4 H5 H6 H7)))))))).
Defined.

Lemma FilterInPlace_rejects_last_cell_witness :
  let h : @Heap nat := fun p => BaseElement p in
  let q :=
    mkQueue Lifo false (mkSlice [] [Some 0%nat; Some 1%nat] []) 2 0 in
  let f (c : nat) : bool * option error := (negb (Nat.eqb c 1), None) in
  let pre := [0%nat] in
  lock q = false /\ full q
  /\ elems (queueSlice q) = map Some pre ++ [Some 1%nat]
  /\ pre <> []
  /\ Forall (fun p' => f (contentOf (h p')) = (true, None)) pre
  /\ f (contentOf (h 1%nat)) = (false, None)
  /\ exists q',
       FilterInPlace h q f = Returns (None, q')
       /\ elems (queueSlice q') = map Some pre
       /\ numElements q' = numElements q - 1
       /\ order q' = order q /\ lock q' = false
       /\ maxnumElements q' = maxnumElements q.
Proof.
  intros h q f pre.
  assert (H1 : lock q = false) by reflexivity.
  assert (H2 : full q) by reflexivity.
  assert (H3 : elems (queueSlice q) = map Some pre ++ [Some 1%nat])
    by reflexivity.
  assert (H4 : pre <> []) by discriminate.
  assert (H5 : Forall (fun p' => f (contentOf (h p')) = (true, None)) pre)
    by (repeat constructor).
  assert (H6 : f (contentOf (h 1%nat)) = (false, None)) by reflexivity.
  exact (conj H1 (conj H2 (conj H3 (conj H4 (conj H5 (conj H6
           (FilterInPlace_rejects_last_cell h q f pre 1%nat
              H1 H2 H3 H4 H5 H6))))))).
Defined.

Lemma UpdatePriority_Fifo_Lifo_writes_witness :
  let h : @Heap nat :=
    fun p => PriorityElement (if Nat.eqb p 0 then 1 else 5) p in
  let grow (c n : Z) := Z.max n (2 * c) in
  let q :=
    mkQueue Fifo false (mkSlice [] [Some 0%nat; Some 1%nat] []) 2 0 in
  let ps := [0%nat; 1%nat] in
  lock q = false /\ (order q = Fifo \/ order q = Lifo)
  /\ elems (queueSlice q) = map Some ps /\ NoDup ps
  /\ exists h',
       UpdatePriority grow h 1 2 false q
       = Returns (countPriority h 1 (map Some ps), h', q)
       /\ (forall p, p ∈ ps ->
             h' p = if PrimFloat.eqb (priorityOf (h p)) 1
                    then withPriority (h p) 2 else h p)
       /\ (forall p, p ∉ ps -> h' p = h p).
Proof.
  intros h grow q ps.
  assert (H1 : lock q = false) by reflexivity.
  assert (H2 : order q = Fifo \/ order q = Lifo) by (left; reflexivity).
  assert (H3 : elems (queueSlice q) = map Some ps) by reflexivity.
  assert (H4 : NoDup ps) by (apply (bool_decide_unpack _); vm_compute; exact I).
  exact (conj H1 (conj H2 (conj H3 (conj H4
           (UpdatePriority_Fifo_Lifo_writes grow h 1 2 false q ps
              H1 H2 H3 H4))))).
Defined.

Lemma UpdatePriority_priority_queue_never_returns_witness :
  let h : @Heap nat :=
    fun p => PriorityElement (if Nat.eqb p 0 then 5 else 1) p in
  let grow (c n : Z) := Z.max n (2 * c) in
  let q :=
    mkQueue PriorityHigh false (mkSlice [] [Some 0%nat; Some 1%nat] []) 2 0 in
  let pre := [0%nat] in
  lock q = false /\ (order q = PriorityHigh \/ order q = PriorityLow)
  /\ elems (queueSlice q) = map Some pre ++ Some 1%nat :: []
  /\ Forall (fun p' => PrimFloat.eqb (priorityOf (h p')) 1 = false) pre
  /\ PrimFloat.eqb (priorityOf (h 1%nat)) 1 = true
  /\ forall r, UpdatePriority grow h 1 2 false q <> Returns r.
Proof.
  intros h grow q pre.
  assert (H1 : lock q = false) by reflexivity.
  assert (H2 : order q = PriorityHigh \/ order q = PriorityLow)
    by (left; reflexivity).
  assert (H3 : elems (queueSlice q) = map Some pre ++ Some 1%nat :: [])
    by reflexivity.
  assert (H4 : Forall (fun p' => PrimFloat.eqb (priorityOf (h p')) 1 = false)
                 pre) by (repeat constructor).
  assert (H5 : PrimFloat.eqb (priorityOf (h 1%nat)) 1 = true) by reflexivity.
  exact (conj H1 (conj H2 (conj H3 (conj H4 (conj H5
           (UpdatePriority_priority_queue_never_returns grow h 1 2 false q
              pre 1%nat [] H1 H2 H3 H4 H5)))))).
Defined.

Lemma UpdatePriority_other_orders_witness :
  let h : @Heap nat := fun p => PriorityElement 1 p in
  let grow (c n : Z) := Z.max n (2 * c) in
  let q :=
    mkQueue FifoLimited false (mkSlice [] [Some 0%nat] []) 0 3 in
  lock q = false /\ (order q < Fifo \/ PriorityLow < order q)
  /\ UpdatePriority grow h 1 2 true q = Returns (0, h, q).
Proof.
  intros h grow q.
  assert (H1 : lock q = false) by reflexivity.
  assert (H2 : order q < Fifo \/ PriorityLow < order q)
    by (right; reflexivity).
  exact (conj H1 (conj H2
           (UpdatePriority_other_orders grow h 1 2 true q H1 H2))).
Defined.

Lemma NewPriorityElement_round_trip_witness :
  let h : @Heap nat := fun p => BaseElement 0%nat in
  let grow (c n : Z) := Z.max n (2 * c) in
  Fifo <= PriorityHigh <= PriorityLow
  /\ exists q0 q1 q2,
       NewQueue PriorityHigh = (Some q0, None)
       /\ Insert grow (NewPriorityElement h 4%nat 7%nat 3).1
            (NewPriorityElement h 4%nat 7%nat 3).2 q0
          = Returns (None, q1)
       /\ Len q1 = 1
       /\ Remove 0%nat (NewPriorityElement h 4%nat 7%nat 3).1 q1
          = Returns (7%nat, 3%float, None, q2)
       /\ Len q2 = 0.
Proof.
  intros h grow.
  assert (H1 : Fifo <= PriorityHigh <= PriorityLow)
    by (unfold Fifo, PriorityHigh, PriorityLow; lia).
  exact (conj H1
           (NewPriorityElement_round_trip 0%nat grow h 4%nat 7%nat 3
              PriorityHigh H1)).
Defined.

Lemma NewBaseElement_round_trip_witness :
  let h : @Heap nat := fun p => BaseElement 0%nat in
  let grow (c n : Z) := Z.max n (2 * c) in
  Fifo <= Lifo <= PriorityLow
  /\ exists q0 q1 q2,
       NewQueue Lifo = (Some q0, None)
       /\ Insert grow (NewBaseElement h 4%nat 7%nat).1
            (NewBaseElement h 4%nat 7%nat).2 q0
          = Returns (None, q1)
       /\ Len q1 = 1
       /\ Remove 0%nat (NewBaseElement h 4%nat 7%nat).1 q1
          = Returns (7%nat, 0%float, None, q2)
       /\ Len q2 = 0.
Proof.
  intros h grow.
  assert (H1 : Fifo <= Lifo <= PriorityLow)
    by (unfold Fifo, Lifo, PriorityLow; lia).
  exact (conj H1 (NewBaseElement_round_trip 0%nat grow h 4%nat 7%nat Lifo H1)).
Defined.
